(** * GeoTIFF-Python: the DEM tile manager of [tools/dem_manager.py]

    A shallow embedding of the classes [DEMTile] and [DEMManager] and the
    properties of tile selection and elevation sampling.

    Python [float] is IEEE binary64 and is modelled by Rocq's primitive
    [float]; Python [int] is [Z]; an exception is a value of [exn] carried
    by [result]; the calls into GDAL/OSR (opening a file, reading a pixel,
    transforming a point) are fields of the records [Dataset] and [World],
    each returning a [result] because [gdal.UseExceptions()] is in force. *)

From Stdlib Require Import ZArith Zpower QArith Qround Qpower Lqa.
From Stdlib Require Import List String Ascii Bool Lia.
From Stdlib Require Import Floats.
Import ListNotations.

Local Open Scope Z_scope.

(** ** Python values and exceptions *)

Inductive exn : Type :=
| ValueError
| OverflowError
| ZeroDivisionError
| IndexError
| RuntimeError (msg : string).

Inductive result (A : Type) : Type :=
| Ok (a : A)
| Raise (e : exn).

Arguments Ok {A} a.
Arguments Raise {A} e.

(** The exact rational value of a finite binary64 number. *)
Definition float_value (f : float) : option Q :=
  match Prim2SF f with
  | S754_zero _ => Some (0 # 1)
  | S754_finite s m e =>
      Some (Qmult (inject_Z (cond_Zopp s (Zpos m))) (Qpower (2 # 1) e))
  | S754_infinity _ => None
  | S754_nan => None
  end.

(** [int(math.floor(f))]: the floor as an exact integer; [math.floor]
    raises [OverflowError] on an infinity and [ValueError] on a NaN. *)
Definition math_floor (f : float) : result Z :=
  match Prim2SF f with
  | S754_infinity _ => Raise OverflowError
  | S754_nan => Raise ValueError
  | _ => match float_value f with
         | Some q => Ok (Qfloor q)
         | None => Raise ValueError
         end
  end.

(** Python's [a / b] on floats: a zero divisor (of either sign) raises. *)
Definition py_div (a b : float) : result float :=
  if PrimFloat.eqb b 0%float then Raise ZeroDivisionError
  else Ok (PrimFloat.div a b).

(** [float(n)] for a raster dimension (a C [int], so below [2^63]). *)
Definition float_of_int (n : Z) : float :=
  if n <? 0 then PrimFloat.opp (PrimFloat.of_uint63 (Uint63.of_Z (- n)))
  else PrimFloat.of_uint63 (Uint63.of_Z n).

(** Built-in [min] and [max] over a list: the first element is kept until a
    later one compares strictly below (above) it; empty input raises. *)
Definition py_min (l : list float) : result float :=
  match l with
  | [] => Raise ValueError
  | x :: r => Ok (fold_left (fun m y => if PrimFloat.ltb y m then y else m) r x)
  end.

Definition py_max (l : list float) : result float :=
  match l with
  | [] => Raise ValueError
  | x :: r => Ok (fold_left (fun m y => if PrimFloat.ltb m y then y else m) r x)
  end.

(** ** The collaborators *)

(** The six coefficients of [GetGeoTransform()]. *)
Record GeoTransform : Type := {
  gt0 : float;  (* x0 *)
  gt1 : float;  (* px_w *)
  gt2 : float;  (* rot_x *)
  gt3 : float;  (* y0 *)
  gt4 : float;  (* rot_y *)
  gt5 : float   (* px_h *)
}.

Definition point3 : Type := (float * float * float)%type.

(** What an opened GDAL dataset answers.  [authority_epsg] is the outcome of
    [int(proj.GetAttrValue("AUTHORITY", 1))] with its [try/except]: [None]
    when any exception was caught.  [ReadAsArray px py] is
    [band.ReadAsArray(px, py, 1, 1)] followed by [float(val[0, 0])] when an
    array came back. *)
Record Dataset : Type := {
  GetGeoTransform : GeoTransform;
  RasterXSize : Z;
  RasterYSize : Z;
  authority_epsg : option Z;
  wgs84_to_proj : float -> float -> result point3;
  proj_to_wgs84 : float -> float -> result point3;
  GetNoDataValue : option float;
  ReadAsArray : Z -> Z -> result (option float)
}.

(** Monad of the loader: an exception or a value, together with the log of
    the path strings handed to [gdal.Open] so far. *)
Definition IO (A : Type) : Type := list string -> result A * list string.

Definition ret {A} (a : A) : IO A := fun log => (Ok a, log).
Definition throw {A} (e : exn) : IO A := fun log => (Raise e, log).
Definition bind {A B} (c : IO A) (f : A -> IO B) : IO B :=
  fun log => match c log with
             | (Ok a, log') => f a log'
             | (Raise e, log') => (Raise e, log')
             end.
Definition lift {A} (r : result A) : IO A := fun log => (r, log).

Notation "x <- c ;; k" := (bind c (fun x => k))
  (at level 61, c at next level, right associativity).

Fixpoint mapM {A B} (f : A -> IO B) (l : list A) : IO (list B) :=
  match l with
  | [] => ret []
  | a :: r => b <- f a ;; bs <- mapM f r ;; ret (b :: bs)
  end.

Fixpoint result_map {A B} (f : A -> result B) (l : list A) : result (list B) :=
  match l with
  | [] => Ok []
  | a :: r => match f a with
              | Raise e => Raise e
              | Ok b => match result_map f r with
                        | Raise e => Raise e
                        | Ok bs => Ok (b :: bs)
                        end
              end
  end.

(** ** class DEMTile *)

Module DEMTile.

Record t : Type := {
  path : string;
  ds : Dataset;
  gt : GeoTransform;
  rx : Z;
  ry : Z;
  epsg : option Z;
  need_transform : bool;
  to_dem : option (float -> float -> result point3);
  to_wgs84 : option (float -> float -> result point3);
  minlon : float;
  maxlon : float;
  minlat : float;
  maxlat : float;
  nodata : option float
}.

(** The default [epsilon_deg=1e-6], as the binary64 number Python reads. *)
Definition default_epsilon_deg : float := 0x1.0c6f7a0b5ed8dp-20%float.

(** [__init__] after [gdal.Open] has returned the handle [d]. *)
Definition init_from (p : string) (d : Dataset) (epsilon_deg : float)
  : result t :=
  let g := GetGeoTransform d in
  let w := RasterXSize d in
  let h := RasterYSize d in
  let e := authority_epsg d in
  let need := match e with
              | None => false
              | Some c => negb (c =? 4326)
              end in
  let x0 := gt0 g in
  let y0 := gt3 g in
  let x1 := PrimFloat.add x0 (PrimFloat.mul (float_of_int w) (gt1 g)) in
  let y1 := PrimFloat.add y0 (PrimFloat.mul (float_of_int h) (gt5 g)) in
  let corners := [(x0, y0); (x1, y0); (x0, y1); (x1, y1)] in
  match (if need
         then result_map (fun c => proj_to_wgs84 d (fst c) (snd c)) corners
         else Ok (map (fun c => (fst c, snd c, 0%float)) corners)) with
  | Raise ex => Raise ex
  | Ok corners_wgs =>
      let lons := map (fun c => fst (fst c)) corners_wgs in
      let lats := map (fun c => snd (fst c)) corners_wgs in
      match py_min lons, py_max lons, py_min lats, py_max lats with
      | Ok lo_lon, Ok hi_lon, Ok lo_lat, Ok hi_lat =>
          Ok {| path := p; ds := d; gt := g; rx := w; ry := h; epsg := e;
                need_transform := need;
                to_dem := if need then Some (wgs84_to_proj d) else None;
                to_wgs84 := if need then Some (proj_to_wgs84 d) else None;
                minlon := PrimFloat.sub lo_lon epsilon_deg;
                maxlon := PrimFloat.add hi_lon epsilon_deg;
                minlat := PrimFloat.sub lo_lat epsilon_deg;
                maxlat := PrimFloat.add hi_lat epsilon_deg;
                nodata := GetNoDataValue d |}
      | Raise ex, _, _, _ => Raise ex
      | _, Raise ex, _, _ => Raise ex
      | _, _, Raise ex, _ => Raise ex
      | _, _, _, Raise ex => Raise ex
      end
  end.

(** [DEMTile(path)]: [gdal.Open] may raise, or hand back no dataset, in
    which case the constructor raises [RuntimeError] itself. *)
Definition init (gdal_Open : string -> result (option Dataset))
    (p : string) (epsilon_deg : float) : IO t :=
  fun log =>
    match gdal_Open p with
    | Raise ex => (Raise ex, log ++ [p])
    | Ok None =>
        (Raise (RuntimeError (String.append "Unable to open GeoTIFF: " p)),
         log ++ [p])
    | Ok (Some d) => (init_from p d epsilon_deg, log ++ [p])
    end.

Definition bbox_contains (self : t) (lat lon : float) : bool :=
  (PrimFloat.leb (minlat self) lat && PrimFloat.leb lat (maxlat self))
  && (PrimFloat.leb (minlon self) lon && PrimFloat.leb lon (maxlon self)).

(** Native coordinates of the point: reprojected when the tile needs it. *)
Definition native_xy (self : t) (lat lon : float) : result (float * float) :=
  if need_transform self then
    match to_dem self with
    | Some tr => match tr lon lat with
                 | Ok (x, y, _) => Ok (x, y)
                 | Raise ex => Raise ex
                 end
    | None => Raise (RuntimeError "to_dem is None")
    end
  else Ok (lon, lat).

(** The fractional pixel coordinates [px_f], [py_f]. *)
Definition pixel_f (self : t) (lat lon : float) : result (float * float) :=
  match native_xy self lat lon with
  | Raise ex => Raise ex
  | Ok (x, y) =>
      match py_div (PrimFloat.sub x (gt0 (gt self))) (gt1 (gt self)) with
      | Raise ex => Raise ex
      | Ok px_f =>
          match py_div (PrimFloat.sub y (gt3 (gt self))) (gt5 (gt self)) with
          | Raise ex => Raise ex
          | Ok py_f => Ok (px_f, py_f)
          end
      end
  end.

(** The integer pixel indices [px], [py]. *)
Definition pixel_index (self : t) (lat lon : float) : result (Z * Z) :=
  match pixel_f self lat lon with
  | Raise ex => Raise ex
  | Ok (px_f, py_f) =>
      match math_floor (PrimFloat.add px_f 0.5%float) with
      | Raise ex => Raise ex
      | Ok px =>
          match math_floor (PrimFloat.add py_f 0.5%float) with
          | Raise ex => Raise ex
          | Ok py => Ok (px, py)
          end
      end
  end.

Definition in_raster (self : t) (px py : Z) : bool :=
  ((0 <=? px) && (px <? rx self)) && ((0 <=? py) && (py <? ry self)).

Definition is_nodata (self : t) (z : float) : bool :=
  match nodata self with
  | Some nd => PrimFloat.eqb z nd
  | None => false
  end.

(** [get_elevation]: [Ok None] is Python's [None]. *)
Definition get_elevation (self : t) (lat lon : float) : result (option float) :=
  match pixel_index self lat lon with
  | Raise ex => Raise ex
  | Ok (px, py) =>
      if negb (in_raster self px py) then Ok None
      else match ReadAsArray (ds self) px py with
           | Raise ex => Raise ex
           | Ok None => Ok None
           | Ok (Some z) => if is_nodata self z then Ok None else Ok (Some z)
           end
  end.

End DEMTile.

(** ** Regular expressions of [re.match]

    A backtracking matcher with Python's priorities: a lazy star tries the
    shorter repetition first, a greedy plus the longer; [$] holds at the end
    of the string and before a final newline; the first complete match in
    that order is the one whose groups are returned.  File names are
    strings of 8-bit characters, among which [\d] is exactly [0-9]. *)

Definition chars : Type := list ascii.

Inductive regex : Type :=
| Eps
| Chr (c : ascii)
| LazyStar (p : ascii -> bool)
| Plus (p : ascii -> bool)
| Seq (a b : regex)
| Grp (n : nat) (r : regex)
| Eos.

(** [\d] on the characters of the model.  A file name is a string of 8-bit
    characters, among which the decimal digits are [0] to [9]; the digits
    of other scripts, which [\d], [int] and [float] accept as well, lie
    outside these strings. *)
Definition is_digit (c : ascii) : bool :=
  ((48 <=? nat_of_ascii c) && (nat_of_ascii c <=? 57))%nat.

Definition is_dot (c : ascii) : bool := Ascii.eqb c ".".

Definition newline : ascii := ascii_of_nat 10.

(** [.] matches every character but a newline. *)
Definition any_char (c : ascii) : bool := negb (Ascii.eqb c newline).

(** [[\d\.]] *)
Definition digit_or_dot (c : ascii) : bool := is_digit c || is_dot c.

Definition groups : Type := nat -> option chars.

Definition no_groups : groups := fun _ => None.

Definition set_group (n : nat) (v : chars) (g : groups) : groups :=
  fun k => if Nat.eqb k n then Some v else g k.

Section Matcher.
Variable R : Type.

Fixpoint lazy_star (p : ascii -> bool) (s : chars) (k : chars -> option R)
  : option R :=
  match k s with
  | Some r => Some r
  | None => match s with
            | c :: s' => if p c then lazy_star p s' k else None
            | [] => None
            end
  end.

Fixpoint greedy_star (p : ascii -> bool) (s : chars) (k : chars -> option R)
  : option R :=
  match s with
  | c :: s' => if p c
               then match greedy_star p s' k with
                    | Some r => Some r
                    | None => k s
                    end
               else k s
  | [] => k s
  end.

Definition greedy_plus (p : ascii -> bool) (s : chars) (k : chars -> option R)
  : option R :=
  match s with
  | c :: s' => if p c then greedy_star p s' k else None
  | [] => None
  end.

Fixpoint run (r : regex) (s : chars) (g : groups)
    (k : chars -> groups -> option R) : option R :=
  match r with
  | Eps => k s g
  | Chr c => match s with
             | x :: s' => if Ascii.eqb x c then k s' g else None
             | [] => None
             end
  | LazyStar p => lazy_star p s (fun s' => k s' g)
  | Plus p => greedy_plus p s (fun s' => k s' g)
  | Seq a b => run a s g (fun s' g' => run b s' g' k)
  | Grp n a =>
      run a s g
        (fun s' g' =>
           k s' (set_group n (List.firstn (List.length s - List.length s') s) g'))
  | Eos => match s with
           | [] => k s g
           | [c] => if Ascii.eqb c newline then k s g else None
           | _ => None
           end
  end.
End Matcher.

Definition re_match (r : regex) (name : string) : option groups :=
  run groups r (list_ascii_of_string name) no_groups (fun _ g => Some g).

Definition lit (s : string) : regex :=
  fold_right (fun c r => Seq (Chr c) r) Eps (list_ascii_of_string s).

Definition seq_of (l : list regex) : regex := fold_right Seq Eps l.

(** [r".*?_(\d+)-(\d+)_([\d\.]+)_\d+_\d+\.tif$"] *)
Definition swisstopo_re : regex :=
  seq_of [LazyStar any_char; Chr "_"; Grp 1 (Plus is_digit); Chr "-";
          Grp 2 (Plus is_digit); Chr "_"; Grp 3 (Plus digit_or_dot); Chr "_";
          Plus is_digit; Chr "_"; Plus is_digit; lit ".tif"; Eos].

(** [r"ASTGTMV\d+_N(\d+)E(\d+)_dem\.tif$"] *)
Definition aster_re : regex :=
  seq_of [lit "ASTGTMV"; Plus is_digit; lit "_N"; Grp 1 (Plus is_digit);
          Chr "E"; Grp 2 (Plus is_digit); lit "_dem.tif"; Eos].

(** [m.group(n)] of a group that took part in the match. *)
Definition group (g : groups) (n : nat) : chars :=
  match g n with
  | Some v => v
  | None => []
  end.

(** ** [int(...)] and [float(...)] on the captured text *)

Definition digit_val (c : ascii) : Z := Z.of_nat (nat_of_ascii c) - 48.

(** [int(s)] for a string of the decimal digits [0] to [9], shorter than
    the length (4300 digits by default) from which CPython's [int] refuses
    a text with [ValueError]. *)
Definition py_int (s : chars) : Z :=
  fold_left (fun acc c => 10 * acc + digit_val c) s 0.

Definition Z2SF (n : Z) : spec_float :=
  match n with
  | Z0 => S754_zero false
  | Zpos p => S754_finite false p 0
  | Zneg p => S754_finite true p 0
  end.

(** The binary64 number nearest to [n / 10^k] (ties to even). *)
Definition decimal_to_float (n : Z) (k : nat) : float :=
  SF2Prim (SFdiv prec emax (Z2SF n) (Z2SF (10 ^ Z.of_nat k))).

Fixpoint after_dot (s : chars) : option chars :=
  match s with
  | [] => None
  | c :: r => if is_dot c then Some r else after_dot r
  end.

(** [float(s)] for a string over [[0-9.]]: it needs a digit and at most one
    dot; anything else (["."], ["1.2.3"]) raises [ValueError]. *)
Definition py_float (s : chars) : result float :=
  let digits := filter is_digit s in
  let dots := filter is_dot s in
  match digits, dots with
  | [], _ => Raise ValueError
  | _, [] => Ok (decimal_to_float (py_int digits) 0)
  | _, [_] =>
      match after_dot s with
      | Some frac => Ok (decimal_to_float (py_int digits) (List.length frac))
      | None => Raise ValueError
      end
  | _, _ => Raise ValueError
  end.

(** ** The file system seen by the manager *)

(** A [pathlib.Path] inside the tile folder. *)
Record Path : Type := { folder : string; name : string }.

(** [str(path)] *)
Definition str (p : Path) : string :=
  String.append (folder p) (String.append "/" (name p)).

(** [glob_tif folder] lists the names that [folder.glob("*.tif")] yields, in
    the order it yields them; [gdal_Open] is [gdal.Open] on a path string. *)
Record World : Type := {
  glob_tif : string -> list string;
  gdal_Open : string -> result (option Dataset)
}.

(** Comparison of a Python [int] with a [float]: exact, never by rounding
    the integer; false against a NaN. *)
Definition int_lt_float (z : Z) (f : float) : bool :=
  match Prim2SF f with
  | S754_nan => false
  | S754_infinity s => negb s
  | _ => match float_value f with
         | Some q => match Qcompare (inject_Z z) q with Lt => true | _ => false end
         | None => false
         end
  end.

Definition int_gt_float (z : Z) (f : float) : bool :=
  match Prim2SF f with
  | S754_nan => false
  | S754_infinity s => s
  | _ => match float_value f with
         | Some q => match Qcompare (inject_Z z) q with Gt => true | _ => false end
         | None => false
         end
  end.

(** ** class DEMManager *)

Module DEMManager.

Record t : Type := {
  dem_folder : string;
  tiles : list DEMTile.t
}.

(** [DEMManager(dem_folder)] *)
Definition init (dem_folder : string) : t :=
  {| dem_folder := dem_folder; tiles := [] |}.

(** The dictionary returned for a Swisstopo name. *)
Record swiss_info : Type := { ix : Z; iy : Z; res : float }.

(** The dictionary returned for an ASTER name. *)
Record aster_info : Type := {
  a_minlat : Z;
  a_maxlat : Z;
  a_minlon : Z;
  a_maxlon : Z;
  a_res : float
}.

Definition _parse_swisstopo_name (name : string) : result (option swiss_info) :=
  match re_match swisstopo_re name with
  | None => Ok None
  | Some m =>
      let ix := py_int (group m 1) in
      let iy := py_int (group m 2) in
      match py_float (group m 3) with
      | Raise ex => Raise ex
      | Ok res => Ok (Some {| ix := ix; iy := iy; res := res |})
      end
  end.

Definition _parse_aster_name (name : string) : option aster_info :=
  match re_match aster_re name with
  | None => None
  | Some m =>
      let lat := py_int (group m 1) in
      let lon := py_int (group m 2) in
      Some {| a_minlat := lat; a_maxlat := lat + 1;
              a_minlon := lon; a_maxlon := lon + 1; a_res := 30%float |}
  end.

(** [swiss_groups]: a dictionary from the cell [(ix, iy)] to its entries
    [(res, path)], kept in insertion order as Python dictionaries are. *)
Definition cell : Type := (Z * Z)%type.
Definition entry : Type := (float * Path)%type.
Definition swiss_dict : Type := list (cell * list entry).

Definition cell_eqb (a b : cell) : bool :=
  (fst a =? fst b) && (snd a =? snd b).

(** [swiss_groups.setdefault(key, []).append(e)] *)
Fixpoint setdefault_append (key : cell) (e : entry) (d : swiss_dict)
  : swiss_dict :=
  match d with
  | [] => [(key, [e])]
  | (k, es) :: r =>
      if cell_eqb k key then (k, es ++ [e]) :: r
      else (k, es) :: setdefault_append key e r
  end.

(** The first loop: every file is filed under its Swisstopo cell or, failing
    that pattern, appended to [aster_tiles] when the ASTER pattern matches. *)
Fixpoint classify (files : list Path) (swiss_groups : swiss_dict)
    (aster_tiles : list (aster_info * Path))
  : result (swiss_dict * list (aster_info * Path)) :=
  match files with
  | [] => Ok (swiss_groups, aster_tiles)
  | p :: rest =>
      match _parse_swisstopo_name (name p) with
      | Raise ex => Raise ex
      | Ok (Some info_swiss) =>
          classify rest
            (setdefault_append (ix info_swiss, iy info_swiss)
               (res info_swiss, p) swiss_groups)
            aster_tiles
      | Ok None =>
          match _parse_aster_name (name p) with
          | Some info_aster =>
              classify rest swiss_groups (aster_tiles ++ [(info_aster, p)])
          | None => classify rest swiss_groups aster_tiles
          end
      end
  end.

(** [entries.sort(key=lambda x: x[0])]: a stable sort on the resolution,
    which compares keys with [<] only. *)
Fixpoint insert_entry (e : entry) (l : list entry) : list entry :=
  match l with
  | [] => [e]
  | h :: r => if PrimFloat.ltb (fst h) (fst e) then h :: insert_entry e r
              else e :: h :: r
  end.

Definition sort_entries (l : list entry) : list entry :=
  fold_right insert_entry [] l.

(** The bounding box of the batch: [(minlat, maxlat, minlon, maxlon)]. *)
Record bbox : Type := {
  q_minlat : float; q_maxlat : float; q_minlon : float; q_maxlon : float
}.

Definition coords_bbox (coords : list (float * float)) : result bbox :=
  let lats := map fst coords in
  let lons := map snd coords in
  match py_min lats, py_max lats, py_min lons, py_max lons with
  | Ok a, Ok b, Ok c, Ok d =>
      Ok {| q_minlat := a; q_maxlat := b; q_minlon := c; q_maxlon := d |}
  | Raise ex, _, _, _ => Raise ex
  | _, Raise ex, _, _ => Raise ex
  | _, _, Raise ex, _ => Raise ex
  | _, _, _, Raise ex => Raise ex
  end.

Definition tile_overlaps (t : DEMTile.t) (b : bbox) : bool :=
  negb (PrimFloat.ltb (DEMTile.maxlat t) (q_minlat b)
        || PrimFloat.ltb (q_maxlat b) (DEMTile.minlat t)
        || PrimFloat.ltb (DEMTile.maxlon t) (q_minlon b)
        || PrimFloat.ltb (q_maxlon b) (DEMTile.minlon t)).

Definition aster_overlaps (info : aster_info) (b : bbox) : bool :=
  negb (int_lt_float (a_maxlat info) (q_minlat b)
        || int_gt_float (a_minlat info) (q_maxlat b)
        || int_lt_float (a_maxlon info) (q_minlon b)
        || int_gt_float (a_minlon info) (q_maxlon b)).

(** [entries[0][1]] after the sort. *)
Definition finest_of (entries : list entry) : result Path :=
  match sort_entries entries with
  | [] => Raise IndexError
  | e :: _ => Ok (snd e)
  end.

(** The loop over [swiss_groups.items()]: the finest file of each cell is
    opened for its footprint and kept when it overlaps the batch. *)
Fixpoint select_finest (w : World) (b : bbox) (d : swiss_dict)
    (chosen_paths : list Path) : IO (list Path) :=
  match d with
  | [] => ret chosen_paths
  | (_, entries) :: rest =>
      finest_path <- lift (finest_of entries) ;;
      t <- DEMTile.init (gdal_Open w) (str finest_path)
             DEMTile.default_epsilon_deg ;;
      select_finest w b rest
        (if tile_overlaps t b then chosen_paths ++ [finest_path]
         else chosen_paths)
  end.

(** The fallback loop over [aster_tiles]. *)
Definition select_aster (b : bbox) (aster_tiles : list (aster_info * Path))
  : list Path :=
  map snd (filter (fun ip => aster_overlaps (fst ip) b) aster_tiles).

Definition tif_files (w : World) (self : t) : list Path :=
  map (fun n => {| folder := dem_folder self; name := n |})
      (glob_tif w (dem_folder self)).

(** [load_tiles_for_coords]: the value is the manager after the call
    together with the list it returns; when the call raises, no assignment
    to [self.tiles] has happened. *)
Definition load_tiles_for_coords (w : World) (self : t)
    (coords : list (float * float)) : IO (t * list DEMTile.t) :=
  b <- lift (coords_bbox coords) ;;
  cl <- lift (classify (tif_files w self) [] []) ;;
  chosen_paths <- select_finest w b (fst cl) [] ;;
  let chosen_paths :=
    match chosen_paths with
    | [] => select_aster b (snd cl)
    | _ => chosen_paths
    end in
  ts <- mapM (fun p => DEMTile.init (gdal_Open w) (str p)
                         DEMTile.default_epsilon_deg) chosen_paths ;;
  ret ({| dem_folder := dem_folder self; tiles := ts |}, ts).

(** The caller's view of one call: what was returned or raised, the manager
    afterwards (unchanged by a raising call) and the paths opened. *)
Definition call_load (w : World) (self : t) (coords : list (float * float))
  : result (list DEMTile.t) * t * list string :=
  match load_tiles_for_coords w self coords [] with
  | (Ok (self', ts), log) => (Ok ts, self', log)
  | (Raise ex, log) => (Raise ex, self, log)
  end.

(** [get_elevation] over [self.tiles]. *)
Fixpoint probe (ts : list DEMTile.t) (lat lon : float) : result (option float) :=
  match ts with
  | [] => Ok None
  | t :: rest =>
      if DEMTile.bbox_contains t lat lon then
        match DEMTile.get_elevation t lat lon with
        | Raise ex => Raise ex
        | Ok (Some elev) => Ok (Some elev)
        | Ok None => probe rest lat lon
        end
      else probe rest lat lon
  end.

Definition get_elevation (self : t) (lat lon : float) : result (option float) :=
  probe (tiles self) lat lon.

End DEMManager.

(** ** Fixtures: small rasters and folders used to run the model *)

Module Fixture.

(** A north-up raster of [w] by [h] pixels of a quarter degree whose top
    left corner is at longitude 8, latitude 47, in WGS84. *)
Definition quarter_degree (w h : Z) (nd : option float)
    (pixel : Z -> Z -> result (option float)) : Dataset :=
  {| GetGeoTransform := {| gt0 := 8%float; gt1 := 0.25%float; gt2 := 0%float;
                           gt3 := 47%float; gt4 := 0%float;
                           gt5 := (-0.25)%float |};
     RasterXSize := w;
     RasterYSize := h;
     authority_epsg := Some 4326;
     wgs84_to_proj := fun x y => Ok (x, y, 0%float);
     proj_to_wgs84 := fun x y => Ok (x, y, 0%float);
     GetNoDataValue := nd;
     ReadAsArray := pixel |}.

(** Elevation [100 + px + 10 * py] everywhere. *)
Definition ramp (px py : Z) : result (option float) :=
  Ok (Some (float_of_int (100 + px + 10 * py))).

(** The sentinel [-9999] everywhere. *)
Definition void (px py : Z) : result (option float) :=
  Ok (Some (-9999)%float).

Definition ramp_ds : Dataset := quarter_degree 4 4 (Some (-9999)%float) ramp.
Definition void_ds : Dataset := quarter_degree 4 4 (Some (-9999)%float) void.

(** A raster in a projected system (EPSG 2056) whose reprojection fails. *)
Definition broken_ds : Dataset :=
  {| GetGeoTransform := {| gt0 := 8%float; gt1 := 0.25%float; gt2 := 0%float;
                           gt3 := 47%float; gt4 := 0%float;
                           gt5 := (-0.25)%float |};
     RasterXSize := 4;
     RasterYSize := 4;
     authority_epsg := Some 2056;
     wgs84_to_proj := fun _ _ => Raise (RuntimeError "transform failed");
     proj_to_wgs84 := fun x y => Ok (x, y, 0%float);
     GetNoDataValue := None;
     ReadAsArray := ramp |}.

(** A raster of unit pixels with its origin at [(0, 0)]. *)
Definition unit_ds : Dataset :=
  {| GetGeoTransform := {| gt0 := 0%float; gt1 := 1%float; gt2 := 0%float;
                           gt3 := 0%float; gt4 := 0%float; gt5 := 1%float |};
     RasterXSize := 4;
     RasterYSize := 4;
     authority_epsg := None;
     wgs84_to_proj := fun x y => Ok (x, y, 0%float);
     proj_to_wgs84 := fun x y => Ok (x, y, 0%float);
     GetNoDataValue := None;
     ReadAsArray := ramp |}.

Definition tile_of (p : string) (d : Dataset) : DEMTile.t :=
  match DEMTile.init_from p d DEMTile.default_epsilon_deg with
  | Ok t => t
  | Raise _ =>
      {| DEMTile.path := p; DEMTile.ds := d; DEMTile.gt := GetGeoTransform d;
         DEMTile.rx := 0; DEMTile.ry := 0; DEMTile.epsg := None;
         DEMTile.need_transform := false; DEMTile.to_dem := None;
         DEMTile.to_wgs84 := None; DEMTile.minlon := 0%float;
         DEMTile.maxlon := 0%float; DEMTile.minlat := 0%float;
         DEMTile.maxlat := 0%float; DEMTile.nodata := None |}
  end.

Definition ramp_tile : DEMTile.t := tile_of "dem/ramp.tif" ramp_ds.
Definition void_tile : DEMTile.t := tile_of "dem/void.tif" void_ds.
Definition broken_tile : DEMTile.t := tile_of "dem/broken.tif" broken_ds.
Definition unit_tile : DEMTile.t := tile_of "dem/unit.tif" unit_ds.

(** [0.49999999999999994], the largest binary64 number below one half. *)
Definition below_half : float := 0x1.fffffffffffffp-2%float.


(** The folder of the specification's scenario: one cell at two resolutions
    and one ASTER tile; every file opens. *)
Definition scenario_world : World :=
  {| glob_tif := fun d =>
       if String.eqb d "dem"
       then ["grid_12-07_2_1_1.tif"; "grid_12-07_0.5_1_1.tif";
             "ASTGTMV3_N46E008_dem.tif"]%string
       else [];
     gdal_Open := fun p =>
       if String.eqb p "dem/grid_12-07_0.5_1_1.tif" then Ok (Some ramp_ds)
       else if String.eqb p "dem/grid_12-07_2_1_1.tif" then Ok (Some void_ds)
       else if String.eqb p "dem/ASTGTMV3_N46E008_dem.tif"
            then Ok (Some ramp_ds)
       else Raise (RuntimeError "No such file or directory") |}.

(** A folder with ASTER tiles and an unrelated file only. *)
Definition coarse_world : World :=
  {| glob_tif := fun d =>
       if String.eqb d "dem"
       then ["ASTGTMV3_N46E008_dem.tif"; "notes.tif";
             "ASTGTMV3_N50E010_dem.tif"]%string
       else [];
     gdal_Open := fun p =>
       if String.eqb p "dem/ASTGTMV3_N46E008_dem.tif" then Ok (Some ramp_ds)
       else Raise (RuntimeError "No such file or directory") |}.

(** Two cells; the file of the second cell cannot be opened: [gdal.Open]
    hands back no dataset. *)
Definition unreadable_world : World :=
  {| glob_tif := fun d =>
       if String.eqb d "dem"
       then ["grid_12-07_0.5_1_1.tif"; "grid_13-07_0.5_1_1.tif"]%string
       else [];
     gdal_Open := fun p =>
       if String.eqb p "dem/grid_12-07_0.5_1_1.tif" then Ok (Some ramp_ds)
       else Ok None |}.

(** A folder holding a name that fits the Swisstopo pattern although its
    resolution field is not a number. *)
Definition misnamed_world : World :=
  {| glob_tif := fun d =>
       if String.eqb d "dem"
       then ["grid_12-07_0.5_1_1.tif"; "grid_12-07_0.5.1_1_1.tif"]%string
       else [];
     gdal_Open := fun p =>
       if String.eqb p "dem/grid_12-07_0.5_1_1.tif" then Ok (Some ramp_ds)
       else Raise (RuntimeError "No such file or directory") |}.

Definition manager : DEMManager.t := DEMManager.init "dem".

(** A manager that already holds tiles from an earlier batch. *)
Definition used_manager : DEMManager.t :=
  {| DEMManager.dem_folder := "dem"; DEMManager.tiles := [void_tile] |}.

Definition batch : list (float * float) :=
  [(46.5%float, 8.5%float); (46.25%float, 8.75%float)].

(** What the first loop and the call produce on [scenario_world] and on
    [coarse_world]. *)
Definition coarser_file : Path :=
  {| folder := "dem"; name := "grid_12-07_2_1_1.tif" |}.

Definition finer_file : Path :=
  {| folder := "dem"; name := "grid_12-07_0.5_1_1.tif" |}.

Definition aster_file : Path :=
  {| folder := "dem"; name := "ASTGTMV3_N46E008_dem.tif" |}.

Definition aster_cell_46_8 : DEMManager.aster_info :=
  {| DEMManager.a_minlat := 46; DEMManager.a_maxlat := 47;
     DEMManager.a_minlon := 8; DEMManager.a_maxlon := 9;
     DEMManager.a_res := 30%float |}.

Definition scenario_classified
  : DEMManager.swiss_dict * list (DEMManager.aster_info * Path) :=
  ([((12, 7), [(2%float, coarser_file); (0.5%float, finer_file)])],
   [(aster_cell_46_8, aster_file)]).

Definition coarse_classified
  : DEMManager.swiss_dict * list (DEMManager.aster_info * Path) :=
  ([],
   [(aster_cell_46_8, aster_file);
    ({| DEMManager.a_minlat := 50; DEMManager.a_maxlat := 51;
        DEMManager.a_minlon := 10; DEMManager.a_maxlon := 11;
        DEMManager.a_res := 30%float |},
     {| folder := "dem"; name := "ASTGTMV3_N50E010_dem.tif" |})]).

Definition batch_box : DEMManager.bbox :=
  {| DEMManager.q_minlat := 46.25%float; DEMManager.q_maxlat := 46.5%float;
     DEMManager.q_minlon := 8.5%float; DEMManager.q_maxlon := 8.75%float |}.

Definition aster_tile : DEMTile.t :=
  tile_of "dem/ASTGTMV3_N46E008_dem.tif" ramp_ds.

End Fixture.

(** ** Notions used to state the properties *)

(** Tiles that cannot answer the point: outside the footprint, or sampled
    to None. *)
Definition silent_tiles (lat lon : float) (ts : list DEMTile.t) : Prop :=
  forall u, In u ts ->
    DEMTile.bbox_contains u lat lon = true ->
    DEMTile.get_elevation u lat lon = Ok None.

(** The finite binary64 number [f] has the rational value [v]. *)
Definition has_value (f : float) (v : Q) : Prop :=
  exists q, float_value f = Some q /\ Qeq q v.

(** [v] is the value of [f], and the binary64 sum [f + 0.5] is exactly
    [v + 1/2] (no rounding took place in the addition). *)
Definition exact_half_sum (f : float) (v : Q) : Prop :=
  has_value f v /\ has_value (PrimFloat.add f 0.5%float) (Qplus v (1 # 2)).


(** [gdal.Open] does not deliver a dataset for the path string [p]: it
    returns nothing or raises. *)
Definition open_fails (w : World) (p : string) : Prop :=
  gdal_Open w p = Ok None \/ exists e, gdal_Open w p = Raise e.

(** The file [p] is a fine-grid (Swisstopo) file with descriptor [i]. *)
Definition fine (p : Path) (i : DEMManager.swiss_info) : Prop :=
  DEMManager._parse_swisstopo_name (name p) = Ok (Some i).

(** The file [p] is a coarse-grid (ASTER) file with descriptor [i]: the
    Swisstopo pattern is tried first and must not match. *)
Definition coarse (p : Path) (i : DEMManager.aster_info) : Prop :=
  DEMManager._parse_swisstopo_name (name p) = Ok None
  /\ DEMManager._parse_aster_name (name p) = Some i.

Definition cell_of (i : DEMManager.swiss_info) : DEMManager.cell :=
  (DEMManager.ix i, DEMManager.iy i).

(** The fine-grid files of a listing that lie in cell [k], with their
    resolutions, in listing order. *)
Fixpoint group_entries (files : list Path) (k : DEMManager.cell)
  : list DEMManager.entry :=
  match files with
  | [] => []
  | p :: rest =>
      match DEMManager._parse_swisstopo_name (name p) with
      | Ok (Some i) =>
          if DEMManager.cell_eqb (cell_of i) k
          then (DEMManager.res i, p) :: group_entries rest k
          else group_entries rest k
      | _ => group_entries rest k
      end
  end.

(** The coarse-grid files of a listing with their descriptors, in listing
    order. *)
Fixpoint coarse_entries (files : list Path)
  : list (DEMManager.aster_info * Path) :=
  match files with
  | [] => []
  | p :: rest =>
      match DEMManager._parse_swisstopo_name (name p),
            DEMManager._parse_aster_name (name p) with
      | Ok None, Some i => (i, p) :: coarse_entries rest
      | _, _ => coarse_entries rest
      end
  end.

(** The coarse-grid files of a listing whose one-degree cell overlaps the
    box, in listing order. *)
Definition overlapping_coarse (files : list Path) (b : DEMManager.bbox)
  : list Path :=
  map snd (filter (fun ip => DEMManager.aster_overlaps (fst ip) b)
             (coarse_entries files)).

(** What the first loop maintains: the dictionary has one item per cell met
    so far, holding the entries of that cell in listing order. *)
Definition dict_inv (d : DEMManager.swiss_dict) (seen : list Path) : Prop :=
  NoDup (map fst d)
  /\ (forall k es, In (k, es) d -> es = group_entries seen k)
  /\ (forall k, ~ In k (map fst d) -> group_entries seen k = []).

(** The binary64 number [f] is not a NaN. *)
Definition not_nan (f : float) : Prop := Prim2SF f <> S754_nan.

(** [matches r s rest]: the expression [r] can match the text [s] when
    [rest] is what follows it in the string. *)
Fixpoint matches (r : regex) (s rest : chars) : Prop :=
  match r with
  | Eps => s = []
  | Chr c => s = [c]
  | LazyStar p => forallb p s = true
  | Plus p => s <> [] /\ forallb p s = true
  | Seq a b =>
      exists s1 s2, s = s1 ++ s2 /\ matches a s1 (s2 ++ rest) /\ matches b s2 rest
  | Grp _ a => matches a s rest
  | Eos => s = [] /\ (rest = [] \/ rest = [newline])
  end.

(** Whether [r] can consume the character [c] at all, whether every match
    of [r] consumes it, and whether [r] finishes on [$]. *)
Fixpoint can_consume (r : regex) (c : ascii) : bool :=
  match r with
  | Eps => false
  | Chr c' => Ascii.eqb c c'
  | LazyStar p => p c
  | Plus p => p c
  | Seq a b => can_consume a c || can_consume b c
  | Grp _ a => can_consume a c
  | Eos => false
  end.

Fixpoint must_consume (r : regex) (c : ascii) : bool :=
  match r with
  | Chr c' => Ascii.eqb c c'
  | Seq a b => must_consume a c || must_consume b c
  | Grp _ a => must_consume a c
  | _ => false
  end.

Fixpoint ends_on_eos (r : regex) : bool :=
  match r with
  | Eos => true
  | Seq a Eps => ends_on_eos a
  | Seq _ b => ends_on_eos b
  | _ => false
  end.

(** One half as a binary64 number: [2^52 * 2^-53]. *)
Definition half : spec_float := S754_finite false 4503599627370496 (-53).

(** ** What keeps the pixel indices from being computed *)

(** The exception of [math.floor] on a number that is not finite. *)
Definition floor_error (f : float) : option exn :=
  match Prim2SF f with
  | S754_infinity _ => Some OverflowError
  | S754_nan => Some ValueError
  | _ => None
  end.

(** [index_error self lat lon ex]: the statements of [get_elevation] before
    the bounds check raise [ex].  In the order of the code: the
    reprojection of the point, the two divisions by the pixel sizes, the
    floor of [px_f + 0.5], the floor of [py_f + 0.5]. *)
Definition index_error (self : DEMTile.t) (lat lon : float) (ex : exn) : Prop :=
  DEMTile.native_xy self lat lon = Raise ex
  \/ exists x y,
       DEMTile.native_xy self lat lon = Ok (x, y)
       /\ let g := DEMTile.gt self in
          let sx := PrimFloat.add (PrimFloat.div (PrimFloat.sub x (gt0 g)) (gt1 g))
                      0.5%float in
          let sy := PrimFloat.add (PrimFloat.div (PrimFloat.sub y (gt3 g)) (gt5 g))
                      0.5%float in
          (ex = ZeroDivisionError
           /\ (PrimFloat.eqb (gt1 g) 0%float = true
               \/ PrimFloat.eqb (gt5 g) 0%float = true))
          \/ (PrimFloat.eqb (gt1 g) 0%float = false
              /\ PrimFloat.eqb (gt5 g) 0%float = false
              /\ (floor_error sx = Some ex
                  \/ (floor_error sx = None /\ floor_error sy = Some ex))).

(** ** Notions used to state further properties *)

(** Whether [DEMTile.__init__] sets [need_transform] for the dataset: it
    has an EPSG code other than 4326. *)
Definition dataset_needs_transform (d : Dataset) : bool :=
  match authority_epsg d with
  | None => false
  | Some c => negb (c =? 4326)
  end.

(** The opposite corner [(x0 + rx*px_w, y0 + ry*px_h)] of the raster. *)
Definition far_x (d : Dataset) : float :=
  PrimFloat.add (gt0 (GetGeoTransform d))
    (PrimFloat.mul (float_of_int (RasterXSize d)) (gt1 (GetGeoTransform d))).

Definition far_y (d : Dataset) : float :=
  PrimFloat.add (gt3 (GetGeoTransform d))
    (PrimFloat.mul (float_of_int (RasterYSize d)) (gt5 (GetGeoTransform d))).

(** The four grid corners in the order of the source. *)
Definition dataset_corners (d : Dataset) : list (float * float) :=
  [(gt0 (GetGeoTransform d), gt3 (GetGeoTransform d));
   (far_x d, gt3 (GetGeoTransform d));
   (gt0 (GetGeoTransform d), far_y d);
   (far_x d, far_y d)].

(** [DEMTile(path)] as a value: what the constructor returns or raises. *)
Definition open_tile (w : World) (p : string) : result DEMTile.t :=
  fst (DEMTile.init (gdal_Open w) p DEMTile.default_epsilon_deg []).

(** Python's [min(a, b)] and [max(a, b)] on two floats. *)
Definition f_min (a b : float) : float := if PrimFloat.ltb b a then b else a.
Definition f_max (a b : float) : float := if PrimFloat.ltb a b then b else a.

(** The dataset [d] with other rotation terms in its geotransform. *)
Definition set_rotation (d : Dataset) (rot_x rot_y : float) : Dataset :=
  {| GetGeoTransform :=
       {| gt0 := gt0 (GetGeoTransform d); gt1 := gt1 (GetGeoTransform d);
          gt2 := rot_x;
          gt3 := gt3 (GetGeoTransform d); gt4 := rot_y;
          gt5 := gt5 (GetGeoTransform d) |};
     RasterXSize := RasterXSize d;
     RasterYSize := RasterYSize d;
     authority_epsg := authority_epsg d;
     wgs84_to_proj := wgs84_to_proj d;
     proj_to_wgs84 := proj_to_wgs84 d;
     GetNoDataValue := GetNoDataValue d;
     ReadAsArray := ReadAsArray d |}.

(** The cells of the fine-grid files of a listing, each once, in the order
    in which they first appear. *)
Fixpoint new_cells (seen : list DEMManager.cell) (files : list Path)
  : list DEMManager.cell :=
  match files with
  | [] => []
  | p :: rest =>
      match DEMManager._parse_swisstopo_name (name p) with
      | Ok (Some i) =>
          if existsb (DEMManager.cell_eqb (cell_of i)) seen
          then new_cells seen rest
          else cell_of i :: new_cells (seen ++ [cell_of i]) rest
      | _ => new_cells seen rest
      end
  end.

Definition first_cells (files : list Path) : list DEMManager.cell :=
  new_cells [] files.

(** The finest file of every cell, in the order of the cells. *)
Definition fine_candidates (files : list Path) : list Path :=
  flat_map (fun k => match DEMManager.finest_of (group_entries files k) with
                     | Ok p => [p]
                     | Raise _ => []
                     end)
           (first_cells files).

(** The candidates whose tile opens with a footprint overlapping the box. *)
Definition overlapping_fine (w : World) (b : DEMManager.bbox)
    (files : list Path) : list Path :=
  filter (fun p => match open_tile w (str p) with
                   | Ok t => DEMManager.tile_overlaps t b
                   | Raise _ => false
                   end)
         (fine_candidates files).

(** The finest file of every item of the dictionary. *)
Definition dict_finest (d : DEMManager.swiss_dict) : list Path :=
  flat_map (fun ke => match DEMManager.finest_of (snd ke) with
                      | Ok p => [p]
                      | Raise _ => []
                      end) d.

(** The tile loaded from the finer file of [Fixture.scenario_world]. *)
Definition scenario_tile : DEMTile.t :=
  Fixture.tile_of "dem/grid_12-07_0.5_1_1.tif" Fixture.ramp_ds.

Definition scenario_loaded : DEMManager.t :=
  {| DEMManager.dem_folder := "dem"; DEMManager.tiles := [scenario_tile] |}.

(** [matches_g r s rest g g']: as [matches], and the groups go from [g] to
    [g'] when the match is recorded. *)
Fixpoint matches_g (r : regex) (s rest : chars) (g g' : groups) : Prop :=
  match r with
  | Eps => s = [] /\ g' = g
  | Chr c => s = [c] /\ g' = g
  | LazyStar p => forallb p s = true /\ g' = g
  | Plus p => (s <> [] /\ forallb p s = true) /\ g' = g
  | Seq a b =>
      exists s1 s2 g1,
        s = s1 ++ s2 /\ matches_g a s1 (s2 ++ rest) g g1
        /\ matches_g b s2 rest g1 g'
  | Grp n a => exists g1, matches_g a s rest g g1 /\ g' = set_group n s g1
  | Eos => (s = [] /\ (rest = [] \/ rest = [newline])) /\ g' = g
  end.

(** A non-empty string of decimal digits. *)
Definition digits (s : chars) : Prop := s <> [] /\ forallb is_digit s = true.

(** What may follow the pattern before the end: nothing or one newline. *)
Definition line_end (nl : bool) : chars := if nl then [newline] else [].

(** The ASTER names: [ASTGTMV<v>_N<la>E<lo>_dem.tif]. *)
Definition aster_name (v la lo : chars) (nl : bool) : string :=
  string_of_list_ascii
    (list_ascii_of_string "ASTGTMV" ++ v ++ list_ascii_of_string "_N" ++ la
     ++ list_ascii_of_string "E" ++ lo ++ list_ascii_of_string "_dem.tif"
     ++ line_end nl).

(** The text a file name gives for the resolution: [[\d\.]+]. *)
Definition resolution_text (s : chars) : Prop :=
  s <> [] /\ forallb digit_or_dot s = true.

Definition swisstopo_name (pre a b r c d : chars) (nl : bool) : string :=
  string_of_list_ascii
    (pre ++ "_"%char :: a ++ "-"%char :: b ++ "_"%char :: r ++ "_"%char :: c
       ++ "_"%char :: d ++ list_ascii_of_string ".tif" ++ line_end nl).

(** The value of a finite binary64 number, on its unpacked form. *)
Definition sf_value (x : spec_float) : option Q :=
  match x with
  | S754_zero _ => Some (0 # 1)
  | S754_finite s m e =>
      Some (Qmult (inject_Z (cond_Zopp s (Zpos m))) (Qpower (2 # 1) e))
  | S754_infinity _ => None
  | S754_nan => None
  end.

(** The point lies in the one-degree square of an ASTER file, by the exact
    values of its coordinates. *)
Definition cell_contains (i : DEMManager.aster_info) (lat lon : float) : bool :=
  match float_value lat, float_value lon with
  | Some qa, Some qo =>
      Qle_bool (inject_Z (DEMManager.a_minlat i)) qa
      && Qle_bool qa (inject_Z (DEMManager.a_maxlat i))
      && Qle_bool (inject_Z (DEMManager.a_minlon i)) qo
      && Qle_bool qo (inject_Z (DEMManager.a_maxlon i))
  | _, _ => false
  end.

Definition coarse_loaded : DEMManager.t :=
  {| DEMManager.dem_folder := "dem"; DEMManager.tiles := [Fixture.aster_tile] |}.

(** ** Plain file names *)

(** The names on which the parsers are described: ASCII characters only,
    where [\d] is [[0-9]] and [int], [float] read the digits [0] to [9],
    and at most 4300 characters, so that no digit group reaches the length
    at which [int] refuses a text. *)
Definition ascii_only (s : chars) : bool :=
  forallb (fun c => (nat_of_ascii c <? 128)%nat) s.

Definition plain_name (name : string) : bool :=
  ascii_only (list_ascii_of_string name)
  && (String.length name <=? 4300)%nat.
(** ** Running the model on the fixtures *)

Example ramp_tile_footprint :
  DEMTile.bbox_contains Fixture.ramp_tile 46.5%float 8.5%float = true
  /\ DEMTile.bbox_contains Fixture.ramp_tile 47%float 9%float = true
  /\ DEMTile.bbox_contains Fixture.ramp_tile 47.5%float 8.5%float = false.
Proof. vm_compute. repeat split. Qed.

Example ramp_tile_sample :
  DEMTile.pixel_index Fixture.ramp_tile 46.5%float 8.5%float = Ok (2, 2)
  /\ DEMTile.get_elevation Fixture.ramp_tile 46.5%float 8.5%float
     = Ok (Some 122%float)
  /\ DEMTile.get_elevation Fixture.ramp_tile 45%float 8.5%float = Ok None
  /\ DEMTile.get_elevation Fixture.void_tile 46.5%float 8.5%float = Ok None.
Proof. vm_compute. repeat split. Qed.

Example manager_retries_next_tile :
  DEMManager.get_elevation
    {| DEMManager.dem_folder := "dem";
       DEMManager.tiles := [Fixture.void_tile; Fixture.ramp_tile] |}
    46.5%float 8.5%float = Ok (Some 122%float).
Proof. vm_compute. reflexivity. Qed.

(** ** Query orchestration *)

Section Probe.
Variables lat lon : float.

Let contains (t : DEMTile.t) : Prop := DEMTile.bbox_contains t lat lon = true.
Let sample (t : DEMTile.t) : result (option float) :=
  DEMTile.get_elevation t lat lon.

Let silent (ts : list DEMTile.t) : Prop := silent_tiles lat lon ts.

Lemma probe_skip : forall before rest,
  silent before ->
  DEMManager.probe (before ++ rest) lat lon = DEMManager.probe rest lat lon.
Proof.
  induction before as [|u before IH]; intros rest Hs; simpl.
  - reflexivity.
  - assert (Hrest : silent before).
    { intros v Hv. apply Hs. now right. }
    destruct (DEMTile.bbox_contains u lat lon) eqn:Hc.
    + pose proof (Hs u (or_introl eq_refl) Hc) as E. unfold sample in E.
      rewrite E. now apply IH.
    + now apply IH.
Qed.

Lemma probe_hit : forall t rest z,
  contains t -> sample t = Ok (Some z) ->
  DEMManager.probe (t :: rest) lat lon = Ok (Some z).
Proof.
  intros t rest z Hc Hs. simpl. unfold contains in Hc. rewrite Hc.
  unfold sample in Hs. now rewrite Hs.
Qed.

Lemma probe_none : forall ts,
  DEMManager.probe ts lat lon = Ok None <-> silent ts.
Proof.
  induction ts as [|t ts IH]; simpl.
  - split; [intros _ u [] | reflexivity].
  - destruct (DEMTile.bbox_contains t lat lon) eqn:Hc.
    + destruct (DEMTile.get_elevation t lat lon) as [[z|]|ex] eqn:Hs.
      * split; [discriminate|]. intros H.
        specialize (H t (or_introl eq_refl) Hc). unfold sample in H.
        congruence.
      * rewrite IH. split.
        -- intros H u [<-|Hu] Hu'; [exact Hs | now apply H].
        -- intros H u Hu. apply H. now right.
      * split; [discriminate|]. intros H.
        specialize (H t (or_introl eq_refl) Hc). unfold sample in H.
        congruence.
    + rewrite IH. split.
      * intros H u [<-|Hu] Hu'; [unfold contains in Hu'; congruence|].
        now apply H.
      * intros H u Hu. apply H. now right.
Qed.

Lemma probe_some : forall ts z,
  DEMManager.probe ts lat lon = Ok (Some z) ->
  exists before t after,
    ts = before ++ t :: after /\ silent before /\ contains t
    /\ sample t = Ok (Some z).
Proof.
  induction ts as [|t ts IH]; simpl; intros z H; [discriminate|].
  destruct (DEMTile.bbox_contains t lat lon) eqn:Hc.
  - destruct (DEMTile.get_elevation t lat lon) as [[v|]|ex] eqn:Hs.
    + exists [], t, ts. repeat split; try assumption.
      * intros u [].
      * unfold sample. congruence.
    + destruct (IH z H) as (b & t' & a & -> & Hb & Ht & Hz).
      exists (t :: b), t', a. repeat split; try assumption.
      intros u [<-|Hu] Hu'; [exact Hs | now apply Hb].
    + discriminate.
  - destruct (IH z H) as (b & t' & a & -> & Hb & Ht & Hz).
    exists (t :: b), t', a. repeat split; try assumption.
    intros u [<-|Hu] Hu'; [unfold contains in Hu'; congruence|].
    now apply Hb.
Qed.
End Probe.

(** C1. [DEMManager.get_elevation] walks [self.tiles] in list order.  It
    returns the value [z] exactly when some tile of the list contains the
    point and samples to [z] while every tile before it either does not
    contain the point or samples to None; it returns None exactly when every
    tile containing the point samples to None.  In particular, when the first
    tile contains the point and samples to None and the second contains it
    and samples to [z], the answer is [z]. *)
Theorem C1_query_first_real_value :
  forall (self : DEMManager.t) (lat lon : float),
    (forall z,
        DEMManager.get_elevation self lat lon = Ok (Some z) <->
        exists before t after,
          DEMManager.tiles self = before ++ t :: after
          /\ (forall u, In u before ->
                DEMTile.bbox_contains u lat lon = true ->
                DEMTile.get_elevation u lat lon = Ok None)
          /\ DEMTile.bbox_contains t lat lon = true
          /\ DEMTile.get_elevation t lat lon = Ok (Some z))
    /\ (DEMManager.get_elevation self lat lon = Ok None <->
        forall u, In u (DEMManager.tiles self) ->
          DEMTile.bbox_contains u lat lon = true ->
          DEMTile.get_elevation u lat lon = Ok None)
    /\ (forall t1 t2 rest z,
          DEMManager.tiles self = t1 :: t2 :: rest ->
          DEMTile.bbox_contains t1 lat lon = true ->
          DEMTile.get_elevation t1 lat lon = Ok None ->
          DEMTile.bbox_contains t2 lat lon = true ->
          DEMTile.get_elevation t2 lat lon = Ok (Some z) ->
          DEMManager.get_elevation self lat lon = Ok (Some z)).
Proof.
  intros self lat lon. unfold DEMManager.get_elevation.
  split; [|split].
  - intros z. split.
    + intros H. destruct (probe_some lat lon _ z H) as (b & t & a & E & Hb & Ht & Hz).
      exists b, t, a. repeat split; assumption.
    + intros (b & t & a & E & Hb & Ht & Hz). rewrite E.
      rewrite probe_skip by exact Hb. now apply probe_hit.
  - apply probe_none.
  - intros t1 t2 rest z E H1 H1' H2 H2'. rewrite E.
    change (t1 :: t2 :: rest) with ([t1] ++ t2 :: rest).
    rewrite probe_skip.
    + now apply probe_hit.
    + intros u [<-|[]] _. exact H1'.
Qed.

(** ** Sampling one tile *)

Lemma in_raster_spec : forall (self : DEMTile.t) (px py : Z),
  DEMTile.in_raster self px py = true <->
  (0 <= px < DEMTile.rx self /\ 0 <= py < DEMTile.ry self).
Proof.
  intros. unfold DEMTile.in_raster.
  rewrite !andb_true_iff, !Z.leb_le, !Z.ltb_lt. tauto.
Qed.

Lemma math_floor_raises : forall (f : float) (ex : exn),
  math_floor f = Raise ex <-> floor_error f = Some ex.
Proof.
  intros f ex. unfold math_floor, floor_error, float_value.
  destruct (Prim2SF f) as [s|s| |s m e]; split; intros H;
    try discriminate; injection H as <-; reflexivity.
Qed.

(** The pixel indices are not computed exactly when the reprojection of the
    point raises, a pixel size is zero, or one of the two sums is infinite
    or NaN. *)
Lemma pixel_index_raises : forall (self : DEMTile.t) (lat lon : float) (ex : exn),
  DEMTile.pixel_index self lat lon = Raise ex <-> index_error self lat lon ex.
Proof.
  intros self lat lon ex. unfold DEMTile.pixel_index, DEMTile.pixel_f, index_error.
  destruct (DEMTile.native_xy self lat lon) as [[x y]|ex0].
  2:{ cbv beta iota. split; [intros H; injection H as <-; now left|].
      intros [H|(x & y & H & _)]; [now injection H as <- | discriminate]. }
  unfold py_div.
  destruct (PrimFloat.eqb (gt1 (DEMTile.gt self)) 0%float) eqn:E1.
  { split.
    - intros H. injection H as <-. right. exists x, y. split; [reflexivity|].
      left. split; [reflexivity | now left].
    - intros [H|(x' & y' & H & [[-> _]|(F & _)])]; try discriminate; reflexivity. }
  destruct (PrimFloat.eqb (gt5 (DEMTile.gt self)) 0%float) eqn:E5.
  { split.
    - intros H. injection H as <-. right. exists x, y. split; [reflexivity|].
      left. split; [reflexivity | now right].
    - intros [H|(x' & y' & H & [[-> _]|(_ & F & _)])]; try discriminate; reflexivity. }
  split.
  - intros H. right. exists x, y. split; [reflexivity|]. right.
    split; [reflexivity|]. split; [reflexivity|].
    destruct (math_floor _) as [px|ex1] eqn:Fx in H.
    + destruct (math_floor _) as [py|ex2] eqn:Fy in H; [discriminate|].
      injection H as <-. right. split.
      * unfold floor_error. unfold math_floor, float_value in Fx.
        destruct (Prim2SF _); try discriminate; reflexivity.
      * now apply math_floor_raises.
    + injection H as <-. left. now apply math_floor_raises.
  - intros [H|(x' & y' & H & [[_ [F|F]]|(_ & _ & [F|[F1 F2]])])]; try discriminate;
      injection H as <- <-; try congruence.
    + apply math_floor_raises in F. now rewrite F.
    + destruct (math_floor (PrimFloat.add (PrimFloat.div (PrimFloat.sub x _) _) _))
        as [px|ex1] eqn:Fx.
      * apply math_floor_raises in F2. now rewrite F2.
      * apply math_floor_raises in Fx. congruence.
Qed.

(** C7, on the fixture: at a point of infinite or NaN latitude the sampling
    of a readable tile raises ([math.floor] of an infinity or of a NaN), so
    the outcome is neither None nor a value. *)
Lemma C7_counterexample :
  DEMTile.get_elevation Fixture.ramp_tile infinity 8.5%float
  = Raise OverflowError
  /\ DEMTile.get_elevation Fixture.ramp_tile nan 8.5%float = Raise ValueError
  /\ DEMTile.get_elevation Fixture.ramp_tile infinity 8.5%float <> Ok None
  /\ forall z,
       DEMTile.get_elevation Fixture.ramp_tile infinity 8.5%float <> Ok (Some z).
Proof.
  assert (E : DEMTile.get_elevation Fixture.ramp_tile infinity 8.5%float
              = Raise OverflowError) by (vm_compute; reflexivity).
  split; [exact E|]. split; [vm_compute; reflexivity|].
  rewrite E. split; [discriminate | intros z; discriminate].
Qed.

(** C7. The three outcomes of [DEMTile.get_elevation], for every tile and
    point.  It raises exactly when the pixel indices cannot be computed
    (the reprojection raises, a pixel size is zero, or a sum [px_f + 0.5],
    [py_f + 0.5] is infinite or NaN) or when the read of an inside pixel
    raises.  It returns None exactly when the indices are computed and lie
    outside [0, rx) x [0, ry), or the read gives no array, or the tile has a
    nodata value and the value read equals it.  It returns [z] exactly when
    the indices are computed and inside, the read gives [z], and [z] is not
    the nodata value. *)
Theorem C7_sample_outcomes :
  forall (self : DEMTile.t) (lat lon : float),
    (forall ex,
        DEMTile.get_elevation self lat lon = Raise ex <->
        index_error self lat lon ex
        \/ exists px py,
             DEMTile.pixel_index self lat lon = Ok (px, py)
             /\ (0 <= px < DEMTile.rx self /\ 0 <= py < DEMTile.ry self)
             /\ ReadAsArray (DEMTile.ds self) px py = Raise ex)
    /\ (DEMTile.get_elevation self lat lon = Ok None <->
        exists px py,
          DEMTile.pixel_index self lat lon = Ok (px, py)
          /\ (~ (0 <= px < DEMTile.rx self /\ 0 <= py < DEMTile.ry self)
              \/ ((0 <= px < DEMTile.rx self /\ 0 <= py < DEMTile.ry self)
                  /\ ReadAsArray (DEMTile.ds self) px py = Ok None)
              \/ ((0 <= px < DEMTile.rx self /\ 0 <= py < DEMTile.ry self)
                  /\ exists z nd,
                       ReadAsArray (DEMTile.ds self) px py = Ok (Some z)
                       /\ DEMTile.nodata self = Some nd
                       /\ PrimFloat.eqb z nd = true)))
    /\ (forall z,
          DEMTile.get_elevation self lat lon = Ok (Some z) <->
          exists px py,
            DEMTile.pixel_index self lat lon = Ok (px, py)
            /\ (0 <= px < DEMTile.rx self /\ 0 <= py < DEMTile.ry self)
            /\ ReadAsArray (DEMTile.ds self) px py = Ok (Some z)
            /\ forall nd, DEMTile.nodata self = Some nd ->
                          PrimFloat.eqb z nd = false).
Proof.
  intros self lat lon.
  pose proof (pixel_index_raises self lat lon) as Hidx.
  unfold DEMTile.get_elevation.
  destruct (DEMTile.pixel_index self lat lon) as [[px py]|ex0] eqn:Hpi.
  2:{ split; [|split].
      - intros ex. split.
        + intros H. injection H as <-. left. now apply Hidx.
        + intros [H|(px & py & H & _)]; [|discriminate].
          apply Hidx in H. now injection H as <-.
      - split; [discriminate | intros (px & py & H & _); discriminate].
      - intros z. split; [discriminate | intros (px & py & H & _); discriminate]. }
  assert (Hno : forall ex, ~ index_error self lat lon ex).
  { intros ex H. apply Hidx in H. discriminate. }
  pose proof (in_raster_spec self px py) as Hin.
  destruct (DEMTile.in_raster self px py) eqn:Hb; cbn [negb].
  - assert (Hr : 0 <= px < DEMTile.rx self /\ 0 <= py < DEMTile.ry self)
      by now apply Hin.
    unfold DEMTile.is_nodata.
    destruct (ReadAsArray (DEMTile.ds self) px py) as [[v|]|exr] eqn:Hread.
    + destruct (DEMTile.nodata self) as [nd|] eqn:Hnd.
      * destruct (PrimFloat.eqb v nd) eqn:Heq.
        -- split; [|split].
           ++ intros ex. split; [discriminate|].
              intros [H|(px' & py' & H & _ & H')]; [now apply Hno in H|].
              injection H as <- <-. congruence.
           ++ split; [intros _|reflexivity]. exists px, py.
              split; [reflexivity|]. right; right. split; [exact Hr|].
              now exists v, nd.
           ++ intros z. split; [discriminate|].
              intros (px' & py' & H & _ & H1 & H2). injection H as <- <-.
              rewrite Hread in H1. injection H1 as <-.
              rewrite (H2 nd eq_refl) in Heq. discriminate.
        -- split; [|split].
           ++ intros ex. split; [discriminate|].
              intros [H|(px' & py' & H & _ & H')]; [now apply Hno in H|].
              injection H as <- <-. congruence.
           ++ split; [discriminate|].
              intros (px' & py' & H & [H1|[[_ H1]|[_ (z' & nd' & H1 & H2 & H3)]]]);
                injection H as <- <-; [tauto | congruence | congruence].
           ++ intros z. split.
              ** intros H. injection H as <-. exists px, py.
                 split; [reflexivity|]. split; [exact Hr|].
                 split; [exact Hread|]. intros nd' E. congruence.
              ** intros (px' & py' & H & _ & H1 & _). injection H as <- <-.
                 congruence.
      * split; [|split].
        -- intros ex. split; [discriminate|].
           intros [H|(px' & py' & H & _ & H')]; [now apply Hno in H|].
           injection H as <- <-. congruence.
        -- split; [discriminate|].
           intros (px' & py' & H & [H1|[[_ H1]|[_ (z' & nd' & H1 & H2 & H3)]]]);
             injection H as <- <-; [tauto | congruence | discriminate].
        -- intros z. split.
           ++ intros H. injection H as <-. exists px, py.
              split; [reflexivity|]. split; [exact Hr|].
              split; [exact Hread|]. intros nd' E. congruence.
           ++ intros (px' & py' & H & _ & H1 & _). injection H as <- <-.
              congruence.
    + split; [|split].
      * intros ex. split; [discriminate|].
        intros [H|(px' & py' & H & _ & H')]; [now apply Hno in H|].
        injection H as <- <-. congruence.
      * split; [intros _|reflexivity]. exists px, py.
        split; [reflexivity|]. right; left. now split.
      * intros z. split; [discriminate|].
        intros (px' & py' & H & _ & H1 & _). injection H as <- <-. congruence.
    + split; [|split].
      * intros ex. split.
        -- intros H. injection H as <-. right. exists px, py.
           split; [reflexivity|]. split; [exact Hr | exact Hread].
        -- intros [H|(px' & py' & H & _ & H')]; [now apply Hno in H|].
           injection H as <- <-. congruence.
      * split; [discriminate|].
        intros (px' & py' & H & [H1|[[_ H1]|[_ (z' & nd' & H1 & H2 & H3)]]]);
          injection H as <- <-; [tauto | congruence | congruence].
      * intros z. split; [discriminate|].
        intros (px' & py' & H & _ & H1 & _). injection H as <- <-. congruence.
  - assert (Hr : ~ (0 <= px < DEMTile.rx self /\ 0 <= py < DEMTile.ry self)).
    { intros H. apply Hin in H. discriminate. }
    split; [|split].
    + intros ex. split; [discriminate|].
      intros [H|(px' & py' & H & H' & _)]; [now apply Hno in H|].
      injection H as <- <-. contradiction.
    + split; [intros _|reflexivity]. exists px, py.
      split; [reflexivity|]. now left.
    + intros z. split; [discriminate|].
      intros (px' & py' & H & H' & _). injection H as <- <-. contradiction.
Qed.

(** ** Failure of the reprojection *)

(** C5, on the fixture: the reprojection of the query point into the tile's
    system raises, and both the tile's and the manager's [get_elevation]
    raise that error instead of returning None. *)
Lemma C5_counterexample :
  DEMTile.need_transform Fixture.broken_tile = true
  /\ DEMTile.bbox_contains Fixture.broken_tile 46.5%float 8.5%float = true
  /\ DEMTile.get_elevation Fixture.broken_tile 46.5%float 8.5%float
     = Raise (RuntimeError "transform failed")
  /\ DEMManager.get_elevation
       {| DEMManager.dem_folder := "dem";
          DEMManager.tiles := [Fixture.broken_tile; Fixture.ramp_tile] |}
       46.5%float 8.5%float
     = Raise (RuntimeError "transform failed").
Proof. vm_compute. repeat split. Qed.

(** C5 as the code has it.  When a tile needs reprojection and the
    transformation of the query point raises [e], [DEMTile.get_elevation]
    raises [e]; and [DEMManager.get_elevation] raises [e] as well whenever
    that tile contains the point and every tile before it in the list is
    outside the point or samples to None. *)
Theorem C5_reprojection_failure_propagates :
  forall (self : DEMTile.t) (lat lon : float)
         (tr : float -> float -> result point3) (e : exn),
    DEMTile.need_transform self = true ->
    DEMTile.to_dem self = Some tr ->
    tr lon lat = Raise e ->
    DEMTile.get_elevation self lat lon = Raise e
    /\ (forall (m : DEMManager.t) before after,
          DEMManager.tiles m = before ++ self :: after ->
          (forall u, In u before ->
             DEMTile.bbox_contains u lat lon = true ->
             DEMTile.get_elevation u lat lon = Ok None) ->
          DEMTile.bbox_contains self lat lon = true ->
          DEMManager.get_elevation m lat lon = Raise e).
Proof.
  intros self lat lon tr e Hneed Htr He.
  assert (Hs : DEMTile.get_elevation self lat lon = Raise e).
  { unfold DEMTile.get_elevation, DEMTile.pixel_index, DEMTile.pixel_f,
      DEMTile.native_xy. now rewrite Hneed, Htr, He. }
  split; [exact Hs|].
  intros m before after E Hb Hc. unfold DEMManager.get_elevation.
  rewrite E, probe_skip by exact Hb. simpl. now rewrite Hc, Hs.
Qed.

Lemma C5_witness :
  DEMTile.get_elevation Fixture.broken_tile 46.5%float 8.5%float
  = Raise (RuntimeError "transform failed")
  /\ DEMManager.get_elevation
       {| DEMManager.dem_folder := "dem";
          DEMManager.tiles := [Fixture.void_tile; Fixture.broken_tile] |}
       46.5%float 8.5%float
     = Raise (RuntimeError "transform failed").
Proof.
  destruct (C5_reprojection_failure_propagates Fixture.broken_tile
              46.5%float 8.5%float
              (wgs84_to_proj Fixture.broken_ds)
              (RuntimeError "transform failed")
              eq_refl eq_refl eq_refl) as [Htile Hmgr].
  split; [exact Htile|].
  apply (Hmgr _ [Fixture.void_tile] []).
  - reflexivity.
  - intros u [<-|[]] _. vm_compute. reflexivity.
  - vm_compute. reflexivity.
Defined.

(** ** Loading on the fixtures *)

Example scenario_load :
  let '(r, self', log) :=
    DEMManager.call_load Fixture.scenario_world Fixture.manager Fixture.batch in
  (match r with Ok ts => Some (map DEMTile.path ts) | Raise _ => None end)
  = Some ["dem/grid_12-07_0.5_1_1.tif"]%string
  /\ map DEMTile.path (DEMManager.tiles self')
     = ["dem/grid_12-07_0.5_1_1.tif"]%string
  /\ log = ["dem/grid_12-07_0.5_1_1.tif";
            "dem/grid_12-07_0.5_1_1.tif"]%string.
Proof. vm_compute. repeat split. Qed.

Example coarse_load :
  let '(r, self', log) :=
    DEMManager.call_load Fixture.coarse_world Fixture.manager Fixture.batch in
  (match r with Ok ts => Some (map DEMTile.path ts) | Raise _ => None end)
  = Some ["dem/ASTGTMV3_N46E008_dem.tif"]%string
  /\ log = ["dem/ASTGTMV3_N46E008_dem.tif"]%string
  /\ DEMManager.get_elevation self' 46.5%float 8.5%float = Ok (Some 122%float).
Proof. vm_compute. repeat split. Qed.

(** ** The loader: basic facts *)

Lemma init_from_path : forall p d eps t,
  DEMTile.init_from p d eps = Ok t -> DEMTile.path t = p.
Proof.
  intros p d eps t H. unfold DEMTile.init_from in H.
  repeat match type of H with
         | match ?x with _ => _ end = _ => destruct x; try discriminate
         end.
  injection H as <-. reflexivity.
Qed.

Lemma init_log : forall gopen p eps log r log',
  DEMTile.init gopen p eps log = (r, log') -> log' = log ++ [p].
Proof.
  intros gopen p eps log r log' H. unfold DEMTile.init in H.
  destruct (gopen p) as [[d|]|ex]; now inversion H.
Qed.

Lemma init_ok_path : forall gopen p eps log t log',
  DEMTile.init gopen p eps log = (Ok t, log') -> DEMTile.path t = p.
Proof.
  intros gopen p eps log t log' H. unfold DEMTile.init in H.
  destruct (gopen p) as [[d|]|ex]; inversion H.
  eapply init_from_path; eassumption.
Qed.

Lemma init_open_fails : forall w p eps log,
  open_fails w p ->
  exists e, DEMTile.init (gdal_Open w) p eps log = (Raise e, log ++ [p]).
Proof.
  intros w p eps log [H|[e H]]; unfold DEMTile.init; rewrite H; eauto.
Qed.

Lemma load_reads_folder_only : forall w a b coords log,
  DEMManager.dem_folder a = DEMManager.dem_folder b ->
  DEMManager.load_tiles_for_coords w a coords log
  = DEMManager.load_tiles_for_coords w b coords log.
Proof.
  intros w a b coords log E.
  unfold DEMManager.load_tiles_for_coords, DEMManager.tif_files.
  now rewrite E.
Qed.

Lemma load_keeps_folder : forall w self coords log self' ts log',
  DEMManager.load_tiles_for_coords w self coords log = (Ok (self', ts), log') ->
  DEMManager.dem_folder self' = DEMManager.dem_folder self
  /\ DEMManager.tiles self' = ts.
Proof.
  intros w self coords log self' ts log' H.
  unfold DEMManager.load_tiles_for_coords, bind, lift, ret in H.
  repeat match type of H with
         | (let (_, _) := ?x in _) = _ => destruct x as [[?|?] ?]
         | match ?x with _ => _ end = _ => destruct x as [[?|?] ?]
         | match ?x with _ => _ end = _ => destruct x
         end; try discriminate.
  all: inversion H; subst; now split.
Qed.

(** C10. For the empty batch [load_tiles_for_coords] raises [ValueError]
    (from [min] of an empty list), whatever the folder holds and whatever
    the manager held: the call does not return, neither with an empty list
    nor with any other, and it raises before the folder is listed or a file
    is opened. *)
Theorem C10_empty_batch_raises :
  forall (w : World) (self : DEMManager.t) (log : list string),
    DEMManager.coords_bbox [] = Raise ValueError
    /\ DEMManager.load_tiles_for_coords w self [] log = (Raise ValueError, log)
    /\ (forall self' ts log',
          DEMManager.load_tiles_for_coords w self [] log
          <> (Ok (self', ts), log'))
    /\ fst (fst (DEMManager.call_load w self [])) = Raise ValueError.
Proof.
  intros w self log. repeat split. intros self' ts log' H. discriminate H.
Qed.

(** C9. A second call of [load_tiles_for_coords] with the same folder
    listing, the same files and the same batch returns what the first call
    returned (the same tiles in the same order, or the same exception),
    leaves the same [self.tiles] and opens the same files in the same order;
    the tiles a manager held before do not influence the outcome. *)
Theorem C9_load_is_repeatable :
  forall (w : World) (self : DEMManager.t) (coords : list (float * float)),
    (let '(r1, self1, log1) := DEMManager.call_load w self coords in
     let '(r2, self2, log2) := DEMManager.call_load w self1 coords in
     r2 = r1 /\ DEMManager.tiles self2 = DEMManager.tiles self1 /\ log2 = log1)
    /\ (forall ts0,
          let other := {| DEMManager.dem_folder := DEMManager.dem_folder self;
                          DEMManager.tiles := ts0 |} in
          fst (fst (DEMManager.call_load w other coords))
          = fst (fst (DEMManager.call_load w self coords))
          /\ snd (DEMManager.call_load w other coords)
             = snd (DEMManager.call_load w self coords)).
Proof.
  intros w self coords. split.
  - unfold DEMManager.call_load.
    destruct (DEMManager.load_tiles_for_coords w self coords [])
      as [[[self1 ts]|ex] log1] eqn:H1.
    + destruct (load_keeps_folder _ _ _ _ _ _ _ H1) as [Hf Ht].
      rewrite (load_reads_folder_only w self1 self coords [] Hf), H1.
      repeat split.
    + rewrite H1. repeat split.
  - intros ts0 other. unfold DEMManager.call_load.
    rewrite (load_reads_folder_only w other self coords [] eq_refl).
    destruct (DEMManager.load_tiles_for_coords w self coords [])
      as [[[self1 ts]|ex] log1]; split; reflexivity.
Qed.

(** ** A file that cannot be opened *)

Lemma select_finest_open_fails : forall w b d chosen log key entries p,
  In (key, entries) d ->
  DEMManager.finest_of entries = Ok p ->
  open_fails w (str p) ->
  exists e log', DEMManager.select_finest w b d chosen log = (Raise e, log').
Proof.
  intros w b d. induction d as [|[k es] d IH];
    intros chosen log key entries p Hin Hfin Hfail; [destruct Hin|].
  simpl. unfold bind, lift.
  destruct Hin as [E|Hin].
  - injection E as -> ->. rewrite Hfin.
    destruct (init_open_fails w (str p) DEMTile.default_epsilon_deg log Hfail)
      as [e He].
    rewrite He. eauto.
  - destruct (DEMManager.finest_of es) as [q|ex]; [|eauto].
    destruct (DEMTile.init (gdal_Open w) (str q) DEMTile.default_epsilon_deg log)
      as [[t|ex] log1]; [|eauto].
    eapply IH; eassumption.
Qed.

Lemma mapM_open_fails : forall w (l : list Path) log p,
  In p l ->
  open_fails w (str p) ->
  exists e log',
    mapM (fun q => DEMTile.init (gdal_Open w) (str q)
                     DEMTile.default_epsilon_deg) l log = (Raise e, log').
Proof.
  intros w l. induction l as [|q l IH]; intros log p Hin Hfail; [destruct Hin|].
  simpl. unfold bind.
  destruct Hin as [->|Hin].
  - destruct (init_open_fails w (str p) DEMTile.default_epsilon_deg log Hfail)
      as [e He].
    rewrite He. eauto.
  - destruct (DEMTile.init (gdal_Open w) (str q) DEMTile.default_epsilon_deg log)
      as [[t|ex] log1]; [|eauto].
    destruct (IH log1 p Hin Hfail) as (e & log' & He).
    rewrite He. eauto.
Qed.

(** C4, on the fixture: the folder holds two cells, the file of the second
    cell cannot be opened, and the whole call raises; the readable tile of
    the first cell is not loaded and [self.tiles] keeps its old content. *)
Lemma C4_counterexample :
  DEMManager.call_load Fixture.unreadable_world Fixture.used_manager
    Fixture.batch
  = (Raise (RuntimeError "Unable to open GeoTIFF: dem/grid_13-07_0.5_1_1.tif"),
     Fixture.used_manager,
     ["dem/grid_12-07_0.5_1_1.tif"; "dem/grid_13-07_0.5_1_1.tif"]%string).
Proof. vm_compute. reflexivity. Qed.

(** C4 as the code has it.  With a non-empty batch and a folder whose names
    classify, the call raises, and [self.tiles] is left as it was, as soon
    as [gdal.Open] fails on the finest file of any Swisstopo cell of the
    folder, or, when no Swisstopo tile was chosen, on any overlapping ASTER
    file. *)
Theorem C4_open_failure_aborts_load :
  forall (w : World) (self : DEMManager.t) (coords : list (float * float))
         (b : DEMManager.bbox)
         (cl : DEMManager.swiss_dict * list (DEMManager.aster_info * Path)),
    DEMManager.coords_bbox coords = Ok b ->
    DEMManager.classify (DEMManager.tif_files w self) [] [] = Ok cl ->
    (forall key entries p,
        In (key, entries) (fst cl) ->
        DEMManager.finest_of entries = Ok p ->
        open_fails w (str p) ->
        exists e log, DEMManager.call_load w self coords = (Raise e, self, log))
    /\ (forall log0 p,
          DEMManager.select_finest w b (fst cl) [] [] = (Ok [], log0) ->
          In p (DEMManager.select_aster b (snd cl)) ->
          open_fails w (str p) ->
          exists e log,
            DEMManager.call_load w self coords = (Raise e, self, log)).
Proof.
  intros w self coords b cl Hb Hcl. split.
  - intros key entries p Hin Hfin Hfail.
    destruct (select_finest_open_fails w b (fst cl) [] [] key entries p
                Hin Hfin Hfail) as (e & log' & He).
    exists e, log'.
    unfold DEMManager.call_load, DEMManager.load_tiles_for_coords, bind, lift.
    now rewrite Hb, Hcl, He.
  - intros log0 p Hsel Hin Hfail.
    destruct (mapM_open_fails w (DEMManager.select_aster b (snd cl)) log0 p
                Hin Hfail) as (e & log' & He).
    exists e, log'.
    unfold DEMManager.call_load, DEMManager.load_tiles_for_coords, bind, lift.
    now rewrite Hb, Hcl, Hsel, He.
Qed.

Lemma C4_witness :
  exists e log,
    DEMManager.call_load Fixture.unreadable_world Fixture.manager Fixture.batch
    = (Raise e, Fixture.manager, log).
Proof.
  refine (proj1 (C4_open_failure_aborts_load Fixture.unreadable_world
                   Fixture.manager Fixture.batch
                   {| DEMManager.q_minlat := 46.25%float;
                      DEMManager.q_maxlat := 46.5%float;
                      DEMManager.q_minlon := 8.5%float;
                      DEMManager.q_maxlon := 8.75%float |}
                   _ _ _)
            (13, 7)
            [(0.5%float, {| folder := "dem"; name := "grid_13-07_0.5_1_1.tif" |})]
            {| folder := "dem"; name := "grid_13-07_0.5_1_1.tif" |}
            _ _ _).
  - vm_compute. reflexivity.
  - vm_compute. reflexivity.
  - vm_compute. right. left. reflexivity.
  - vm_compute. reflexivity.
  - left. vm_compute. reflexivity.
Defined.

(** ** The sort and what the two loops open *)

Lemma insert_entry_in : forall x e l,
  In x (DEMManager.insert_entry e l) <-> x = e \/ In x l.
Proof.
  intros x e l. induction l as [|h l IH]; simpl.
  - intuition congruence.
  - destruct (PrimFloat.ltb (fst h) (fst e)); simpl; rewrite ?IH; intuition.
Qed.

Lemma sort_entries_in : forall x l,
  In x (DEMManager.sort_entries l) <-> In x l.
Proof.
  intros x l. induction l as [|e l IH]; simpl; [tauto|].
  rewrite insert_entry_in, IH. intuition congruence.
Qed.

Lemma finest_of_in : forall es p,
  DEMManager.finest_of es = Ok p -> exists r, In (r, p) es.
Proof.
  intros es p H. unfold DEMManager.finest_of in H.
  destruct (DEMManager.sort_entries es) as [|[r q] t] eqn:E; [discriminate|].
  injection H as <-. exists r. apply sort_entries_in. rewrite E. now left.
Qed.

Lemma select_finest_spec : forall w b d chosen log r log',
  DEMManager.select_finest w b d chosen log = (r, log') ->
  (forall s, In s log' ->
     In s log \/ exists k es p,
                   In (k, es) d /\ DEMManager.finest_of es = Ok p /\ s = str p)
  /\ (forall ch, r = Ok ch ->
        forall p, In p ch ->
          In p chosen \/ exists k es,
                           In (k, es) d /\ DEMManager.finest_of es = Ok p).
Proof.
  intros w b d. induction d as [|[k es] d IH]; intros chosen log r log' H.
  - simpl in H. inversion H; subst. split; [auto|].
    intros ch E p Hp. injection E as <-. now left.
  - simpl in H. unfold bind, lift in H.
    destruct (DEMManager.finest_of es) as [q|ex] eqn:Hq.
    + destruct (DEMTile.init (gdal_Open w) (str q) DEMTile.default_epsilon_deg log)
        as [[t|ex] log1] eqn:Hinit.
      * pose proof (init_log _ _ _ _ _ _ Hinit) as ->.
        apply IH in H. destruct H as [Hlog Hch]. split.
        -- intros s Hs. destruct (Hlog s Hs) as [Hs'|(k' & es' & p & H1 & H2 & H3)].
           ++ apply in_app_or in Hs'. destruct Hs' as [Hs'|[<-|[]]]; [now left|].
              right. exists k, es, q. repeat split; auto. now left.
           ++ right. exists k', es', p. repeat split; auto. now right.
        -- intros ch E p Hp.
           destruct (Hch ch E p Hp) as [Hp'|(k' & es' & H1 & H2)].
           ++ destruct (DEMManager.tile_overlaps t b); [|now left].
              apply in_app_or in Hp'. destruct Hp' as [Hp'|[<-|[]]]; [now left|].
              right. exists k, es. split; auto. now left.
           ++ right. exists k', es'. split; auto. now right.
      * inversion H; subst. pose proof (init_log _ _ _ _ _ _ Hinit) as ->.
        split; [|discriminate].
        intros s Hs. apply in_app_or in Hs. destruct Hs as [Hs|[<-|[]]]; [now left|].
        right. exists k, es, q. repeat split; auto. now left.
    + inversion H; subst. split; [auto|discriminate].
Qed.

Lemma mapM_init_spec : forall w (l : list Path) log r log',
  mapM (fun q => DEMTile.init (gdal_Open w) (str q)
                   DEMTile.default_epsilon_deg) l log = (r, log') ->
  (forall s, In s log' -> In s log \/ exists p, In p l /\ s = str p)
  /\ (forall ts, r = Ok ts -> map DEMTile.path ts = map str l).
Proof.
  intros w l. induction l as [|q l IH]; intros log r log' H.
  - simpl in H. inversion H; subst. split; [auto|].
    intros ts E. now injection E as <-.
  - simpl in H. unfold bind, ret in H.
    destruct (DEMTile.init (gdal_Open w) (str q) DEMTile.default_epsilon_deg log)
      as [[t|ex] log1] eqn:Hinit.
    + pose proof (init_log _ _ _ _ _ _ Hinit) as ->.
      pose proof (init_ok_path _ _ _ _ _ _ Hinit) as Hpath.
      destruct (mapM _ l (log ++ [str q])) as [[ts'|ex] log2] eqn:Hrest;
        inversion H; subst; destruct (IH _ _ _ Hrest) as [Hlog Hts].
      * split.
        -- intros s Hs. destruct (Hlog s Hs) as [Hs'|(p & H1 & H2)].
           ++ apply in_app_or in Hs'. destruct Hs' as [Hs'|[<-|[]]]; [now left|].
              right. exists q. split; auto. now left.
           ++ right. exists p. split; auto. now right.
        -- intros ts E. injection E as <-. simpl.
           now rewrite Hpath, (Hts ts' eq_refl).
      * split; [|discriminate].
        intros s Hs. destruct (Hlog s Hs) as [Hs'|(p & H1 & H2)].
        -- apply in_app_or in Hs'. destruct Hs' as [Hs'|[<-|[]]]; [now left|].
           right. exists q. split; auto. now left.
        -- right. exists p. split; auto. now right.
    + inversion H; subst. pose proof (init_log _ _ _ _ _ _ Hinit) as ->.
      split; [|discriminate].
      intros s Hs. apply in_app_or in Hs. destruct Hs as [Hs|[<-|[]]]; [now left|].
      right. exists q. split; auto. now left.
Qed.

(** ** The first loop: grouping by cell *)

Lemma cell_eqb_eq : forall a b, DEMManager.cell_eqb a b = true <-> a = b.
Proof.
  intros [a1 a2] [b1 b2]. unfold DEMManager.cell_eqb. simpl.
  rewrite andb_true_iff, !Z.eqb_eq. split.
  - intros [-> ->]. reflexivity.
  - intros E. injection E as -> ->. now split.
Qed.

Lemma cell_eqb_neq : forall a b, DEMManager.cell_eqb a b = false <-> a <> b.
Proof.
  intros a b. rewrite <- cell_eqb_eq.
  destruct (DEMManager.cell_eqb a b); intuition congruence.
Qed.

Lemma group_entries_app : forall l1 l2 k,
  group_entries (l1 ++ l2) k = group_entries l1 k ++ group_entries l2 k.
Proof.
  intros l1 l2 k. induction l1 as [|p l1 IH]; simpl; [reflexivity|].
  destruct (DEMManager._parse_swisstopo_name (name p)) as [[i|]|ex]; auto.
  destruct (DEMManager.cell_eqb (cell_of i) k); simpl; now rewrite ?IH.
Qed.

Lemma group_entries_in : forall files k r p,
  In (r, p) (group_entries files k) <->
  In p files /\ exists i, fine p i /\ cell_of i = k /\ r = DEMManager.res i.
Proof.
  intros files k r p. unfold fine. induction files as [|q files IH]; simpl.
  - split; [tauto | intros [[] _]].
  - destruct (DEMManager._parse_swisstopo_name (name q)) as [[i|]|ex] eqn:Hq.
    + destruct (DEMManager.cell_eqb (cell_of i) k) eqn:Hk; simpl; rewrite IH.
      * apply cell_eqb_eq in Hk. split.
        -- intros [E|[H1 H2]]; [|tauto].
           injection E as <- <-. split; [now left|]. now exists i.
        -- intros [[<-|H1] (j & H2 & H3 & H4)]; [|right; split; eauto].
           left. rewrite Hq in H2. injection H2 as <-. now subst.
      * apply cell_eqb_neq in Hk. split; [intros [H1 H2]; tauto|].
        intros [[<-|H1] (j & H2 & H3 & H4)]; [|split; eauto].
        rewrite Hq in H2. injection H2 as <-. contradiction.
    + rewrite IH. split; [tauto|].
      intros [[<-|H1] (j & H2 & H3 & H4)]; [congruence | split; eauto].
    + rewrite IH. split; [tauto|].
      intros [[<-|H1] (j & H2 & H3 & H4)]; [congruence | split; eauto].
Qed.

Lemma coarse_entries_in : forall files i p,
  In (i, p) (coarse_entries files) <-> In p files /\ coarse p i.
Proof.
  intros files i p. unfold coarse. induction files as [|q files IH]; simpl.
  - split; [tauto | intros [[] _]].
  - destruct (DEMManager._parse_swisstopo_name (name q)) as [[j|]|ex] eqn:Hq.
    + rewrite IH. split; [tauto|].
      intros [[<-|H1] [H2 H3]]; [congruence | tauto].
    + destruct (DEMManager._parse_aster_name (name q)) as [j|] eqn:Ha;
        simpl; rewrite IH.
      * split.
        -- intros [E|H]; [|tauto]. injection E as <- <-. tauto.
        -- intros [[<-|H1] [H2 H3]]; [|tauto]. left. congruence.
      * split; [tauto|].
        intros [[<-|H1] [H2 H3]]; [congruence | tauto].
    + rewrite IH. split; [tauto|].
      intros [[<-|H1] [H2 H3]]; [congruence | tauto].
Qed.

Lemma setdefault_absent : forall key e d,
  ~ In key (map fst d) ->
  DEMManager.setdefault_append key e d = d ++ [(key, [e])].
Proof.
  intros key e d. induction d as [|[k es] d IH]; simpl; intros H; [reflexivity|].
  destruct (DEMManager.cell_eqb k key) eqn:Hk.
  - apply cell_eqb_eq in Hk. tauto.
  - rewrite IH; tauto.
Qed.

Lemma setdefault_keys : forall key e d,
  In key (map fst d) ->
  map fst (DEMManager.setdefault_append key e d) = map fst d.
Proof.
  intros key e d. induction d as [|[k es] d IH]; simpl; intros H; [tauto|].
  destruct (DEMManager.cell_eqb k key) eqn:Hk; simpl; [reflexivity|].
  apply cell_eqb_neq in Hk. rewrite IH; [reflexivity|].
  destruct H; [contradiction | assumption].
Qed.

Lemma setdefault_present : forall key e d k es',
  NoDup (map fst d) ->
  In key (map fst d) ->
  In (k, es') (DEMManager.setdefault_append key e d) ->
  (k <> key /\ In (k, es') d)
  \/ (k = key /\ exists es, In (key, es) d /\ es' = es ++ [e]).
Proof.
  intros key e d k es'. induction d as [|[k1 es1] d IH]; simpl;
    intros Hnd Hkey Hin; [tauto|].
  inversion Hnd as [|? ? Hk1 Hnd']; subst.
  destruct (DEMManager.cell_eqb k1 key) eqn:Hk.
  - apply cell_eqb_eq in Hk. subst k1. destruct Hin as [E|Hin].
    + injection E as <- <-. right. split; [reflexivity|]. exists es1. auto.
    + left. split; [|now right]. intros ->. apply Hk1.
      change key with (fst (key, es')). now apply in_map.
  - apply cell_eqb_neq in Hk. destruct Hin as [E|Hin].
    + injection E as <- <-. left. split; [assumption | now left].
    + destruct Hkey as [Hkey|Hkey]; [contradiction|].
      destruct (IH Hnd' Hkey Hin) as [[H1 H2]|[H1 (es & H2 & H3)]].
      * left. split; [assumption | now right].
      * right. split; [assumption|]. exists es. split; [now right | assumption].
Qed.

Lemma cell_in_dec : forall (k : DEMManager.cell) (l : list DEMManager.cell),
  In k l \/ ~ In k l.
Proof.
  intros k l. induction l as [|h l IH]; simpl; [tauto|].
  destruct (DEMManager.cell_eqb h k) eqn:E.
  - apply cell_eqb_eq in E. tauto.
  - apply cell_eqb_neq in E. tauto.
Qed.

Lemma dict_inv_fine : forall d seen p i,
  dict_inv d seen -> fine p i ->
  dict_inv (DEMManager.setdefault_append (cell_of i) (DEMManager.res i, p) d)
           (seen ++ [p]).
Proof.
  intros d seen p i (Hnd & Hes & Habs) Hp.
  assert (Hnew : forall k, group_entries (seen ++ [p]) k
                           = group_entries seen k
                             ++ (if DEMManager.cell_eqb (cell_of i) k
                                 then [(DEMManager.res i, p)] else [])).
  { intros k. rewrite group_entries_app. simpl. unfold fine in Hp. rewrite Hp.
    now destruct (DEMManager.cell_eqb (cell_of i) k). }
  destruct (cell_in_dec (cell_of i) (map fst d)) as [Hin|Hout].
  - split; [now rewrite setdefault_keys|]. split.
    + intros k es' H. rewrite Hnew.
      destruct (setdefault_present _ _ _ _ _ Hnd Hin H)
        as [[H1 H2]|[H1 (es & H2 & H3)]].
      * assert (E : DEMManager.cell_eqb (cell_of i) k = false)
          by (apply cell_eqb_neq; congruence).
        rewrite E, app_nil_r. now apply Hes.
      * subst k. assert (E : DEMManager.cell_eqb (cell_of i) (cell_of i) = true)
          by now apply cell_eqb_eq.
        rewrite E, H3. f_equal. now apply Hes.
    + intros k Hk. rewrite setdefault_keys in Hk by assumption.
      rewrite Hnew, (Habs k Hk).
      assert (E : DEMManager.cell_eqb (cell_of i) k = false).
      { apply cell_eqb_neq. intros <-. contradiction. }
      now rewrite E.
  - rewrite setdefault_absent by assumption. split; [|split].
    + rewrite map_app. simpl. apply NoDup_app; auto.
      * constructor; [intros [] | constructor].
      * intros k Hk [<-|[]]. contradiction.
    + intros k es' H. rewrite Hnew. apply in_app_or in H.
      destruct H as [H|[E|[]]].
      * assert (Hk : In k (map fst d))
          by (change k with (fst (k, es')); now apply in_map).
        assert (E : DEMManager.cell_eqb (cell_of i) k = false).
        { apply cell_eqb_neq. intros <-. contradiction. }
        rewrite E, app_nil_r. now apply Hes.
      * injection E as <- <-.
        assert (E : DEMManager.cell_eqb (cell_of i) (cell_of i) = true)
          by now apply cell_eqb_eq.
        now rewrite E, (Habs _ Hout).
    + intros k Hk. rewrite map_app, in_app_iff in Hk. simpl in Hk.
      rewrite Hnew, (Habs k) by tauto.
      assert (E : DEMManager.cell_eqb (cell_of i) k = false).
      { apply cell_eqb_neq. intros <-. tauto. }
      now rewrite E.
Qed.

Lemma dict_inv_other : forall d seen p,
  dict_inv d seen -> (forall i, ~ fine p i) -> dict_inv d (seen ++ [p]).
Proof.
  intros d seen p (Hnd & Hes & Habs) Hp.
  assert (Hnew : forall k, group_entries (seen ++ [p]) k = group_entries seen k).
  { intros k. rewrite group_entries_app. simpl. unfold fine in Hp.
    destruct (DEMManager._parse_swisstopo_name (name p)) as [[i|]|ex];
      rewrite ?app_nil_r; auto.
    exfalso. now apply (Hp i). }
  split; [assumption|]. split.
  - intros k es H. rewrite Hnew. now apply Hes.
  - intros k H. rewrite Hnew. now apply Habs.
Qed.

Lemma classify_spec : forall files seen d a d' a',
  dict_inv d seen ->
  DEMManager.classify files d a = Ok (d', a') ->
  dict_inv d' (seen ++ files) /\ a' = a ++ coarse_entries files.
Proof.
  induction files as [|p files IH]; intros seen d a d' a' Hinv H; simpl in H.
  - injection H as <- <-. now rewrite !app_nil_r.
  - simpl.
    destruct (DEMManager._parse_swisstopo_name (name p)) as [[i|]|ex] eqn:Hp;
      [| |discriminate].
    + apply (IH (seen ++ [p])) in H; [|now apply dict_inv_fine].
      now rewrite <- app_assoc in H.
    + assert (Hother : dict_inv d (seen ++ [p])).
      { apply dict_inv_other; [assumption|]. unfold fine. congruence. }
      destruct (DEMManager._parse_aster_name (name p)) as [j|].
      * apply (IH (seen ++ [p])) in H; [|assumption].
        now rewrite <- !app_assoc in H.
      * apply (IH (seen ++ [p])) in H; [|assumption].
        now rewrite <- app_assoc in H.
Qed.

Lemma dict_inv_nil : dict_inv [] [].
Proof.
  split; [constructor|]. split; [intros k es []|reflexivity].
Qed.

Lemma classify_groups : forall files d a,
  DEMManager.classify files [] [] = Ok (d, a) ->
  NoDup (map fst d)
  /\ (forall k es, In (k, es) d -> es = group_entries files k)
  /\ a = coarse_entries files.
Proof.
  intros files d a H.
  destruct (classify_spec files [] [] [] d a dict_inv_nil H)
    as [(H1 & H2 & _) H3].
  auto.
Qed.

(** ** Paths of the folder *)

Lemma append_inj : forall a x y : string,
  String.append a x = String.append a y -> x = y.
Proof.
  induction a as [|c a IH]; simpl; intros x y H; [assumption|].
  injection H as H. now apply IH.
Qed.

Lemma str_inj : forall p q, folder p = folder q -> str p = str q -> p = q.
Proof.
  intros [fp np] [fq nq]. unfold str. simpl. intros -> H.
  apply append_inj in H. simpl in H. injection H as ->. reflexivity.
Qed.

Lemma tif_files_folder : forall w self p,
  In p (DEMManager.tif_files w self) -> folder p = DEMManager.dem_folder self.
Proof.
  intros w self p H. unfold DEMManager.tif_files in H.
  apply in_map_iff in H. destruct H as (n & <- & _). reflexivity.
Qed.

Lemma fine_not_coarse : forall p i j, fine p i -> coarse p j -> False.
Proof.
  unfold fine, coarse. intros p i j H [H' _]. congruence.
Qed.

Lemma overlapping_coarse_in : forall files b p,
  In p (overlapping_coarse files b) <->
  In p files /\ exists i, coarse p i /\ DEMManager.aster_overlaps i b = true.
Proof.
  intros files b p. unfold overlapping_coarse.
  rewrite in_map_iff. split.
  - intros ([i q] & E & H). simpl in E. subst q.
    apply filter_In in H. destruct H as [H1 H2].
    apply coarse_entries_in in H1. destruct H1 as [H1 H3].
    split; [assumption|]. now exists i.
  - intros [H1 (i & H2 & H3)]. exists (i, p). split; [reflexivity|].
    apply filter_In. split; [|assumption].
    apply coarse_entries_in. now split.
Qed.

(** Every finest file of a cell of the dictionary is a fine-grid file of
    the listing. *)
Lemma finest_is_fine : forall files d a k es q,
  DEMManager.classify files [] [] = Ok (d, a) ->
  In (k, es) d -> DEMManager.finest_of es = Ok q ->
  In q files /\ exists i, fine q i /\ cell_of i = k
                          /\ In (DEMManager.res i, q) es.
Proof.
  intros files d a k es q Hcl Hin Hq.
  destruct (classify_groups _ _ _ Hcl) as (_ & Hes & _).
  destruct (finest_of_in _ _ Hq) as [r Hr].
  pose proof (Hes _ _ Hin) as E. rewrite E in Hr.
  pose proof Hr as Hr'. apply group_entries_in in Hr'.
  destruct Hr' as [H1 (i & H2 & H3 & H4)].
  split; [assumption|]. exists i. repeat split; try assumption.
  rewrite E. now subst r.
Qed.

(** ** The fallback to the coarse tiles *)

(** C3. For a call that returns, let [fine_sel] be the Swisstopo paths the
    first selection loop chose.  When [fine_sel] is empty, the loaded tiles
    are exactly the ASTER files of the listing whose cell overlaps the
    batch box, in listing order; when it is not, the loaded tiles are
    exactly [fine_sel], all fine-grid files, and no ASTER file is loaded or
    even opened.  A folder without fine-grid files has [fine_sel] empty. *)
Theorem C3_coarse_fallback :
  forall (w : World) (self self' : DEMManager.t)
         (coords : list (float * float)) (b : DEMManager.bbox)
         (cl : DEMManager.swiss_dict * list (DEMManager.aster_info * Path))
         (ts : list DEMTile.t) (log : list string),
    DEMManager.coords_bbox coords = Ok b ->
    DEMManager.classify (DEMManager.tif_files w self) [] [] = Ok cl ->
    DEMManager.load_tiles_for_coords w self coords [] = (Ok (self', ts), log) ->
    exists fine_sel log0,
      DEMManager.select_finest w b (fst cl) [] [] = (Ok fine_sel, log0)
      /\ DEMManager.tiles self' = ts
      /\ (fine_sel = [] ->
          map DEMTile.path ts
          = map str (overlapping_coarse (DEMManager.tif_files w self) b))
      /\ (forall p,
            In p (overlapping_coarse (DEMManager.tif_files w self) b) <->
            In p (DEMManager.tif_files w self)
            /\ exists i, coarse p i /\ DEMManager.aster_overlaps i b = true)
      /\ (fine_sel <> [] ->
          map DEMTile.path ts = map str fine_sel
          /\ (forall q, In q fine_sel ->
                In q (DEMManager.tif_files w self) /\ exists i, fine q i)
          /\ (forall p i, In p (DEMManager.tif_files w self) -> coarse p i ->
                ~ In (str p) (map DEMTile.path ts) /\ ~ In (str p) log))
      /\ ((forall p i, In p (DEMManager.tif_files w self) -> ~ fine p i) ->
          fine_sel = []).
Proof.
  intros w self self' coords b [d a] ts log Hb Hcl Hload.
  unfold DEMManager.load_tiles_for_coords, bind, lift, ret in Hload.
  rewrite Hb, Hcl in Hload. simpl fst in *. simpl snd in *.
  destruct (DEMManager.select_finest w b d [] []) as [[fine_sel|ex] log0] eqn:Hsel;
    [|discriminate].
  exists fine_sel, log0. split; [reflexivity|].
  destruct (classify_groups _ _ _ Hcl) as (_ & _ & Ha).
  destruct (select_finest_spec _ _ _ _ _ _ _ Hsel) as [Hlog0 Hch].
  assert (Hfine : forall q, In q fine_sel ->
            In q (DEMManager.tif_files w self) /\ exists i, fine q i).
  { intros q Hq. destruct (Hch fine_sel eq_refl q Hq) as [[]|(k & es & H1 & H2)].
    destruct (finest_is_fine _ _ _ _ _ _ Hcl H1 H2) as [H3 (i & H4 & _)].
    split; [assumption|]. now exists i. }
  destruct (mapM _ _ log0) as [[ts'|ex] log1] eqn:Hmap; [|discriminate].
  injection Hload as <- <- <-. simpl.
  destruct (mapM_init_spec _ _ _ _ _ Hmap) as [Hlog1 Hts].
  specialize (Hts ts' eq_refl).
  split; [reflexivity|]. split; [|split; [|split]].
  - intros ->. rewrite Hts, Ha. reflexivity.
  - apply overlapping_coarse_in.
  - intros Hne. destruct fine_sel as [|q0 rest]; [congruence|].
    split; [exact Hts|]. split; [exact Hfine|].
    intros p i Hp Hc.
    assert (Hno : forall q, In q (q0 :: rest) -> str p <> str q).
    { intros q Hq E. destruct (Hfine q Hq) as [Hq' (j & Hj)].
      assert (p = q) as ->.
      { apply str_inj; [|assumption].
        now rewrite (tif_files_folder _ _ _ Hp), (tif_files_folder _ _ _ Hq'). }
      exact (fine_not_coarse _ _ _ Hj Hc). }
    split.
    + rewrite Hts. intros Hin. apply in_map_iff in Hin.
      destruct Hin as (q & E & Hq). exact (Hno q Hq (eq_sym E)).
    + intros Hin. destruct (Hlog1 _ Hin) as [Hin0|(q & Hq & E)].
      * destruct (Hlog0 _ Hin0) as [[]|(k & es & q & H1 & H2 & E)].
        destruct (finest_is_fine _ _ _ _ _ _ Hcl H1 H2) as [Hq' (j & Hj & _)].
        assert (p = q) as ->.
        { apply str_inj; [|assumption].
          now rewrite (tif_files_folder _ _ _ Hp), (tif_files_folder _ _ _ Hq'). }
        exact (fine_not_coarse _ _ _ Hj Hc).
      * exact (Hno q Hq E).
  - intros Hnone. destruct fine_sel as [|q0 rest]; [reflexivity|].
    destruct (Hfine q0 (or_introl eq_refl)) as [Hq (i & Hi)].
    exfalso. exact (Hnone q0 i Hq Hi).
Qed.

(** ** Binary64 facts: rounding never makes a NaN, and [<] is a strict
    weak order away from NaN *)

Section Rounding.
Variables prec emax : Z.

Lemma shr_1_nonneg : forall mrs, 0 <= shr_m mrs -> 0 <= shr_m (shr_1 mrs).
Proof.
  intros [m r s] H. simpl in *.
  destruct m as [|p|p]; [simpl; lia | | lia].
  destruct p; simpl; lia.
Qed.

Lemma iter_shr_1_nonneg : forall p mrs,
  0 <= shr_m mrs -> 0 <= shr_m (iter_pos shr_1 p mrs).
Proof.
  induction p as [p IH|p IH|]; intros mrs H; simpl.
  - apply IH, IH. now apply shr_1_nonneg.
  - now apply IH, IH.
  - now apply shr_1_nonneg.
Qed.

Lemma shr_fexp_nonneg : forall m e l,
  0 <= m -> 0 <= shr_m (fst (shr_fexp prec emax m e l)).
Proof.
  intros m e l H. unfold shr_fexp, shr.
  assert (H0 : 0 <= shr_m (shr_record_of_loc m l)).
  { destruct l as [|[]]; simpl; assumption. }
  destruct (fexp prec emax (Zdigits2 m + e) - e); simpl; try assumption.
  now apply iter_shr_1_nonneg.
Qed.

Lemma round_nearest_even_nonneg : forall m l,
  0 <= m -> 0 <= round_nearest_even m l.
Proof.
  intros m l H. unfold round_nearest_even.
  destruct l as [|[]]; try assumption; [destruct (Z.even m)|]; lia.
Qed.

Lemma binary_round_aux_not_nan : forall s m e l,
  0 <= m -> binary_round_aux prec emax s m e l <> S754_nan.
Proof.
  intros s m e l H. unfold binary_round_aux.
  pose proof (shr_fexp_nonneg m e l H) as H1.
  destruct (shr_fexp prec emax m e l) as [mrs' e']. simpl in H1.
  pose proof (shr_fexp_nonneg _ e' loc_Exact
                (round_nearest_even_nonneg _ (loc_of_shr_record mrs') H1)) as H2.
  destruct (shr_fexp prec emax _ e' loc_Exact) as [mrs'' e'']. simpl in H2.
  destruct (shr_m mrs'') as [|p|p]; [discriminate | | lia].
  destruct (e'' <=? emax - prec); discriminate.
Qed.

Lemma binary_round_not_nan : forall s m e,
  binary_round prec emax s m e <> S754_nan.
Proof.
  intros s m e. unfold binary_round.
  destruct (shl_align m e _) as [mz ez].
  apply binary_round_aux_not_nan. lia.
Qed.

Lemma binary_normalize_not_nan : forall m e sz,
  binary_normalize prec emax m e sz <> S754_nan.
Proof.
  intros [|p|p] e sz; simpl; [discriminate| |]; apply binary_round_not_nan.
Qed.

Lemma SFldexp_not_nan : forall f e,
  f <> S754_nan -> SFldexp prec emax f e <> S754_nan.
Proof.
  intros [s|s| |s m x] e H; simpl; try assumption.
  apply binary_round_not_nan.
Qed.

Lemma SFdiv_not_nan : forall n d : positive,
  SFdiv prec emax (S754_finite false n 0) (S754_finite false d 0) <> S754_nan.
Proof.
  intros n d. unfold SFdiv, SFdiv_core_binary.
  set (e' := Z.min _ _). set (m' := match 0 - 0 - e' with
                                     | 0 => Z.pos n
                                     | Z.pos _ => Z.shiftl (Z.pos n) (0 - 0 - e')
                                     | Z.neg _ => 0
                                     end).
  assert (Hm : 0 <= m').
  { unfold m'. destruct (0 - 0 - e'); try lia. apply Z.shiftl_nonneg. lia. }
  pose proof (Z.div_pos m' (Z.pos d) Hm ltac:(lia)) as Hq.
  unfold Z.div in Hq.
  destruct (Z.div_eucl m' (Z.pos d)) as [q r].
  now apply binary_round_aux_not_nan.
Qed.
End Rounding.

Lemma SFopp_not_nan : forall f, f <> S754_nan -> SFopp f <> S754_nan.
Proof. intros [s|s| |s m e] H; simpl; try discriminate. assumption. Qed.

Lemma SF2Prim_not_nan : forall x, x <> S754_nan -> not_nan (SF2Prim x).
Proof.
  intros [[]|[]| |s m e] H; unfold not_nan; try (vm_compute; discriminate).
  - contradiction.
  - unfold SF2Prim.
    assert (Hl : Prim2SF (Z.ldexp (of_uint63 (Uint63.of_Z (Z.pos m))) e)
                 <> S754_nan).
    { unfold Z.ldexp. rewrite ldshiftexp_spec. apply SFldexp_not_nan.
      rewrite of_uint63_spec. apply binary_normalize_not_nan. }
    destruct s; [|assumption].
    rewrite opp_spec. now apply SFopp_not_nan.
Qed.

Lemma decimal_to_float_not_nan : forall n k,
  0 <= n -> not_nan (decimal_to_float n k).
Proof.
  intros n k Hn. unfold decimal_to_float. apply SF2Prim_not_nan.
  assert (Hp : 0 < 10 ^ Z.of_nat k) by (apply Z.pow_pos_nonneg; lia).
  destruct (10 ^ Z.of_nat k) as [|d|d]; try lia.
  destruct n as [|p|p]; [simpl; discriminate | | lia].
  apply SFdiv_not_nan.
Qed.

Lemma py_int_nonneg : forall s,
  forallb is_digit s = true -> 0 <= py_int s.
Proof.
  intros s. unfold py_int.
  assert (G : forall acc, 0 <= acc -> forallb is_digit s = true ->
                0 <= fold_left (fun a c => 10 * a + digit_val c) s acc).
  { induction s as [|c s IH]; cbn [fold_left forallb]; intros acc Hacc H;
      [assumption|].
    apply andb_true_iff in H. destruct H as [Hc Hs]. apply IH; [|assumption].
    unfold is_digit in Hc. apply andb_true_iff in Hc. destruct Hc as [Hc _].
    apply Nat.leb_le in Hc. unfold digit_val. lia. }
  apply G. lia.
Qed.

Lemma filter_digits : forall s, forallb is_digit (filter is_digit s) = true.
Proof.
  induction s as [|c s IH]; simpl; [reflexivity|].
  destruct (is_digit c) eqn:E; simpl; [now rewrite E|assumption].
Qed.

Lemma py_float_not_nan : forall s f, py_float s = Ok f -> not_nan f.
Proof.
  intros s f H. unfold py_float in H.
  pose proof (py_int_nonneg _ (filter_digits s)) as Hn.
  destruct (filter is_digit s) as [|c ds]; [discriminate|].
  destruct (filter is_dot s) as [|d [|d' dots]].
  - injection H as <-. now apply decimal_to_float_not_nan.
  - destruct (after_dot s); [|discriminate].
    injection H as <-. now apply decimal_to_float_not_nan.
  - discriminate.
Qed.

Lemma fine_res_not_nan : forall p i, fine p i -> not_nan (DEMManager.res i).
Proof.
  intros p i H. unfold fine, DEMManager._parse_swisstopo_name in H.
  destruct (re_match swisstopo_re (name p)) as [m|]; [|discriminate].
  destruct (py_float (group m 3)) as [r|ex] eqn:E; [|discriminate].
  injection H as <-. simpl. eapply py_float_not_nan; eassumption.
Qed.

Ltac split_compare :=
  repeat match goal with
         | H : context [Pos.compare_cont Eq ?a ?b] |- _ =>
             change (Pos.compare_cont Eq a b) with (Pos.compare a b) in H
         | |- context [Pos.compare_cont Eq ?a ?b] =>
             change (Pos.compare_cont Eq a b) with (Pos.compare a b)
         end;
  repeat match goal with
         | H : context [Z.compare ?a ?b] |- _ =>
             destruct (Z.compare_spec a b); simpl in H
         | |- context [Z.compare ?a ?b] =>
             destruct (Z.compare_spec a b); simpl
         | H : context [Pos.compare ?a ?b] |- _ =>
             destruct (Pos.compare_spec a b); simpl in H
         | |- context [Pos.compare ?a ?b] =>
             destruct (Pos.compare_spec a b); simpl
         end;
  subst; try reflexivity; try discriminate; try lia.

Lemma SFltb_irrefl : forall x, SFltb x x = false.
Proof.
  intros [[]|[]| |[] m e]; unfold SFltb; simpl; try reflexivity;
    split_compare.
Qed.

Lemma SFltb_asym : forall x y, SFltb x y = true -> SFltb y x = false.
Proof.
  intros [[]|[]| |[] m e] [[]|[]| |[] m' e']; unfold SFltb; simpl;
    intros H; try reflexivity; try discriminate; split_compare.
Qed.

Lemma SFltb_neg_trans : forall x h e,
  h <> S754_nan ->
  SFltb x h = false -> SFltb h e = false -> SFltb x e = false.
Proof.
  intros [[]|[]| |[] m1 e1] [[]|[]| |[] m2 e2] [[]|[]| |[] m3 e3];
    unfold SFltb; simpl; intros Hn H1 H2;
    try reflexivity; try discriminate; try congruence; split_compare.
Qed.

Lemma ltb_irrefl : forall x, PrimFloat.ltb x x = false.
Proof. intros x. rewrite ltb_spec. apply SFltb_irrefl. Qed.

Lemma ltb_asym : forall x y,
  PrimFloat.ltb x y = true -> PrimFloat.ltb y x = false.
Proof. intros x y. rewrite !ltb_spec. apply SFltb_asym. Qed.

Lemma ltb_neg_trans : forall x h e,
  not_nan h ->
  PrimFloat.ltb x h = false -> PrimFloat.ltb h e = false ->
  PrimFloat.ltb x e = false.
Proof. intros x h e. rewrite !ltb_spec. apply SFltb_neg_trans. Qed.

(** ** The finest file of a cell *)

Lemma sort_entries_nil : forall es, DEMManager.sort_entries es = [] -> es = [].
Proof.
  intros [|e es] H; [reflexivity|].
  assert (Hin : In e (DEMManager.sort_entries (e :: es)))
    by (apply sort_entries_in; now left).
  rewrite H in Hin. destruct Hin.
Qed.

Lemma sort_head_minimal : forall es h t,
  (forall e, In e es -> not_nan (fst e)) ->
  DEMManager.sort_entries es = h :: t ->
  In h es /\ forall e, In e es -> PrimFloat.ltb (fst e) (fst h) = false.
Proof.
  induction es as [|e es IH]; intros h t Hnan H; [discriminate|].
  simpl in H.
  destruct (DEMManager.sort_entries es) as [|h' t'] eqn:Hs.
  - apply sort_entries_nil in Hs. subst es. simpl in H. injection H as <- <-.
    split; [now left|]. intros x [<-|[]]. apply ltb_irrefl.
  - destruct (IH h' t' (fun x Hx => Hnan x (or_intror Hx)) eq_refl)
      as [Hin Hmin].
    simpl in H. destruct (PrimFloat.ltb (fst h') (fst e)) eqn:Hlt.
    + injection H as <- _. split; [now right|].
      intros x [<-|Hx]; [now apply ltb_asym | now apply Hmin].
    + injection H as <- _. split; [now left|].
      intros x [<-|Hx]; [apply ltb_irrefl|].
      apply ltb_neg_trans with (h := fst h'); auto.
      apply Hnan. now right.
Qed.

Lemma finest_of_minimal : forall es q,
  (forall e, In e es -> not_nan (fst e)) ->
  DEMManager.finest_of es = Ok q ->
  exists r, In (r, q) es
            /\ forall e, In e es -> PrimFloat.ltb (fst e) r = false.
Proof.
  intros es q Hnan H. unfold DEMManager.finest_of in H.
  destruct (DEMManager.sort_entries es) as [|[r q'] t] eqn:Hs; [discriminate|].
  injection H as <-. exists r.
  destruct (sort_head_minimal es (r, q') t Hnan Hs) as [H1 H2]. auto.
Qed.

Lemma finest_of_some : forall es,
  es <> [] -> exists q, DEMManager.finest_of es = Ok q.
Proof.
  intros es H. unfold DEMManager.finest_of.
  destruct (DEMManager.sort_entries es) as [|[r q] t] eqn:Hs.
  - apply sort_entries_nil in Hs. contradiction.
  - now exists q.
Qed.

Lemma group_entries_not_nan : forall files k e,
  In e (group_entries files k) -> not_nan (fst e).
Proof.
  intros files k [r p] H. apply group_entries_in in H.
  destruct H as [_ (i & Hi & _ & ->)]. simpl. eapply fine_res_not_nan, Hi.
Qed.

Lemma select_aster_in : forall b a q,
  In q (DEMManager.select_aster b a) -> exists i, In (i, q) a.
Proof.
  intros b a q H. unfold DEMManager.select_aster in H.
  apply in_map_iff in H. destruct H as ([i q'] & E & H). simpl in E. subst q'.
  apply filter_In in H. exists i. tauto.
Qed.

(** Every path handed to [gdal.Open] during a call, and every path of a
    tile the call returns, is the finest file of a cell or an ASTER file. *)
Lemma load_opens : forall w self coords d a r log,
  DEMManager.classify (DEMManager.tif_files w self) [] [] = Ok (d, a) ->
  DEMManager.load_tiles_for_coords w self coords [] = (r, log) ->
  forall s,
    (In s log
     \/ exists self' ts, r = Ok (self', ts) /\ In s (map DEMTile.path ts)) ->
    (exists k es q,
        In (k, es) d /\ DEMManager.finest_of es = Ok q /\ s = str q)
    \/ (exists i q, In (i, q) a /\ s = str q).
Proof.
  intros w self coords d a r log Hcl Hload s Hs.
  unfold DEMManager.load_tiles_for_coords, bind, lift, ret in Hload.
  destruct (DEMManager.coords_bbox coords) as [b|ex].
  2:{ inversion Hload; subst. destruct Hs as [[]|(? & ? & E & _)]; discriminate. }
  rewrite Hcl in Hload. simpl fst in Hload. simpl snd in Hload.
  destruct (DEMManager.select_finest w b d [] []) as [[sel|ex] log0] eqn:Hsel.
  2:{ inversion Hload; subst.
      destruct (select_finest_spec _ _ _ _ _ _ _ Hsel) as [Hlog0 _].
      destruct Hs as [Hs|(? & ? & E & _)]; [|discriminate].
      destruct (Hlog0 s Hs) as [[]|H]. now left. }
  destruct (select_finest_spec _ _ _ _ _ _ _ Hsel) as [Hlog0 Hch].
  specialize (Hch sel eq_refl).
  set (chosen := match sel with [] => DEMManager.select_aster b a | _ => sel end)
    in Hload.
  assert (Hchosen : forall q, In q chosen ->
            (exists k es, In (k, es) d /\ DEMManager.finest_of es = Ok q)
            \/ (exists i, In (i, q) a)).
  { intros q Hq. unfold chosen in Hq. destruct sel as [|q0 rest].
    - right. eapply select_aster_in, Hq.
    - left. destruct (Hch q Hq) as [[]|H]. exact H. }
  assert (Hstr : forall q, In q chosen ->
            (exists k es q',
                In (k, es) d /\ DEMManager.finest_of es = Ok q' /\ str q = str q')
            \/ (exists i q', In (i, q') a /\ str q = str q')).
  { intros q Hq. destruct (Hchosen q Hq) as [(k & es & H1 & H2)|(i & H1)].
    - left. now exists k, es, q.
    - right. now exists i, q. }
  destruct (mapM _ chosen log0) as [[ts|ex] log1] eqn:Hmap.
  - destruct (mapM_init_spec _ _ _ _ _ Hmap) as [Hlog1 Hts].
    specialize (Hts ts eq_refl). inversion Hload; subst.
    destruct Hs as [Hs|(self' & ts' & E & Hs)].
    + destruct (Hlog1 s Hs) as [Hs0|(q & Hq & ->)]; [|now apply Hstr].
      destruct (Hlog0 s Hs0) as [[]|H]. now left.
    + injection E as _ <-. rewrite Hts in Hs. apply in_map_iff in Hs.
      destruct Hs as (q & <- & Hq). now apply Hstr.
  - destruct (mapM_init_spec _ _ _ _ _ Hmap) as [Hlog1 _].
    inversion Hload; subst.
    destruct Hs as [Hs|(? & ? & E & _)]; [|discriminate].
    destruct (Hlog1 s Hs) as [Hs0|(q & Hq & ->)]; [|now apply Hstr].
    destruct (Hlog0 s Hs0) as [[]|H]. now left.
Qed.

Lemma setdefault_nonempty : forall key e d,
  (forall k es, In (k, es) d -> es <> []) ->
  forall k es, In (k, es) (DEMManager.setdefault_append key e d) -> es <> [].
Proof.
  intros key e d. induction d as [|[k1 es1] d IH]; simpl; intros Hd k es H.
  - destruct H as [E|[]]. injection E as _ <-. discriminate.
  - destruct (DEMManager.cell_eqb k1 key).
    + destruct H as [E|H].
      * injection E as _ <-. destruct es1; discriminate.
      * apply (Hd k es). now right.
    + destruct H as [E|H].
      * apply (Hd k es). now left.
      * apply IH with (k := k); [|assumption].
        intros k' es' H'. apply (Hd k' es'). now right.
Qed.

Lemma classify_nonempty : forall files d a d' a',
  (forall k es, In (k, es) d -> es <> []) ->
  DEMManager.classify files d a = Ok (d', a') ->
  forall k es, In (k, es) d' -> es <> [].
Proof.
  induction files as [|p files IH]; intros d a d' a' Hd H; simpl in H.
  - injection H as <- <-. assumption.
  - destruct (DEMManager._parse_swisstopo_name (name p)) as [[i|]|ex];
      [| |discriminate].
    + eapply IH; [|eassumption]. now apply setdefault_nonempty.
    + destruct (DEMManager._parse_aster_name (name p));
        eapply IH; eassumption.
Qed.

Lemma classify_covers : forall files d a p i,
  DEMManager.classify files [] [] = Ok (d, a) ->
  In p files -> fine p i -> exists es, In (cell_of i, es) d.
Proof.
  intros files d a p i H Hp Hi.
  destruct (classify_spec files [] [] [] d a dict_inv_nil H)
    as [(_ & _ & Habs) _]. simpl in Habs.
  destruct (cell_in_dec (cell_of i) (map fst d)) as [Hin|Hout].
  - apply in_map_iff in Hin. destruct Hin as ([k es] & E & Hin).
    simpl in E. subst k. now exists es.
  - exfalso. specialize (Habs _ Hout).
    assert (Hin : In (DEMManager.res i, p) (group_entries files (cell_of i))).
    { apply group_entries_in. split; [assumption|]. now exists i. }
    rewrite Habs in Hin. destruct Hin.
Qed.

Lemma fine_functional : forall p i j, fine p i -> fine p j -> i = j.
Proof. unfold fine. intros p i j H1 H2. congruence. Qed.

Lemma C3_witness :
  DEMManager.load_tiles_for_coords Fixture.coarse_world Fixture.manager
    Fixture.batch []
  = (Ok ({| DEMManager.dem_folder := "dem";
            DEMManager.tiles := [Fixture.aster_tile] |},
         [Fixture.aster_tile]),
     ["dem/ASTGTMV3_N46E008_dem.tif"]%string)
  /\ map DEMTile.path [Fixture.aster_tile]
     = map str (overlapping_coarse
                  (DEMManager.tif_files Fixture.coarse_world Fixture.manager)
                  Fixture.batch_box)
  /\ overlapping_coarse
       (DEMManager.tif_files Fixture.coarse_world Fixture.manager)
       Fixture.batch_box
     = [Fixture.aster_file].
Proof.
  assert (Hload : DEMManager.load_tiles_for_coords Fixture.coarse_world
                    Fixture.manager Fixture.batch []
                  = (Ok ({| DEMManager.dem_folder := "dem";
                            DEMManager.tiles := [Fixture.aster_tile] |},
                         [Fixture.aster_tile]),
                     ["dem/ASTGTMV3_N46E008_dem.tif"]%string))
    by (vm_compute; reflexivity).
  destruct (C3_coarse_fallback Fixture.coarse_world Fixture.manager _
              Fixture.batch Fixture.batch_box Fixture.coarse_classified
              _ _ eq_refl eq_refl Hload)
    as (fine_sel & log0 & Hsel & _ & Hempty & _ & _ & Hnone).
  split; [exact Hload|]. split; [|vm_compute; reflexivity].
  apply Hempty, Hnone.
  intros p i Hp Hi. vm_compute in Hp.
  destruct Hp as [<-|[<-|[<-|[]]]]; vm_compute in Hi; discriminate.
Defined.

(** ** Names that fit the Swisstopo pattern without a number *)

(** C6. The resolution field of the Swisstopo pattern is [[\d\.]+], which
    also fits ["0.5.1"] and ["."]; [float] rejects both, so
    [_parse_swisstopo_name] raises [ValueError] on such a name, and a
    folder holding one makes [load_tiles_for_coords] raise before any file
    is opened, leaving [self.tiles] as it was. *)
Theorem C6_matching_name_raises :
  DEMManager._parse_swisstopo_name "grid_12-07_0.5.1_1_1.tif" = Raise ValueError
  /\ DEMManager._parse_swisstopo_name "x_1-2_._3_4.tif" = Raise ValueError
  /\ DEMManager._parse_aster_name "grid_12-07_0.5.1_1_1.tif" = None
  /\ DEMManager.call_load Fixture.misnamed_world Fixture.used_manager
       Fixture.batch
     = (Raise ValueError, Fixture.used_manager, []).
Proof. vm_compute. repeat split. Qed.

(** The two patterns exclude each other in the loop: a name is offered to
    the ASTER pattern only after the Swisstopo pattern did not match, so no
    file is both fine-grid and coarse-grid; and the ASTER parser never
    raises. *)
Lemma at_most_one_family : forall p i j, ~ (fine p i /\ coarse p j).
Proof. intros p i j [H1 H2]. exact (fine_not_coarse p i j H1 H2). Qed.

(** ** The matcher is sound for [matches], and the two patterns are disjoint *)

Lemma lazy_star_sound : forall (R : Type) p s (k : chars -> option R) res,
  lazy_star R p s k = Some res ->
  exists s1 s2, s = s1 ++ s2 /\ forallb p s1 = true /\ k s2 = Some res.
Proof.
  intros R p s k res. induction s as [|c s IH]; simpl; intros H.
  - destruct (k []) eqn:E; [|discriminate]. exists [], []. now rewrite E.
  - destruct (k (c :: s)) eqn:E.
    + exists [], (c :: s). now rewrite E.
    + destruct (p c) eqn:Hc; [|discriminate].
      destruct (IH H) as (s1 & s2 & -> & H1 & H2).
      exists (c :: s1), s2. simpl. now rewrite Hc.
Qed.

Lemma greedy_star_sound : forall (R : Type) p s (k : chars -> option R) res,
  greedy_star R p s k = Some res ->
  exists s1 s2, s = s1 ++ s2 /\ forallb p s1 = true /\ k s2 = Some res.
Proof.
  intros R p s k res. induction s as [|c s IH]; simpl; intros H.
  - now exists [], [].
  - destruct (p c) eqn:Hc; [|now exists [], (c :: s)].
    destruct (greedy_star R p s k) eqn:E; [|now exists [], (c :: s)].
    destruct (IH H) as (s1 & s2 & -> & H1 & H2).
    exists (c :: s1), s2. simpl. now rewrite Hc.
Qed.

Lemma run_sound : forall (R : Type) r s g (k : chars -> groups -> option R) res,
  run R r s g k = Some res ->
  exists s1 s2 g', s = s1 ++ s2 /\ matches r s1 s2 /\ k s2 g' = Some res.
Proof.
  intros R r. induction r as [|c|p|p|a IHa b IHb|n a IHa|];
    intros s g k res H; simpl in H.
  - now exists [], s, g.
  - destruct s as [|x s]; [discriminate|].
    destruct (Ascii.eqb x c) eqn:E; [|discriminate].
    apply Ascii.eqb_eq in E. subst x. now exists [c], s, g.
  - apply lazy_star_sound in H. destruct H as (s1 & s2 & -> & H1 & H2).
    now exists s1, s2, g.
  - unfold greedy_plus in H. destruct s as [|c s]; [discriminate|].
    destruct (p c) eqn:Hc; [|discriminate].
    apply greedy_star_sound in H. destruct H as (s1 & s2 & -> & H1 & H2).
    exists (c :: s1), s2, g. simpl. rewrite Hc.
    repeat split; try assumption. discriminate.
  - apply IHa in H. destruct H as (s1 & s2 & g1 & -> & Ha & H).
    apply IHb in H. destruct H as (t1 & t2 & g2 & -> & Hb & H).
    exists (s1 ++ t1), t2, g2. rewrite app_assoc.
    repeat split; try assumption. simpl. now exists s1, t1.
  - apply IHa in H. destruct H as (s1 & s2 & g1 & -> & Ha & H).
    exists s1, s2, (set_group n (firstn (List.length (s1 ++ s2) - List.length s2)
                                   (s1 ++ s2)) g1).
    now repeat split.
  - destruct s as [|c [|c' s]].
    + exists [], [], g. simpl. tauto.
    + destruct (Ascii.eqb c newline) eqn:E; [|discriminate].
      apply Ascii.eqb_eq in E. subst c. exists [], [newline], g. simpl. tauto.
    + discriminate.
Qed.

Lemma matches_can_consume : forall r s rest c,
  matches r s rest -> In c s -> can_consume r c = true.
Proof.
  induction r as [|c'|p|p|a IHa b IHb|n a IHa|]; simpl; intros s rest c H Hin.
  - subst s. destruct Hin.
  - subst s. destruct Hin as [<-|[]]. apply Ascii.eqb_refl.
  - rewrite forallb_forall in H. now apply H.
  - destruct H as [_ H]. rewrite forallb_forall in H. now apply H.
  - destruct H as (s1 & s2 & -> & Ha & Hb). apply orb_true_iff.
    apply in_app_or in Hin. destruct Hin; [left|right]; eauto.
  - eauto.
  - destruct H as [-> _]. destruct Hin.
Qed.

Lemma matches_must_consume : forall r s rest c,
  matches r s rest -> must_consume r c = true -> In c s.
Proof.
  induction r as [|c'|p|p|a IHa b IHb|n a IHa|]; simpl; intros s rest c H Hm;
    try discriminate.
  - apply Ascii.eqb_eq in Hm. subst. now left.
  - destruct H as (s1 & s2 & -> & Ha & Hb). apply in_or_app.
    apply orb_true_iff in Hm. destruct Hm; [left|right]; eauto.
  - eauto.
Qed.

Lemma matches_ends_on_eos : forall r s rest,
  matches r s rest -> ends_on_eos r = true -> rest = [] \/ rest = [newline].
Proof.
  induction r as [|c'|p|p|a IHa b IHb|n a IHa|]; simpl; intros s rest H He;
    try discriminate.
  - destruct H as (s1 & s2 & -> & Ha & Hb).
    destruct b; try (eapply IHb; eassumption).
    simpl in Hb. subst s2. simpl in Ha. eapply IHa; eassumption.
  - tauto.
Qed.

(** No name is matched by both regular expressions: a Swisstopo name holds
    a hyphen, an ASTER name holds none. *)
Lemma patterns_are_disjoint : forall name : string,
  re_match swisstopo_re name <> None -> re_match aster_re name = None.
Proof.
  intros name Hs. destruct (re_match aster_re name) as [ga|] eqn:Ha;
    [|reflexivity].
  exfalso. destruct (re_match swisstopo_re name) as [gs|] eqn:Hs';
    [clear Hs|congruence].
  unfold re_match in *.
  apply run_sound in Hs'. destruct Hs' as (s1 & s2 & g1 & E1 & M1 & _).
  apply run_sound in Ha. destruct Ha as (t1 & t2 & g2 & E2 & M2 & _).
  assert (Hin : In "-"%char s1).
  { eapply matches_must_consume; [exact M1|]. vm_compute. reflexivity. }
  assert (Hname : In "-"%char (t1 ++ t2)).
  { rewrite <- E2, E1. apply in_or_app. now left. }
  apply in_app_or in Hname. destruct Hname as [H|H].
  - pose proof (matches_can_consume _ _ _ _ M2 H) as Hc.
    vm_compute in Hc. discriminate.
  - destruct (matches_ends_on_eos _ _ _ M2 eq_refl) as [->| ->].
    + destruct H.
    + destruct H as [H|[]]. vm_compute in H. discriminate.
Qed.

(** ** Binary64 facts: adding one half to a half-integer is exact *)

Lemma digits2_bounds : forall p : positive,
  2 ^ (Z.pos (digits2_pos p) - 1) <= Z.pos p < 2 ^ Z.pos (digits2_pos p).
Proof.
  induction p as [p IH|p IH|]; simpl digits2_pos.
  - rewrite Pos2Z.inj_succ.
    replace (Z.succ (Z.pos (digits2_pos p)) - 1) with (Z.succ (Z.pos (digits2_pos p) - 1)) by lia.
    rewrite !Z.pow_succ_r by lia. lia.
  - rewrite Pos2Z.inj_succ.
    replace (Z.succ (Z.pos (digits2_pos p)) - 1) with (Z.succ (Z.pos (digits2_pos p) - 1)) by lia.
    rewrite !Z.pow_succ_r by lia. lia.
  - simpl. lia.
Qed.

Lemma digits2_unique : forall (p : positive) (d : Z),
  2 ^ (d - 1) <= Z.pos p < 2 ^ d -> Z.pos (digits2_pos p) = d.
Proof.
  intros p d [Hlo Hhi]. destruct (digits2_bounds p) as [Hlo' Hhi'].
  assert (Hd : 0 < d).
  { destruct (Z_lt_le_dec 0 d) as [H|H]; [assumption|].
    exfalso. destruct (Z.eq_dec d 0) as [->|Hne].
    - simpl in Hhi. lia.
    - rewrite Z.pow_neg_r in Hhi by lia. lia. }
  assert (H1 : d - 1 < Z.pos (digits2_pos p)).
  { apply (Z.pow_lt_mono_r_iff 2); lia. }
  assert (H2 : Z.pos (digits2_pos p) - 1 < d).
  { apply (Z.pow_lt_mono_r_iff 2); lia. }
  lia.
Qed.

Lemma shr_1_even : forall a, 0 <= a ->
  shr_1 {| shr_m := 2 * a; shr_r := false; shr_s := false |}
  = {| shr_m := a; shr_r := false; shr_s := false |}.
Proof.
  intros [|p|p] H; reflexivity.
Qed.

Lemma iter_shr_1_exact : forall (k : positive) (a : Z), 0 <= a ->
  iter_pos shr_1 k {| shr_m := a * 2 ^ Z.pos k; shr_r := false; shr_s := false |}
  = {| shr_m := a; shr_r := false; shr_s := false |}.
Proof.
  induction k as [k IH|k IH|]; intros a Ha; cbn [iter_pos].
  - assert (Hp : 0 < 2 ^ Z.pos k) by (apply Z.pow_pos_nonneg; lia).
    replace (a * 2 ^ Z.pos k~1) with (2 * ((a * 2 ^ Z.pos k) * 2 ^ Z.pos k)).
    + rewrite shr_1_even by nia. rewrite IH by nia. now apply IH.
    + replace (Z.pos k~1) with (Z.pos k + Z.pos k + 1) by lia.
      rewrite !Z.pow_add_r by lia. change (2 ^ 1) with 2. ring.
  - assert (Hp : 0 < 2 ^ Z.pos k) by (apply Z.pow_pos_nonneg; lia).
    replace (a * 2 ^ Z.pos k~0) with ((a * 2 ^ Z.pos k) * 2 ^ Z.pos k).
    + rewrite IH by nia. now apply IH.
    + replace (Z.pos k~0) with (Z.pos k + Z.pos k) by lia.
      rewrite Z.pow_add_r by lia. ring.
  - replace (a * 2 ^ 1) with (2 * a) by (change (2 ^ 1) with 2; lia).
    now apply shr_1_even.
Qed.

Lemma pow2_pos : forall k, 0 <= k -> 0 < 2 ^ k.
Proof. intros. apply Z.pow_pos_nonneg; lia. Qed.

Lemma binary_round_exact53 : forall (sgn : bool) (p : positive) (N : Z),
  0 < N <= 2 ^ 52 -> Z.pos p = N * 2 ^ 53 ->
  exists q e',
    binary_round prec emax sgn p (-53) = S754_finite sgn q e'
    /\ -53 <= e' <= 0 /\ Z.pos q * 2 ^ 53 = N * 2 ^ 53 * 2 ^ (- e').
Proof.
  intros sgn p N HN Hp.
  destruct (digits2_bounds p) as [Hlo Hhi].
  set (d := Z.pos (digits2_pos p)) in *.
  assert (Hd : 54 <= d <= 106).
  { split.
    - assert (53 < d); [|lia]. apply (Z.pow_lt_mono_r_iff 2); lia.
    - assert (d - 1 < 106); [|lia]. apply (Z.pow_lt_mono_r_iff 2); lia. }
  set (k := d - 53).
  assert (Hk : 1 <= k <= 53) by (unfold k; lia).
  set (a := N * 2 ^ (53 - k)).
  assert (Hpk : Z.pos p = a * 2 ^ k).
  { unfold a. rewrite <- Z.mul_assoc, <- Z.pow_add_r by lia.
    replace (53 - k + k) with 53 by lia. exact Hp. }
  assert (Ha : 0 < a).
  { unfold a. pose proof (pow2_pos (53 - k)). nia. }
  destruct a as [|q|q] eqn:Eq; try lia.
  assert (Hdq : Z.pos (digits2_pos q) = 53).
  { apply digits2_unique. pose proof (pow2_pos k).
    split.
    - apply (Z.mul_le_mono_pos_r _ _ (2 ^ k)); [lia|].
      rewrite <- Z.pow_add_r by lia. replace (53 - 1 + k) with (d - 1) by (unfold k; lia).
      rewrite <- Hpk. exact Hlo.
    - apply (Z.mul_lt_mono_pos_r (2 ^ k)); [lia|].
      rewrite <- Z.pow_add_r by lia. replace (53 + k) with d by (unfold k; lia).
      rewrite <- Hpk. exact Hhi. }
  exists q, (k - 53).
  split; [|split; [lia|]].
  - unfold binary_round.
    assert (Hf : fexp prec emax (Z.pos (digits2_pos p) + -53) = d - 106).
    { unfold fexp, emin, prec, emax. fold d. lia. }
    rewrite Hf. unfold shl_align.
    destruct (d - 106 - -53) as [|x|x] eqn:Ex; try lia.
    unfold binary_round_aux, shr_fexp. cbn [Zdigits2]. rewrite Hf.
    replace (d - 106 - -53) with k by (unfold k; lia).
    unfold shr. destruct k as [|kp|kp] eqn:Ek; try lia.
    cbn [shr_record_of_loc]. rewrite Hpk, iter_shr_1_exact by lia.
    cbn [shr_m loc_of_shr_record round_nearest_even Zdigits2 shr_record_of_loc].
    rewrite Hdq.
    assert (Hf2 : fexp prec emax (53 + (-53 + Z.pos kp)) - (-53 + Z.pos kp) = 0).
    { unfold fexp, emin, prec, emax. lia. }
    rewrite Hf2. cbn [shr_m].
    assert (Hle : (-53 + Z.pos kp <=? emax - prec) = true).
    { apply Z.leb_le. unfold emax, prec. lia. }
    rewrite Hle. f_equal; lia.
  - replace (- (k - 53)) with (53 - k) by lia.
    fold a in Eq. rewrite <- Eq. unfold a. ring.
Qed.

Lemma shl_align_down : forall m e e', e' <= e ->
  shl_align m e e'
  = (Z.to_pos (Z.pos m * 2 ^ (e - e')), e').
Proof.
  intros m e e' H. unfold shl_align.
  destruct (e' - e) as [|d|d] eqn:E; try lia.
  - replace (e - e') with 0 by lia. f_equal; [|lia].
    rewrite Z.mul_1_r. reflexivity.
  - replace (e - e') with (Z.pos d) by lia. f_equal.
    change (Pos.iter xO m d) with (shift_pos d m).
    apply Pos2Z.inj. rewrite shift_pos_correct.
    rewrite Z2Pos.id; [apply Z.mul_comm|].
    pose proof (pow2_pos (Z.pos d)). lia.
Qed.

Lemma canonical_digits : forall m e,
  bounded prec emax m e = true -> Z.pos m < 2 ^ 53.
Proof.
  intros m e H. unfold bounded in H. apply andb_true_iff in H.
  destruct H as [H _]. unfold canonical_mantissa in H. apply Z.eqb_eq in H.
  unfold fexp, emin, prec, emax in H.
  destruct (digits2_bounds m) as [_ Hhi].
  apply Z.lt_le_trans with (1 := Hhi).
  apply Z.pow_le_mono_r; lia.
Qed.

Lemma SFadd_half_exact : forall s m e n,
  bounded prec emax m e = true ->
  -53 <= e <= -1 ->
  cond_Zopp s (Z.pos m) * 2 ^ (e + 53) = (2 * n + 1) * 2 ^ 52 ->
  (n + 1 = 0 /\ SFadd prec emax (S754_finite s m e) half = S754_zero false)
  \/ (exists s' q e',
        SFadd prec emax (S754_finite s m e) half = S754_finite s' q e'
        /\ -53 <= e' <= 0
        /\ cond_Zopp s' (Z.pos q) * 2 ^ 53 = (n + 1) * 2 ^ 53 * 2 ^ (- e')).
Proof.
  intros s m e n Hb He Hv.
  pose proof (canonical_digits m e Hb) as Hm.
  pose proof (pow2_pos (e + 53) ltac:(lia)) as Hp.
  assert (Hpe : 2 ^ (e + 53) <= 2 ^ 52) by (apply Z.pow_le_mono_r; lia).
  assert (Hn : - 2 ^ 52 <= n + 1 <= 2 ^ 52).
  { assert (Hmp : 0 < Z.pos m * 2 ^ (e + 53) < 2 ^ 53 * 2 ^ 52) by nia.
    destruct s; unfold cond_Zopp in Hv; lia. }
  unfold SFadd, half. replace (Z.min e (-53)) with (-53) by lia.
  rewrite (shl_align_down m e (-53)) by lia.
  rewrite (shl_align_down 4503599627370496 (-53) (-53)) by lia.
  cbn [fst]. replace (e - -53) with (e + 53) by lia.
  replace (-53 - -53) with 0 by lia.
  rewrite (Z2Pos.id (Z.pos m * 2 ^ (e + 53))) by nia.
  rewrite (Z2Pos.id (4503599627370496 * 2 ^ 0)) by reflexivity.
  assert (Hsum : cond_Zopp s (Z.pos m * 2 ^ (e + 53))
                 + cond_Zopp false (4503599627370496 * 2 ^ 0)
                 = (n + 1) * 2 ^ 53).
  { change (2 ^ 53) with (2 * 2 ^ 52).
    change (4503599627370496 * 2 ^ 0) with (2 ^ 52).
    destruct s; unfold cond_Zopp in *;
      [rewrite Z.mul_opp_l in Hv|]; lia. }
  rewrite Hsum.
  destruct (Z.eq_dec (n + 1) 0) as [Hz|Hnz].
  - left. split; [assumption|]. rewrite Hz. reflexivity.
  - right. unfold binary_normalize.
    destruct (Z_lt_le_dec 0 (n + 1)) as [Hpos|Hneg].
    + assert (Ep : (n + 1) * 2 ^ 53 = Z.pos (Z.to_pos ((n + 1) * 2 ^ 53)))
        by (rewrite Z2Pos.id; lia).
      destruct (binary_round_exact53 false (Z.to_pos ((n + 1) * 2 ^ 53)) (n + 1))
        as (q & e' & H1 & H2 & H3); [lia | now rewrite <- Ep |].
      exists false, q, e'. split; [rewrite Ep; exact H1|].
      split; [assumption | exact H3].
    + assert (Ep : (n + 1) * 2 ^ 53 = Z.neg (Z.to_pos (- (n + 1) * 2 ^ 53))).
      { rewrite <- Pos2Z.opp_pos, Z2Pos.id; lia. }
      destruct (binary_round_exact53 true (Z.to_pos (- (n + 1) * 2 ^ 53))
                  (- (n + 1)))
        as (q & e' & H1 & H2 & H3); [lia | rewrite Z2Pos.id; lia |].
      exists true, q, e'. split; [rewrite Ep; exact H1|].
      split; [assumption|].
      unfold cond_Zopp. rewrite Z.mul_opp_l, H3. ring.
Qed.

Lemma Qpower2_neg : forall p : positive,
  Qeq (Qpower (2 # 1) (Z.neg p)) (1 # (2 ^ p)%positive).
Proof.
  intros p. rewrite (Qpower_decomp_neg_pos p 2 1).
  rewrite Z.pow_1_l by lia. reflexivity.
Qed.

Lemma Qpower2_pos : forall p : positive,
  Qeq (Qpower (2 # 1) (Z.pos p)) (inject_Z (2 ^ Z.pos p)).
Proof.
  intros p. rewrite (Qpower_decomp_pos p 2 1).
  unfold Qeq, inject_Z, Qnum, Qden.
  rewrite Pos2Z.inj_pow, Z.pow_1_l by lia. reflexivity.
Qed.

Lemma scaled_value : forall (a X e : Z),
  -53 <= e <= 0 ->
  a * 2 ^ 53 = X * 2 ^ 53 * 2 ^ (- e) ->
  Qeq (Qmult (inject_Z a) (Qpower (2 # 1) e)) (inject_Z X).
Proof.
  intros a X e He H.
  assert (Ha : a = X * 2 ^ (- e)).
  { apply (Z.mul_cancel_r _ _ (2 ^ 53)); [lia|]. rewrite H. ring. }
  destruct e as [|p|p]; try lia.
  - simpl in Ha. simpl Qpower. unfold Qeq. simpl. lia.
  - rewrite Qpower2_neg. unfold Qeq. simpl.
    rewrite Pos2Z.inj_pow. simpl in Ha. rewrite Ha.
    change (Z.pow_pos 2 p) with (2 ^ Z.pos p). ring.
Qed.

Lemma half_integer_spec : forall s m e n,
  bounded prec emax m e = true ->
  Qeq (Qmult (inject_Z (cond_Zopp s (Z.pos m))) (Qpower (2 # 1) e))
      (Qplus (inject_Z n) (1 # 2)) ->
  -53 <= e <= -1
  /\ cond_Zopp s (Z.pos m) * 2 ^ (e + 53) = (2 * n + 1) * 2 ^ 52.
Proof.
  intros s m e n Hb E.
  pose proof (canonical_digits m e Hb) as Hm.
  set (a := cond_Zopp s (Z.pos m)) in *.
  assert (Habs : - 2 ^ 53 < a < 2 ^ 53) by (unfold a; destruct s; simpl; lia).
  destruct e as [|p|p].
  - exfalso. simpl Qpower in E. unfold Qeq in E. simpl in E. lia.
  - exfalso. rewrite Qpower2_pos in E. unfold Qeq in E. simpl in E.
    change (Z.pow_pos 2 p) with (2 ^ Z.pos p) in E.
    assert (Hp : 2 ^ Z.pos p = 2 * 2 ^ (Z.pos p - 1)).
    { rewrite <- Z.pow_succ_r by lia. f_equal. lia. }
    rewrite Hp in E. lia.
  - rewrite Qpower2_neg in E. unfold Qeq in E. simpl in E.
    rewrite Pos2Z.inj_pow in E.
    assert (Hp : 2 ^ Z.pos p = 2 * 2 ^ (Z.pos p - 1)).
    { rewrite <- Z.pow_succ_r by lia. f_equal. lia. }
    assert (Ha : a = (2 * n + 1) * 2 ^ (Z.pos p - 1)).
    { rewrite Hp in E. lia. }
    assert (Hj : Z.pos p <= 53).
    { destruct (Z_le_gt_dec (Z.pos p) 53) as [H|H]; [assumption|exfalso].
      assert (HX : 2 ^ 53 <= 2 ^ (Z.pos p - 1)) by (apply Z.pow_le_mono_r; lia).
      set (X := 2 ^ (Z.pos p - 1)) in *.
      assert (Hodd : 1 <= 2 * n + 1 \/ 2 * n + 1 <= -1) by lia.
      destruct Hodd; nia. }
    split; [lia|].
    rewrite Ha, <- Z.mul_assoc, <- Z.pow_add_r by lia.
    f_equal. f_equal. lia.
Qed.

Lemma half_integer_sum_exact : forall (f : float) (n : Z),
  has_value f (Qplus (inject_Z n) (1 # 2)) ->
  has_value (PrimFloat.add f 0.5%float) (inject_Z (n + 1)).
Proof.
  intros f n (q & Hq & E). unfold has_value, float_value in *.
  pose proof (Prim2SF_valid f) as Hvalid.
  rewrite add_spec.
  change (Prim2SF 0.5%float) with half.
  destruct (Prim2SF f) as [s0|s0| |s m e]; try discriminate.
  - exfalso. injection Hq as <-. unfold Qeq in E. simpl in E. lia.
  - injection Hq as <-. simpl in Hvalid.
    destruct (half_integer_spec s m e n Hvalid E) as [He Hv].
    destruct (SFadd_half_exact s m e n Hvalid He Hv)
      as [[Hz Hr]|(s' & q' & e' & Hr & He' & Hv')];
      unfold SF64add; rewrite Hr.
    + exists (0 # 1)%Q. split; [reflexivity|]. rewrite Hz. reflexivity.
    + eexists. split; [reflexivity|]. now apply scaled_value.
Qed.

(** ** Rounding of the pixel coordinates *)


Lemma math_floor_value : forall f q,
  float_value f = Some q -> math_floor f = Ok (Qfloor q).
Proof.
  intros f q H. unfold math_floor, float_value in *.
  destruct (Prim2SF f); try discriminate; injection H as <-; reflexivity.
Qed.

Lemma floor_half_nearest : forall v : Q,
  Qle (Qminus (inject_Z (Qfloor (Qplus v (1 # 2)))) (1 # 2)) v
  /\ Qlt v (Qplus (inject_Z (Qfloor (Qplus v (1 # 2)))) (1 # 2)).
Proof.
  intros v. pose proof (Qfloor_le (Qplus v (1 # 2))) as Hlo.
  pose proof (Qlt_floor (Qplus v (1 # 2))) as Hhi.
  rewrite inject_Z_plus in Hhi. change (inject_Z 1) with (1 # 1)%Q in Hhi.
  split; lra.
Qed.

(** C8, on the fixture: the pixel coordinate [0.49999999999999994] lies
    below one half, so the nearest pixel is 0, yet the binary64 sum with 0.5
    is 1.0 and the code samples pixel 1. *)
Lemma C8_counterexample :
  DEMTile.pixel_f Fixture.unit_tile 0%float Fixture.below_half
  = Ok (Fixture.below_half, 0%float)
  /\ float_value Fixture.below_half
     = Some (9007199254740991 # 18014398509481984)
  /\ Qfloor (Qplus (9007199254740991 # 18014398509481984) (1 # 2)) = 0
  /\ DEMTile.pixel_index Fixture.unit_tile 0%float Fixture.below_half
     = Ok (1, 0)
  /\ DEMTile.get_elevation Fixture.unit_tile 0%float Fixture.below_half
     = Ok (Some 101%float).
Proof. vm_compute. repeat split. Qed.

(** C8 as the code has it.  The integer pixel indices are the floors of the
    binary64 sums [px_f + 0.5] and [py_f + 0.5].  A half-integer coordinate
    [n + 1/2] always goes up to [n + 1]; whenever the sum is exact, the
    index is the integer nearest to the fractional coordinate; and the
    elevation returned is the value read at that one pixel (no
    interpolation). *)
Theorem C8_floor_of_sum_rounding :
  forall (self : DEMTile.t) (lat lon px_f py_f : float) (px py : Z),
    DEMTile.pixel_f self lat lon = Ok (px_f, py_f) ->
    DEMTile.pixel_index self lat lon = Ok (px, py) ->
    math_floor (PrimFloat.add px_f 0.5%float) = Ok px
    /\ math_floor (PrimFloat.add py_f 0.5%float) = Ok py
    /\ (forall n, has_value px_f (Qplus (inject_Z n) (1 # 2)) -> px = n + 1)
    /\ (forall n, has_value py_f (Qplus (inject_Z n) (1 # 2)) -> py = n + 1)
    /\ (forall v, exact_half_sum px_f v ->
          Qle (Qminus (inject_Z px) (1 # 2)) v
          /\ Qlt v (Qplus (inject_Z px) (1 # 2)))
    /\ (forall v, exact_half_sum py_f v ->
          Qle (Qminus (inject_Z py) (1 # 2)) v
          /\ Qlt v (Qplus (inject_Z py) (1 # 2)))
    /\ (forall z, DEMTile.get_elevation self lat lon = Ok (Some z) ->
                  ReadAsArray (DEMTile.ds self) px py = Ok (Some z)).
Proof.
  intros self lat lon px_f py_f px py Hf Hidx.
  assert (Hfl : math_floor (PrimFloat.add px_f 0.5%float) = Ok px
                /\ math_floor (PrimFloat.add py_f 0.5%float) = Ok py).
  { unfold DEMTile.pixel_index in Hidx. rewrite Hf in Hidx.
    destruct (math_floor (PrimFloat.add px_f 0.5%float)) as [x|ex];
      [|discriminate].
    destruct (math_floor (PrimFloat.add py_f 0.5%float)) as [y|ex];
      [|discriminate].
    injection Hidx as <- <-. now split. }
  destruct Hfl as [Hx Hy].
  assert (Hsum : forall f i v,
            math_floor (PrimFloat.add f 0.5%float) = Ok i ->
            has_value (PrimFloat.add f 0.5%float) v -> i = Qfloor v).
  { intros f i v Hi (q & Hq & E). rewrite (math_floor_value _ _ Hq) in Hi.
    injection Hi as <-. now rewrite E. }
  split; [exact Hx|]. split; [exact Hy|].
  split; [|split; [|split; [|split]]].
  - intros n Hn. rewrite (Hsum _ _ _ Hx (half_integer_sum_exact _ _ Hn)).
    apply Qfloor_Z.
  - intros n Hn. rewrite (Hsum _ _ _ Hy (half_integer_sum_exact _ _ Hn)).
    apply Qfloor_Z.
  - intros v [_ Hv]. rewrite (Hsum _ _ _ Hx Hv). apply floor_half_nearest.
  - intros v [_ Hv]. rewrite (Hsum _ _ _ Hy Hv). apply floor_half_nearest.
  - intros z Hz. unfold DEMTile.get_elevation in Hz. rewrite Hidx in Hz.
    destruct (negb _); [discriminate|].
    destruct (ReadAsArray _ _ _) as [[r|]|ex]; try discriminate.
    destruct (DEMTile.is_nodata self r); congruence.
Qed.

Lemma C8_witness :
  math_floor (PrimFloat.add 2.5%float 0.5%float) = Ok 3
  /\ math_floor (PrimFloat.add 1.5%float 0.5%float) = Ok 2
  /\ (forall n, has_value 2.5%float (Qplus (inject_Z n) (1 # 2)) -> 3 = n + 1)
  /\ (forall n, has_value 1.5%float (Qplus (inject_Z n) (1 # 2)) -> 2 = n + 1)
  /\ (forall v, exact_half_sum 2.5%float v ->
        Qle (Qminus (inject_Z 3) (1 # 2)) v
        /\ Qlt v (Qplus (inject_Z 3) (1 # 2)))
  /\ (forall v, exact_half_sum 1.5%float v ->
        Qle (Qminus (inject_Z 2) (1 # 2)) v
        /\ Qlt v (Qplus (inject_Z 2) (1 # 2)))
  /\ (forall z,
        DEMTile.get_elevation Fixture.unit_tile 1.5%float 2.5%float
        = Ok (Some z) ->
        ReadAsArray (DEMTile.ds Fixture.unit_tile) 3 2 = Ok (Some z)).
Proof.
  apply (C8_floor_of_sum_rounding Fixture.unit_tile 1.5%float 2.5%float
           2.5%float 1.5%float 3 2).
  - vm_compute. reflexivity.
  - vm_compute. reflexivity.
Defined.

(** ** Binary64 facts: transitivity of the comparisons *)

Lemma SFltb_trans : forall x y z,
  SFltb x y = true -> SFltb y z = true -> SFltb x z = true.
Proof.
  intros [[]|[]| |[] m1 e1] [[]|[]| |[] m2 e2] [[]|[]| |[] m3 e3];
    unfold SFltb; simpl; intros H1 H2;
    try reflexivity; try discriminate; split_compare.
Qed.

Lemma SFleb_ltb_trans : forall x y z,
  SFleb x y = true -> SFltb y z = true -> SFltb x z = true.
Proof.
  intros [[]|[]| |[] m1 e1] [[]|[]| |[] m2 e2] [[]|[]| |[] m3 e3];
    unfold SFltb, SFleb; simpl; intros H1 H2;
    try reflexivity; try discriminate; split_compare.
Qed.

Lemma SFltb_leb_trans : forall x y z,
  SFltb x y = true -> SFleb y z = true -> SFltb x z = true.
Proof.
  intros [[]|[]| |[] m1 e1] [[]|[]| |[] m2 e2] [[]|[]| |[] m3 e3];
    unfold SFltb, SFleb; simpl; intros H1 H2;
    try reflexivity; try discriminate; split_compare.
Qed.

Lemma SFltb_not_nan : forall x y,
  SFltb x y = true -> x <> S754_nan /\ y <> S754_nan.
Proof.
  intros [s|s| |s m e] [s'|s'| |s' m' e']; unfold SFltb; simpl; intros H;
    try discriminate; split; discriminate.
Qed.

Lemma SFleb_total : forall x y,
  x <> S754_nan -> y <> S754_nan -> SFltb x y = false -> SFleb y x = true.
Proof.
  intros [[]|[]| |[] m1 e1] [[]|[]| |[] m2 e2];
    unfold SFltb, SFleb; simpl; intros Hx Hy H;
    try reflexivity; try discriminate; try congruence; split_compare.
Qed.

Lemma ltb_trans : forall x y z,
  PrimFloat.ltb x y = true -> PrimFloat.ltb y z = true ->
  PrimFloat.ltb x z = true.
Proof. intros x y z. rewrite !ltb_spec. apply SFltb_trans. Qed.

Lemma leb_ltb_trans : forall x y z,
  PrimFloat.leb x y = true -> PrimFloat.ltb y z = true ->
  PrimFloat.ltb x z = true.
Proof. intros x y z. rewrite !ltb_spec, leb_spec. apply SFleb_ltb_trans. Qed.

Lemma ltb_leb_trans : forall x y z,
  PrimFloat.ltb x y = true -> PrimFloat.leb y z = true ->
  PrimFloat.ltb x z = true.
Proof. intros x y z. rewrite !ltb_spec, leb_spec. apply SFltb_leb_trans. Qed.

Lemma ltb_not_nan : forall x y,
  PrimFloat.ltb x y = true -> not_nan x /\ not_nan y.
Proof. intros x y. rewrite ltb_spec. apply SFltb_not_nan. Qed.

Lemma leb_total : forall x y,
  not_nan x -> not_nan y -> PrimFloat.ltb x y = false ->
  PrimFloat.leb y x = true.
Proof. intros x y. rewrite ltb_spec, leb_spec. apply SFleb_total. Qed.

(** ** Outcomes of a query *)

Lemma probe_raises : forall lat lon ts e,
  DEMManager.probe ts lat lon = Raise e ->
  exists before t after,
    ts = before ++ t :: after /\ silent_tiles lat lon before
    /\ DEMTile.bbox_contains t lat lon = true
    /\ DEMTile.get_elevation t lat lon = Raise e.
Proof.
  intros lat lon. induction ts as [|t ts IH]; simpl; intros e H; [discriminate|].
  destruct (DEMTile.bbox_contains t lat lon) eqn:Hc.
  - destruct (DEMTile.get_elevation t lat lon) as [[v|]|ex] eqn:Hs.
    + discriminate.
    + destruct (IH e H) as (b & t' & a & -> & Hb & Ht & Hz).
      exists (t :: b), t', a. repeat split; try assumption.
      intros u [<-|Hu] Hu'; [exact Hs | now apply Hb].
    + injection H as <-. exists [], t, ts. repeat split; try assumption.
      intros u [].
  - destruct (IH e H) as (b & t' & a & -> & Hb & Ht & Hz).
    exists (t :: b), t', a. repeat split; try assumption.
    intros u [<-|Hu] Hu'; [congruence | now apply Hb].
Qed.

(** X1. [DEMManager.get_elevation] raises [e] exactly when some tile of
    the list contains the point and its sampling raises [e] while every
    tile before it is outside the point or samples to None: the first
    failing tile aborts the query, whatever the tiles after it hold.  A
    tile whose footprint does not contain the point is never sampled, so a
    point outside every footprint gives None even when sampling would
    raise. *)
Theorem X1_query_raises_on_first_failing_tile :
  forall (self : DEMManager.t) (lat lon : float),
    (forall e,
        DEMManager.get_elevation self lat lon = Raise e <->
        exists before t after,
          DEMManager.tiles self = before ++ t :: after
          /\ (forall u, In u before ->
                DEMTile.bbox_contains u lat lon = true ->
                DEMTile.get_elevation u lat lon = Ok None)
          /\ DEMTile.bbox_contains t lat lon = true
          /\ DEMTile.get_elevation t lat lon = Raise e)
    /\ ((forall t, In t (DEMManager.tiles self) ->
           DEMTile.bbox_contains t lat lon = false) ->
        DEMManager.get_elevation self lat lon = Ok None).
Proof.
  intros self lat lon. unfold DEMManager.get_elevation. split.
  - intros e. split.
    + intros H. destruct (probe_raises _ _ _ _ H) as (b & t & a & E & Hb & Ht & Hz).
      exists b, t, a. repeat split; assumption.
    + intros (b & t & a & E & Hb & Ht & Hz). rewrite E.
      rewrite probe_skip by exact Hb. simpl. now rewrite Ht, Hz.
  - intros H. apply probe_none. intros u Hu Hc. rewrite (H u Hu) in Hc.
    discriminate.
Qed.

(** ** The bounding box of a batch *)

Lemma fold_min_spec : forall (r : list float) (x : float) (seen : list float),
  In x seen ->
  (not_nan x -> forall y, In y seen -> PrimFloat.ltb y x = false) ->
  let m := fold_left (fun m y => if PrimFloat.ltb y m then y else m) r x in
  In m (seen ++ r)
  /\ (not_nan m -> forall y, In y (seen ++ r) -> PrimFloat.ltb y m = false).
Proof.
  induction r as [|y r IH]; intros x seen Hin Hmin; simpl.
  - rewrite app_nil_r. now split.
  - replace (seen ++ y :: r) with ((seen ++ [y]) ++ r)
      by (rewrite <- app_assoc; reflexivity).
    destruct (PrimFloat.ltb y x) eqn:Hlt.
    + apply IH.
      * apply in_or_app. right. now left.
      * intros _ z Hz. apply in_app_or in Hz. destruct Hz as [Hz|[<-|[]]].
        -- destruct (PrimFloat.ltb z y) eqn:Hzy; [|reflexivity].
           pose proof (ltb_trans _ _ _ Hzy Hlt) as Hzx.
           rewrite (Hmin (proj2 (ltb_not_nan _ _ Hlt)) z Hz) in Hzx.
           discriminate.
        -- apply ltb_irrefl.
    + apply IH.
      * apply in_or_app. now left.
      * intros Hx z Hz. apply in_app_or in Hz. destruct Hz as [Hz|[<-|[]]].
        -- now apply Hmin.
        -- exact Hlt.
Qed.

Lemma fold_max_spec : forall (r : list float) (x : float) (seen : list float),
  In x seen ->
  (not_nan x -> forall y, In y seen -> PrimFloat.ltb x y = false) ->
  let m := fold_left (fun m y => if PrimFloat.ltb m y then y else m) r x in
  In m (seen ++ r)
  /\ (not_nan m -> forall y, In y (seen ++ r) -> PrimFloat.ltb m y = false).
Proof.
  induction r as [|y r IH]; intros x seen Hin Hmax; simpl.
  - rewrite app_nil_r. now split.
  - replace (seen ++ y :: r) with ((seen ++ [y]) ++ r)
      by (rewrite <- app_assoc; reflexivity).
    destruct (PrimFloat.ltb x y) eqn:Hlt.
    + apply IH.
      * apply in_or_app. right. now left.
      * intros _ z Hz. apply in_app_or in Hz. destruct Hz as [Hz|[<-|[]]].
        -- destruct (PrimFloat.ltb y z) eqn:Hyz; [|reflexivity].
           pose proof (ltb_trans _ _ _ Hlt Hyz) as Hxz.
           rewrite (Hmax (proj1 (ltb_not_nan _ _ Hlt)) z Hz) in Hxz.
           discriminate.
        -- apply ltb_irrefl.
    + apply IH.
      * apply in_or_app. now left.
      * intros Hx z Hz. apply in_app_or in Hz. destruct Hz as [Hz|[<-|[]]].
        -- now apply Hmax.
        -- exact Hlt.
Qed.

Lemma py_min_spec : forall l m,
  py_min l = Ok m ->
  In m l /\ (not_nan m -> forall y, In y l -> PrimFloat.ltb y m = false).
Proof.
  intros [|x r] m H; [discriminate|]. simpl in H. injection H as <-.
  apply (fold_min_spec r x [x]).
  - now left.
  - intros _ y [<-|[]]. apply ltb_irrefl.
Qed.

Lemma py_max_spec : forall l m,
  py_max l = Ok m ->
  In m l /\ (not_nan m -> forall y, In y l -> PrimFloat.ltb m y = false).
Proof.
  intros [|x r] m H; [discriminate|]. simpl in H. injection H as <-.
  apply (fold_max_spec r x [x]).
  - now left.
  - intros _ y [<-|[]]. apply ltb_irrefl.
Qed.

Lemma coords_bbox_fields : forall coords b,
  DEMManager.coords_bbox coords = Ok b ->
  py_min (map fst coords) = Ok (DEMManager.q_minlat b)
  /\ py_max (map fst coords) = Ok (DEMManager.q_maxlat b)
  /\ py_min (map snd coords) = Ok (DEMManager.q_minlon b)
  /\ py_max (map snd coords) = Ok (DEMManager.q_maxlon b).
Proof.
  intros coords b H. unfold DEMManager.coords_bbox in H.
  destruct (py_min (map fst coords)) as [a|]; [|discriminate].
  destruct (py_max (map fst coords)) as [a'|];
    [|destruct (py_min (map snd coords)); destruct (py_max (map snd coords));
      discriminate].
  destruct (py_min (map snd coords)) as [c|];
    [|destruct (py_max (map snd coords)); discriminate].
  destruct (py_max (map snd coords)) as [c'|]; [|discriminate].
  injection H as <-. simpl. auto.
Qed.

(** X2. For a batch without NaN coordinates the box computed by
    [load_tiles_for_coords] contains every point of the batch, and each of
    its four bounds is a coordinate of some point of the batch. *)
Theorem X2_batch_box_contains_every_point :
  forall (coords : list (float * float)) (b : DEMManager.bbox),
    DEMManager.coords_bbox coords = Ok b ->
    (forall c, In c coords -> not_nan (fst c) /\ not_nan (snd c)) ->
    (forall lat lon, In (lat, lon) coords ->
       PrimFloat.leb (DEMManager.q_minlat b) lat = true
       /\ PrimFloat.leb lat (DEMManager.q_maxlat b) = true
       /\ PrimFloat.leb (DEMManager.q_minlon b) lon = true
       /\ PrimFloat.leb lon (DEMManager.q_maxlon b) = true)
    /\ In (DEMManager.q_minlat b) (map fst coords)
    /\ In (DEMManager.q_maxlat b) (map fst coords)
    /\ In (DEMManager.q_minlon b) (map snd coords)
    /\ In (DEMManager.q_maxlon b) (map snd coords).
Proof.
  intros coords b Hb Hnan.
  destruct (coords_bbox_fields _ _ Hb) as (H1 & H2 & H3 & H4).
  destruct (py_min_spec _ _ H1) as [I1 M1].
  destruct (py_max_spec _ _ H2) as [I2 M2].
  destruct (py_min_spec _ _ H3) as [I3 M3].
  destruct (py_max_spec _ _ H4) as [I4 M4].
  assert (Nlat : forall x, In x (map fst coords) -> not_nan x).
  { intros x Hx. apply in_map_iff in Hx. destruct Hx as (c & <- & Hc).
    now apply Hnan. }
  assert (Nlon : forall x, In x (map snd coords) -> not_nan x).
  { intros x Hx. apply in_map_iff in Hx. destruct Hx as (c & <- & Hc).
    now apply Hnan. }
  split; [|auto].
  intros lat lon Hin.
  assert (Hlat : In lat (map fst coords))
    by (change lat with (fst (lat, lon)); now apply in_map).
  assert (Hlon : In lon (map snd coords))
    by (change lon with (snd (lat, lon)); now apply in_map).
  repeat split.
  - apply leb_total; auto.
  - apply leb_total; auto.
  - apply leb_total; auto.
  - apply leb_total; auto.
Qed.

Lemma X2_witness :
  PrimFloat.leb 46.25%float 46.5%float = true
  /\ PrimFloat.leb 46.5%float 46.5%float = true
  /\ PrimFloat.leb 8.5%float 8.5%float = true
  /\ PrimFloat.leb 8.5%float 8.75%float = true.
Proof.
  refine (proj1 (X2_batch_box_contains_every_point Fixture.batch
                   Fixture.batch_box eq_refl _) 46.5%float 8.5%float _).
  - intros c [<-|[<-|[]]]; split; unfold not_nan; vm_compute; discriminate.
  - left. reflexivity.
Defined.

(** ** A tile that holds a point of the batch is not rejected *)

Lemma overlap_of_containing_tile :
  forall (coords : list (float * float)) (b : DEMManager.bbox)
         (t : DEMTile.t) (lat lon : float),
    DEMManager.coords_bbox coords = Ok b ->
    In (lat, lon) coords ->
    DEMTile.bbox_contains t lat lon = true ->
    DEMManager.tile_overlaps t b = true.
Proof.
  intros coords b t lat lon Hb Hin Hc.
  destruct (coords_bbox_fields _ _ Hb) as (H1 & H2 & H3 & H4).
  destruct (py_min_spec _ _ H1) as [_ M1].
  destruct (py_max_spec _ _ H2) as [_ M2].
  destruct (py_min_spec _ _ H3) as [_ M3].
  destruct (py_max_spec _ _ H4) as [_ M4].
  assert (Hlat : In lat (map fst coords))
    by (change lat with (fst (lat, lon)); now apply in_map).
  assert (Hlon : In lon (map snd coords))
    by (change lon with (snd (lat, lon)); now apply in_map).
  unfold DEMTile.bbox_contains in Hc.
  apply andb_true_iff in Hc. destruct Hc as [Hc1 Hc2].
  apply andb_true_iff in Hc1. destruct Hc1 as [Ca Cb].
  apply andb_true_iff in Hc2. destruct Hc2 as [Cc Cd].
  unfold DEMManager.tile_overlaps. apply negb_true_iff.
  repeat (apply orb_false_iff; split).
  - destruct (PrimFloat.ltb (DEMTile.maxlat t) (DEMManager.q_minlat b)) eqn:E;
      [|reflexivity].
    pose proof (leb_ltb_trans _ _ _ Cb E) as F.
    rewrite (M1 (proj2 (ltb_not_nan _ _ E)) lat Hlat) in F. discriminate.
  - destruct (PrimFloat.ltb (DEMManager.q_maxlat b) (DEMTile.minlat t)) eqn:E;
      [|reflexivity].
    pose proof (ltb_leb_trans _ _ _ E Ca) as F.
    rewrite (M2 (proj1 (ltb_not_nan _ _ E)) lat Hlat) in F. discriminate.
  - destruct (PrimFloat.ltb (DEMTile.maxlon t) (DEMManager.q_minlon b)) eqn:E;
      [|reflexivity].
    pose proof (leb_ltb_trans _ _ _ Cd E) as F.
    rewrite (M3 (proj2 (ltb_not_nan _ _ E)) lon Hlon) in F. discriminate.
  - destruct (PrimFloat.ltb (DEMManager.q_maxlon b) (DEMTile.minlon t)) eqn:E;
      [|reflexivity].
    pose proof (ltb_leb_trans _ _ _ E Cc) as F.
    rewrite (M4 (proj1 (ltb_not_nan _ _ E)) lon Hlon) in F. discriminate.
Qed.

(** X3. When the footprint of a tile contains some point of the batch, the
    overlap test of [load_tiles_for_coords] between that tile and the box of
    the batch succeeds, whatever the other points of the batch are. *)
Theorem X3_tile_holding_a_batch_point_overlaps :
  forall (coords : list (float * float)) (b : DEMManager.bbox)
         (t : DEMTile.t) (lat lon : float),
    DEMManager.coords_bbox coords = Ok b ->
    In (lat, lon) coords ->
    DEMTile.bbox_contains t lat lon = true ->
    DEMManager.tile_overlaps t b = true.
Proof.
  intros coords b t lat lon Hb Hin Hc.
  eapply overlap_of_containing_tile; eassumption.
Qed.

Lemma X3_witness :
  DEMManager.tile_overlaps Fixture.ramp_tile Fixture.batch_box = true.
Proof.
  apply (X3_tile_holding_a_batch_point_overlaps Fixture.batch
           Fixture.batch_box Fixture.ramp_tile 46.5%float 8.5%float).
  - reflexivity.
  - left. reflexivity.
  - vm_compute. reflexivity.
Defined.

(** ** The constructor of a tile *)

Lemma result_map_ok_iff : forall (A B : Type) (f : A -> result B) (l : list A),
  (exists bs, result_map f l = Ok bs) <->
  (forall a, In a l -> exists b, f a = Ok b).
Proof.
  intros A B f l. induction l as [|a l IH]; simpl.
  - split; [intros _ a [] | intros _; now exists []].
  - split.
    + intros [bs H] x [<-|Hx].
      * destruct (f a) as [b|]; [now exists b | discriminate].
      * apply IH; [|assumption].
        destruct (f a); [|discriminate].
        destruct (result_map f l) as [bs'|]; [now exists bs' | discriminate].
    + intros H. destruct (H a (or_introl eq_refl)) as [b Hb]. rewrite Hb.
      destruct (proj2 IH (fun x Hx => H x (or_intror Hx))) as [bs Hbs].
      rewrite Hbs. now exists (b :: bs).
Qed.

Lemma result_map_length : forall (A B : Type) (f : A -> result B) l bs,
  result_map f l = Ok bs -> List.length bs = List.length l.
Proof.
  intros A B f l. induction l as [|a l IH]; simpl; intros bs H.
  - now injection H as <-.
  - destruct (f a); [|discriminate].
    destruct (result_map f l) as [bs'|]; [|discriminate].
    injection H as <-. simpl. now rewrite (IH bs' eq_refl).
Qed.

Lemma init_from_outcome : forall p d eps,
  (dataset_needs_transform d = false -> exists t, DEMTile.init_from p d eps = Ok t)
  /\ (dataset_needs_transform d = true ->
      ((exists t, DEMTile.init_from p d eps = Ok t) <->
       (forall c, In c (dataset_corners d) ->
          exists pt, proj_to_wgs84 d (fst c) (snd c) = Ok pt))).
Proof.
  intros p d eps. unfold DEMTile.init_from.
  fold (dataset_needs_transform d). fold (far_x d). fold (far_y d).
  fold (dataset_corners d).
  split; intros Hneed; rewrite Hneed.
  - simpl. eauto.
  - rewrite <- result_map_ok_iff. split.
    + intros [t H].
      destruct (result_map _ (dataset_corners d)) as [cw|]; [|discriminate].
      now exists cw.
    + intros [cw Hcw]. rewrite Hcw.
      pose proof (result_map_length _ _ _ _ _ Hcw) as Hlen.
      destruct cw as [|c1 cw]; [discriminate|]. simpl. eauto.
Qed.

Lemma init_from_fields : forall p d eps t,
  DEMTile.init_from p d eps = Ok t ->
  DEMTile.path t = p /\ DEMTile.ds t = d
  /\ DEMTile.gt t = GetGeoTransform d
  /\ DEMTile.rx t = RasterXSize d /\ DEMTile.ry t = RasterYSize d
  /\ DEMTile.nodata t = GetNoDataValue d
  /\ DEMTile.epsg t = authority_epsg d
  /\ DEMTile.need_transform t = dataset_needs_transform d
  /\ DEMTile.to_dem t
     = (if dataset_needs_transform d then Some (wgs84_to_proj d) else None).
Proof.
  intros p d eps t H. unfold DEMTile.init_from in H.
  fold (dataset_needs_transform d) in H.
  repeat match type of H with
         | match ?x with _ => _ end = _ => destruct x; try discriminate
         end;
    injection H as <-; simpl; repeat split.
Qed.

(** X4. [DEMTile(path)] hands the path to [gdal.Open] exactly once.  It
    returns a tile exactly when a dataset comes back and, if the dataset has
    an EPSG code other than 4326, all four grid corners can be reprojected;
    a dataset without EPSG code or in EPSG 4326 always gives a tile.  The
    tile carries the path, sizes, transform and nodata value of the dataset,
    and it holds a reprojection exactly when [need_transform] is set. *)
Theorem X4_tile_constructor_outcome :
  forall (gopen : string -> result (option Dataset)) (p : string)
         (eps : float) (log : list string),
    snd (DEMTile.init gopen p eps log) = log ++ [p]
    /\ ((exists t, fst (DEMTile.init gopen p eps log) = Ok t) <->
        exists d, gopen p = Ok (Some d)
                  /\ (dataset_needs_transform d = true ->
                      forall c, In c (dataset_corners d) ->
                        exists pt, proj_to_wgs84 d (fst c) (snd c) = Ok pt))
    /\ (forall t, fst (DEMTile.init gopen p eps log) = Ok t ->
          gopen p = Ok (Some (DEMTile.ds t))
          /\ DEMTile.path t = p
          /\ DEMTile.gt t = GetGeoTransform (DEMTile.ds t)
          /\ DEMTile.rx t = RasterXSize (DEMTile.ds t)
          /\ DEMTile.ry t = RasterYSize (DEMTile.ds t)
          /\ DEMTile.nodata t = GetNoDataValue (DEMTile.ds t)
          /\ (DEMTile.need_transform t = false <->
              DEMTile.epsg t = None \/ DEMTile.epsg t = Some 4326)
          /\ (DEMTile.need_transform t = true <-> DEMTile.to_dem t <> None)).
Proof.
  intros gopen p eps log. unfold DEMTile.init.
  destruct (gopen p) as [[d|]|ex] eqn:Hopen; simpl.
  - split; [reflexivity|].
    destruct (init_from_outcome p d eps) as [Hno Hyes]. split.
    + split.
      * intros Ht. exists d. split; [reflexivity|].
        intros Hneed. now apply Hyes.
      * intros (d' & E & H). injection E as <-.
        destruct (dataset_needs_transform d) eqn:Hneed; auto.
        apply Hyes; auto.
    + intros t Ht.
      destruct (init_from_fields _ _ _ _ Ht)
        as (F1 & F2 & F3 & F4 & F5 & F6 & F7 & F8 & F9).
      rewrite F2. repeat split; try assumption.
      * rewrite F8, F7. unfold dataset_needs_transform.
        destruct (authority_epsg d) as [c|]; [|auto].
        intros H. apply negb_false_iff, Z.eqb_eq in H. subst. auto.
      * rewrite F8, F7. unfold dataset_needs_transform.
        intros [H|H]; rewrite H; reflexivity.
      * rewrite F8, F9. intros ->. discriminate.
      * rewrite F8, F9. destruct (dataset_needs_transform d); congruence.
  - split; [reflexivity|]. split.
    + split; [intros [t H]; discriminate | intros (d & H & _); discriminate].
    + intros t H. discriminate.
  - split; [reflexivity|]. split.
    + split; [intros [t H]; discriminate | intros (d & H & _); discriminate].
    + intros t H. discriminate.
Qed.

(** ** The footprint of a tile *)

Lemma py_min_two : forall a b, py_min [a; b; a; b] = Ok (f_min a b).
Proof.
  intros a b. unfold f_min. simpl.
  destruct (PrimFloat.ltb b a) eqn:E.
  - now rewrite (ltb_asym _ _ E), ltb_irrefl.
  - now rewrite ltb_irrefl, E.
Qed.

Lemma py_max_two : forall a b, py_max [a; b; a; b] = Ok (f_max a b).
Proof.
  intros a b. unfold f_max. simpl.
  destruct (PrimFloat.ltb a b) eqn:E.
  - now rewrite (ltb_asym _ _ E), ltb_irrefl.
  - now rewrite ltb_irrefl, E.
Qed.

Lemma py_min_pairs : forall a b, py_min [a; a; b; b] = Ok (f_min a b).
Proof.
  intros a b. unfold f_min. simpl. rewrite ltb_irrefl.
  destruct (PrimFloat.ltb b a) eqn:E.
  - now rewrite ltb_irrefl.
  - now rewrite E.
Qed.

Lemma py_max_pairs : forall a b, py_max [a; a; b; b] = Ok (f_max a b).
Proof.
  intros a b. unfold f_max. simpl. rewrite ltb_irrefl.
  destruct (PrimFloat.ltb a b) eqn:E.
  - now rewrite ltb_irrefl.
  - now rewrite E.
Qed.

(** X5. For a tile that needs no reprojection the footprint is the box
    spanned by the origin corner [(x0, y0)] and the opposite corner
    [(x0 + rx*px_w, y0 + ry*px_h)], widened by [epsilon_deg] on each side,
    whatever the signs of the pixel sizes: the smaller of the two abscissas
    minus epsilon, the larger plus epsilon, and likewise for the ordinates. *)
Theorem X5_footprint_without_reprojection :
  forall (p : string) (d : Dataset) (eps : float) (t : DEMTile.t),
    DEMTile.init_from p d eps = Ok t ->
    dataset_needs_transform d = false ->
    DEMTile.minlon t
    = PrimFloat.sub (f_min (gt0 (GetGeoTransform d)) (far_x d)) eps
    /\ DEMTile.maxlon t
       = PrimFloat.add (f_max (gt0 (GetGeoTransform d)) (far_x d)) eps
    /\ DEMTile.minlat t
       = PrimFloat.sub (f_min (gt3 (GetGeoTransform d)) (far_y d)) eps
    /\ DEMTile.maxlat t
       = PrimFloat.add (f_max (gt3 (GetGeoTransform d)) (far_y d)) eps.
Proof.
  intros p d eps t H Hneed. unfold DEMTile.init_from in H.
  fold (dataset_needs_transform d) in H. rewrite Hneed in H.
  fold (far_x d) in H. fold (far_y d) in H.
  cbn [map fst snd] in H.
  rewrite py_min_two, py_max_two, py_min_pairs, py_max_pairs in H.
  injection H as <-. simpl. repeat split.
Qed.

Lemma X5_witness :
  DEMTile.minlon Fixture.ramp_tile
  = PrimFloat.sub 8%float DEMTile.default_epsilon_deg
  /\ DEMTile.maxlon Fixture.ramp_tile
     = PrimFloat.add 9%float DEMTile.default_epsilon_deg
  /\ DEMTile.minlat Fixture.ramp_tile
     = PrimFloat.sub 46%float DEMTile.default_epsilon_deg
  /\ DEMTile.maxlat Fixture.ramp_tile
     = PrimFloat.add 47%float DEMTile.default_epsilon_deg.
Proof.
  exact (X5_footprint_without_reprojection "dem/ramp.tif" Fixture.ramp_ds
           DEMTile.default_epsilon_deg Fixture.ramp_tile eq_refl eq_refl).
Defined.

(** ** The rotation terms of the geotransform *)

Lemma init_from_set_rotation : forall p d eps a b,
  match DEMTile.init_from p d eps,
        DEMTile.init_from p (set_rotation d a b) eps with
  | Ok t, Ok t' =>
      DEMTile.minlon t' = DEMTile.minlon t
      /\ DEMTile.maxlon t' = DEMTile.maxlon t
      /\ DEMTile.minlat t' = DEMTile.minlat t
      /\ DEMTile.maxlat t' = DEMTile.maxlat t
      /\ DEMTile.need_transform t' = DEMTile.need_transform t
      /\ DEMTile.to_dem t' = DEMTile.to_dem t
      /\ gt0 (DEMTile.gt t') = gt0 (DEMTile.gt t)
      /\ gt1 (DEMTile.gt t') = gt1 (DEMTile.gt t)
      /\ gt3 (DEMTile.gt t') = gt3 (DEMTile.gt t)
      /\ gt5 (DEMTile.gt t') = gt5 (DEMTile.gt t)
      /\ DEMTile.rx t' = DEMTile.rx t /\ DEMTile.ry t' = DEMTile.ry t
      /\ DEMTile.nodata t' = DEMTile.nodata t
      /\ ReadAsArray (DEMTile.ds t') = ReadAsArray (DEMTile.ds t)
  | Raise e, Raise e' => e = e'
  | _, _ => False
  end.
Proof.
  intros p d eps a b. unfold DEMTile.init_from, set_rotation. cbn [GetGeoTransform
    RasterXSize RasterYSize authority_epsg wgs84_to_proj proj_to_wgs84
    GetNoDataValue ReadAsArray gt0 gt1 gt2 gt3 gt4 gt5].
  destruct (match authority_epsg d with
            | Some c => negb (c =? 4326)
            | None => false
            end).
  - match goal with
    | |- context [result_map ?f ?l] => destruct (result_map f l) as [cw|ex]
    end; [|reflexivity].
    repeat match goal with
           | |- context [py_min ?l] => destruct (py_min l)
           | |- context [py_max ?l] => destruct (py_max l)
           end; try reflexivity; simpl; repeat split.
  - repeat match goal with
           | |- context [py_min ?l] => destruct (py_min l)
           | |- context [py_max ?l] => destruct (py_max l)
           end; try reflexivity; simpl; repeat split.
Qed.

(** X6. The rotation terms [rot_x] and [rot_y] of the geotransform are
    never used: replacing them by any other values changes neither whether
    the constructor raises, nor the footprint, nor the result of
    [bbox_contains] and [get_elevation] at any point. *)
Theorem X6_rotation_terms_are_ignored :
  forall (p : string) (d : Dataset) (eps rot_x rot_y : float),
    (forall e, DEMTile.init_from p d eps = Raise e <->
               DEMTile.init_from p (set_rotation d rot_x rot_y) eps = Raise e)
    /\ (forall t, DEMTile.init_from p d eps = Ok t ->
          exists t',
            DEMTile.init_from p (set_rotation d rot_x rot_y) eps = Ok t'
            /\ forall lat lon,
                 DEMTile.bbox_contains t' lat lon
                 = DEMTile.bbox_contains t lat lon
                 /\ DEMTile.get_elevation t' lat lon
                    = DEMTile.get_elevation t lat lon).
Proof.
  intros p d eps a b. pose proof (init_from_set_rotation p d eps a b) as H.
  destruct (DEMTile.init_from p d eps) as [t|e0];
    destruct (DEMTile.init_from p (set_rotation d a b) eps) as [t'|e1];
    try contradiction.
  - split; [intros e; split; discriminate|].
    intros t0 E. injection E as <-. exists t'. split; [reflexivity|].
    destruct H as (H1 & H2 & H3 & H4 & H5 & H6 & G0 & G1 & G3 & G5
                   & Hx & Hy & Hn & Hr).
    intros lat lon. split.
    + unfold DEMTile.bbox_contains. now rewrite H1, H2, H3, H4.
    + unfold DEMTile.get_elevation, DEMTile.pixel_index, DEMTile.pixel_f,
        DEMTile.native_xy, DEMTile.in_raster, DEMTile.is_nodata.
      now rewrite H5, H6, G0, G1, G3, G5, Hx, Hy, Hn, Hr.
  - subst e1. split; [intros e; split; auto|]. intros t E. discriminate.
Qed.

(** ** Which fine tiles are loaded, and in which order *)

Lemma init_pure : forall gopen p eps log,
  DEMTile.init gopen p eps log
  = (fst (DEMTile.init gopen p eps []), log ++ [p]).
Proof.
  intros gopen p eps log. unfold DEMTile.init.
  destruct (gopen p) as [[d|]|ex]; reflexivity.
Qed.

Lemma existsb_cell : forall key l,
  existsb (DEMManager.cell_eqb key) l = true <-> In key l.
Proof.
  intros key l. rewrite existsb_exists. split.
  - intros (k & Hk & E). apply cell_eqb_eq in E. now subst.
  - intros H. exists key. split; [assumption|]. now apply cell_eqb_eq.
Qed.

Lemma classify_keys : forall files d a d' a',
  DEMManager.classify files d a = Ok (d', a') ->
  map fst d' = map fst d ++ new_cells (map fst d) files.
Proof.
  induction files as [|p files IH]; intros d a d' a' H; simpl in H.
  - injection H as <- <-. simpl. now rewrite app_nil_r.
  - simpl.
    destruct (DEMManager._parse_swisstopo_name (name p)) as [[i|]|ex];
      [| |discriminate].
    + apply IH in H. rewrite H.
      destruct (existsb (DEMManager.cell_eqb (cell_of i)) (map fst d)) eqn:E.
      * apply existsb_cell in E. now rewrite setdefault_keys.
      * assert (Hout : ~ In (cell_of i) (map fst d)).
        { intros Hin. apply existsb_cell in Hin. congruence. }
        rewrite setdefault_absent by assumption.
        rewrite map_app. simpl. now rewrite <- app_assoc.
    + destruct (DEMManager._parse_aster_name (name p)); now apply IH in H.
Qed.

Lemma dict_finest_candidates : forall files d a,
  DEMManager.classify files [] [] = Ok (d, a) ->
  dict_finest d = fine_candidates files.
Proof.
  intros files d a H.
  pose proof (classify_keys _ _ _ _ _ H) as Hk. simpl in Hk.
  destruct (classify_groups _ _ _ H) as (_ & Hes & _).
  unfold fine_candidates, first_cells. rewrite <- Hk.
  unfold dict_finest. clear Hk H.
  induction d as [|[k es] d IH]; simpl; [reflexivity|].
  rewrite (Hes k es (or_introl eq_refl)) at 1.
  f_equal. apply IH. intros k' es' Hin. apply Hes. now right.
Qed.

Lemma select_finest_ok : forall w b d chosen log sel log',
  DEMManager.select_finest w b d chosen log = (Ok sel, log') ->
  sel = chosen ++ filter (fun p => match open_tile w (str p) with
                                   | Ok t => DEMManager.tile_overlaps t b
                                   | Raise _ => false
                                   end) (dict_finest d)
  /\ log' = log ++ map str (dict_finest d)
  /\ (forall p, In p (dict_finest d) -> exists t, open_tile w (str p) = Ok t).
Proof.
  intros w b d. induction d as [|[k es] d IH]; intros chosen log sel log' H.
  - simpl in H. injection H as <- <-. simpl. rewrite !app_nil_r.
    repeat split. intros p [].
  - simpl in H. unfold bind, lift in H.
    unfold dict_finest. simpl. fold (dict_finest d).
    destruct (DEMManager.finest_of es) as [q|ex]; [|discriminate].
    rewrite init_pure in H. fold (open_tile w (str q)) in H.
    destruct (open_tile w (str q)) as [t|ex] eqn:Ht; [|discriminate].
    apply IH in H. destruct H as (Hsel & Hlog & Hopen).
    simpl. rewrite Ht. split; [|split].
    + rewrite Hsel. destruct (DEMManager.tile_overlaps t b).
      * now rewrite <- app_assoc.
      * reflexivity.
    + rewrite Hlog, <- app_assoc. reflexivity.
    + intros p [<-|Hp]; [now exists t | now apply Hopen].
Qed.

Lemma mapM_init_ok : forall w (l : list Path) log ts log',
  mapM (fun q => DEMTile.init (gdal_Open w) (str q)
                   DEMTile.default_epsilon_deg) l log = (Ok ts, log') ->
  result_map (fun q => open_tile w (str q)) l = Ok ts
  /\ log' = log ++ map str l.
Proof.
  intros w l. induction l as [|q l IH]; intros log ts log' H.
  - simpl in H. injection H as <- <-. simpl. now rewrite app_nil_r.
  - simpl in H. unfold bind, ret in H. rewrite init_pure in H.
    fold (open_tile w (str q)) in H. simpl.
    destruct (open_tile w (str q)) as [t|ex]; [|discriminate].
    destruct (mapM _ l (log ++ [str q])) as [[ts'|ex] log1] eqn:Hrest;
      [|discriminate].
    apply IH in Hrest. destruct Hrest as [Hts Hlog].
    injection H as <- <-. rewrite Hts. split; [reflexivity|].
    rewrite Hlog, <- app_assoc. reflexivity.
Qed.

(** What a returning call has done, in terms of the listing. *)
Lemma load_ok_spec : forall w self coords self' ts log,
  DEMManager.load_tiles_for_coords w self coords [] = (Ok (self', ts), log) ->
  exists b,
    DEMManager.coords_bbox coords = Ok b
    /\ DEMManager.tiles self' = ts
    /\ (let files := DEMManager.tif_files w self in
        let chosen := match overlapping_fine w b files with
                      | [] => overlapping_coarse files b
                      | sel => sel
                      end in
        result_map (fun q => open_tile w (str q)) chosen = Ok ts
        /\ log = map str (fine_candidates files) ++ map str chosen
        /\ forall p, In p (fine_candidates files) ->
             exists t, open_tile w (str p) = Ok t).
Proof.
  intros w self coords self' ts log H.
  unfold DEMManager.load_tiles_for_coords, bind, lift, ret in H.
  destruct (DEMManager.coords_bbox coords) as [b|]; [|discriminate].
  exists b. split; [reflexivity|].
  destruct (DEMManager.classify (DEMManager.tif_files w self) [] [])
    as [[d a]|] eqn:Hcl; [|discriminate].
  simpl fst in H. simpl snd in H.
  destruct (DEMManager.select_finest w b d [] []) as [[sel|] log0] eqn:Hsel;
    [|discriminate].
  destruct (select_finest_ok _ _ _ _ _ _ _ Hsel) as (Esel & Elog & Hopen).
  simpl in Esel, Elog.
  rewrite (dict_finest_candidates _ _ _ Hcl) in Esel, Elog, Hopen.
  fold (overlapping_fine w b (DEMManager.tif_files w self)) in Esel.
  destruct (classify_groups _ _ _ Hcl) as (_ & _ & Ha).
  destruct (mapM _ _ log0) as [[ts'|] log1] eqn:Hmap; [|discriminate].
  apply mapM_init_ok in Hmap. destruct Hmap as [Hts Hlog].
  injection H as <- <- <-. split; [reflexivity|].
  cbv zeta. rewrite <- Esel.
  destruct sel as [|q0 rest].
  - rewrite Ha in Hts, Hlog.
    split; [exact Hts|]. split; [|exact Hopen]. now rewrite Hlog, Elog.
  - split; [exact Hts|]. split; [|exact Hopen]. now rewrite Hlog, Elog.
Qed.

Lemma new_cells_covers : forall files seen p i,
  In p files -> fine p i ->
  In (cell_of i) seen \/ In (cell_of i) (new_cells seen files).
Proof.
  induction files as [|q files IH]; intros seen p i Hin Hp; [destruct Hin|].
  simpl. destruct Hin as [->|Hin].
  - unfold fine in Hp. rewrite Hp.
    destruct (existsb (DEMManager.cell_eqb (cell_of i)) seen) eqn:E.
    + left. now apply existsb_cell.
    + right. now left.
  - destruct (DEMManager._parse_swisstopo_name (name q)) as [[j|]|ex];
      try (now apply IH with (p := p)).
    destruct (existsb (DEMManager.cell_eqb (cell_of j)) seen) eqn:E.
    + now apply IH with (p := p).
    + destruct (IH (seen ++ [cell_of j]) p i Hin Hp) as [H|H].
      * apply in_app_or in H. destruct H as [H|[H|[]]]; [now left|].
        right. left. exact H.
      * right. now right.
Qed.

Lemma fine_candidates_in : forall files p,
  In p (fine_candidates files) <->
  In p files
  /\ exists i, fine p i
               /\ DEMManager.finest_of (group_entries files (cell_of i)) = Ok p.
Proof.
  intros files p. unfold fine_candidates. rewrite in_flat_map. split.
  - intros (k & Hk & Hp).
    destruct (DEMManager.finest_of (group_entries files k)) as [q|ex] eqn:Hq;
      [|destruct Hp].
    destruct Hp as [<-|[]].
    destruct (finest_of_in _ _ Hq) as [r Hr].
    apply group_entries_in in Hr. destruct Hr as [Hin (i & Hi & Hc & _)].
    split; [assumption|]. exists i. split; [assumption|]. now rewrite Hc.
  - intros [Hin (i & Hi & Hq)]. exists (cell_of i). split.
    + destruct (new_cells_covers files [] p i Hin Hi) as [[]|H]. exact H.
    + rewrite Hq. now left.
Qed.

Lemma open_tile_path : forall w p t, open_tile w p = Ok t -> DEMTile.path t = p.
Proof.
  intros w p t H. unfold open_tile in H.
  destruct (DEMTile.init (gdal_Open w) p DEMTile.default_epsilon_deg [])
    as [r log] eqn:E. simpl in H. subst r.
  eapply init_ok_path, E.
Qed.

Lemma result_map_in : forall (A B : Type) (f : A -> result B) l bs,
  result_map f l = Ok bs ->
  (forall a, In a l -> exists b, f a = Ok b /\ In b bs)
  /\ (forall b, In b bs -> exists a, In a l /\ f a = Ok b).
Proof.
  intros A B f l. induction l as [|a l IH]; simpl; intros bs H.
  - injection H as <-. split; [intros a [] | intros b []].
  - destruct (f a) as [b|] eqn:Ha; [|discriminate].
    destruct (result_map f l) as [bs'|]; [|discriminate].
    injection H as <-. destruct (IH bs' eq_refl) as [H1 H2]. split.
    + intros x [<-|Hx].
      * exists b. split; [assumption | now left].
      * destruct (H1 x Hx) as (y & Hy & Hin). exists y. split; [assumption|].
        now right.
    + intros y [<-|Hy].
      * exists a. split; [now left | assumption].
      * destruct (H2 y Hy) as (x & Hx & Hfx). exists x.
        split; [now right | assumption].
Qed.

Lemma result_map_paths : forall w l ts,
  result_map (fun q => open_tile w (str q)) l = Ok ts ->
  map DEMTile.path ts = map str l.
Proof.
  intros w l. induction l as [|q l IH]; simpl; intros ts H.
  - now injection H as <-.
  - destruct (open_tile w (str q)) as [t|] eqn:Ht; [|discriminate].
    destruct (result_map _ l) as [ts'|]; [|discriminate].
    injection H as <-. simpl.
    now rewrite (open_tile_path _ _ _ Ht), (IH ts' eq_refl).
Qed.

(** X7. When [load_tiles_for_coords] returns, the tiles it loads are
    determined by the listing as follows.  The fine candidates are the
    finest file of every cell, in the order in which the cells first appear
    in the listing; those whose footprint overlaps the box of the batch are
    loaded, in that order; if there is none, the overlapping ASTER files are
    loaded instead.  A fine-grid file is thus loaded exactly when it is the
    file chosen for its cell and its footprint overlaps the box. *)
Theorem X7_loaded_tiles_from_listing :
  forall (w : World) (self self' : DEMManager.t)
         (coords : list (float * float)) (b : DEMManager.bbox)
         (ts : list DEMTile.t) (log : list string),
    DEMManager.load_tiles_for_coords w self coords [] = (Ok (self', ts), log) ->
    DEMManager.coords_bbox coords = Ok b ->
    map DEMTile.path ts
    = map str (match overlapping_fine w b (DEMManager.tif_files w self) with
               | [] => overlapping_coarse (DEMManager.tif_files w self) b
               | sel => sel
               end)
    /\ (forall p,
          In p (overlapping_fine w b (DEMManager.tif_files w self)) <->
          In p (DEMManager.tif_files w self)
          /\ exists i t,
               fine p i
               /\ DEMManager.finest_of
                    (group_entries (DEMManager.tif_files w self) (cell_of i))
                  = Ok p
               /\ open_tile w (str p) = Ok t
               /\ DEMManager.tile_overlaps t b = true).
Proof.
  intros w self self' coords b ts log Hload Hb.
  destruct (load_ok_spec _ _ _ _ _ _ Hload) as (b' & Hb' & _ & Hts & _ & _).
  rewrite Hb in Hb'. injection Hb' as <-. split.
  - exact (result_map_paths w _ _ Hts).
  - intros p. unfold overlapping_fine. rewrite filter_In, fine_candidates_in.
    split.
    + intros [[Hin (i & Hi & Hq)] Ho].
      split; [assumption|].
      destruct (open_tile w (str p)) as [t|]; [|discriminate].
      now exists i, t.
    + intros [Hin (i & t & Hi & Hq & Ht & Ho)]. split.
      * split; [assumption|]. now exists i.
      * now rewrite Ht.
Qed.

Lemma scenario_load_result :
  DEMManager.load_tiles_for_coords Fixture.scenario_world Fixture.manager
    Fixture.batch []
  = (Ok (scenario_loaded, [scenario_tile]),
     ["dem/grid_12-07_0.5_1_1.tif"; "dem/grid_12-07_0.5_1_1.tif"]%string).
Proof. vm_compute. reflexivity. Qed.

Lemma X7_witness :
  map DEMTile.path [scenario_tile] = map str [Fixture.finer_file].
Proof.
  exact (proj1 (X7_loaded_tiles_from_listing Fixture.scenario_world
                  Fixture.manager scenario_loaded Fixture.batch
                  Fixture.batch_box [scenario_tile] _
                  scenario_load_result eq_refl)).
Defined.

Lemma covering_fine_tile_in_load :
  forall (w : World) (self self' : DEMManager.t)
         (coords : list (float * float)) (ts : list DEMTile.t)
         (log : list string) (p : Path) (i : DEMManager.swiss_info)
         (t : DEMTile.t) (lat lon : float),
    DEMManager.load_tiles_for_coords w self coords [] = (Ok (self', ts), log) ->
    In p (DEMManager.tif_files w self) ->
    fine p i ->
    DEMManager.finest_of
      (group_entries (DEMManager.tif_files w self) (cell_of i)) = Ok p ->
    open_tile w (str p) = Ok t ->
    In (lat, lon) coords ->
    DEMTile.bbox_contains t lat lon = true ->
    In t ts /\ In t (DEMManager.tiles self').
Proof.
  intros w self self' coords ts log p i t lat lon Hload Hp Hi Hq Ht Hin Hc.
  destruct (load_ok_spec _ _ _ _ _ _ Hload) as (b & Hb & Htiles & Hts & _ & _).
  cbv zeta in Hts.
  pose proof (overlap_of_containing_tile _ _ _ _ _ Hb Hin Hc) as Ho.
  assert (Hsel : In p (overlapping_fine w b (DEMManager.tif_files w self))).
  { unfold overlapping_fine. apply filter_In. split.
    - apply fine_candidates_in. split; [assumption|]. now exists i.
    - now rewrite Ht. }
  destruct (overlapping_fine w b (DEMManager.tif_files w self)) as [|q0 rest];
    [destruct Hsel|].
  destruct (proj1 (result_map_in _ _ _ _ _ Hts) p Hsel) as (t' & Ht' & Hin').
  rewrite Ht in Ht'. injection Ht' as <-. rewrite Htiles. now split.
Qed.

(** X8. When [load_tiles_for_coords] returns, no fine tile that covers a
    point of the batch is missing: if a fine-grid file is the one chosen for
    its cell and the footprint of its tile contains some point of the
    batch, that tile is among the loaded tiles. *)
Theorem X8_covering_fine_tile_is_loaded :
  forall (w : World) (self self' : DEMManager.t)
         (coords : list (float * float)) (ts : list DEMTile.t)
         (log : list string) (p : Path) (i : DEMManager.swiss_info)
         (t : DEMTile.t) (lat lon : float),
    DEMManager.load_tiles_for_coords w self coords [] = (Ok (self', ts), log) ->
    In p (DEMManager.tif_files w self) ->
    fine p i ->
    DEMManager.finest_of
      (group_entries (DEMManager.tif_files w self) (cell_of i)) = Ok p ->
    open_tile w (str p) = Ok t ->
    In (lat, lon) coords ->
    DEMTile.bbox_contains t lat lon = true ->
    In t ts /\ In t (DEMManager.tiles self').
Proof.
  intros w self self' coords ts log p i t lat lon Hload Hp Hi Hq Ht Hin Hc.
  eapply covering_fine_tile_in_load; eassumption.
Qed.

Lemma X8_witness :
  In scenario_tile [scenario_tile]
  /\ In scenario_tile (DEMManager.tiles scenario_loaded).
Proof.
  apply (X8_covering_fine_tile_is_loaded Fixture.scenario_world
           Fixture.manager scenario_loaded Fixture.batch [scenario_tile] _
           Fixture.finer_file
           {| DEMManager.ix := 12; DEMManager.iy := 7;
              DEMManager.res := 0.5%float |}
           scenario_tile 46.5%float 8.5%float scenario_load_result).
  - vm_compute. right. left. reflexivity.
  - vm_compute. reflexivity.
  - vm_compute. reflexivity.
  - vm_compute. reflexivity.
  - left. reflexivity.
  - vm_compute. reflexivity.
Defined.

(** ** The files a returning call opens *)

(** X9. When [load_tiles_for_coords] returns, the paths it has handed to
    [gdal.Open] are, in this order: the finest file of every cell of the
    listing, once each (for its footprint, whether or not it overlaps the
    batch), and then the path of every loaded tile.  So the file of a
    loaded fine tile is opened twice, and no other file is opened. *)
Theorem X9_files_opened_by_a_load :
  forall (w : World) (self self' : DEMManager.t)
         (coords : list (float * float)) (ts : list DEMTile.t)
         (log : list string),
    DEMManager.load_tiles_for_coords w self coords [] = (Ok (self', ts), log) ->
    log = map str (fine_candidates (DEMManager.tif_files w self))
          ++ map DEMTile.path ts
    /\ (forall p, In p (fine_candidates (DEMManager.tif_files w self)) <->
          In p (DEMManager.tif_files w self)
          /\ exists i,
               fine p i
               /\ DEMManager.finest_of
                    (group_entries (DEMManager.tif_files w self) (cell_of i))
                  = Ok p).
Proof.
  intros w self self' coords ts log Hload.
  destruct (load_ok_spec _ _ _ _ _ _ Hload) as (b & Hb & _ & Hts & Hlog & _).
  cbv zeta in Hts, Hlog. split.
  - rewrite Hlog. f_equal. symmetry. exact (result_map_paths w _ _ Hts).
  - apply fine_candidates_in.
Qed.

Lemma X9_witness :
  ["dem/grid_12-07_0.5_1_1.tif"; "dem/grid_12-07_0.5_1_1.tif"]%string
  = map str (fine_candidates
               (DEMManager.tif_files Fixture.scenario_world Fixture.manager))
    ++ map DEMTile.path [scenario_tile].
Proof.
  exact (proj1 (X9_files_opened_by_a_load Fixture.scenario_world
                  Fixture.manager scenario_loaded Fixture.batch
                  [scenario_tile] _ scenario_load_result)).
Defined.

(** ** One file for each cell *)

Lemma dict_finest_items : forall (d : DEMManager.swiss_dict),
  (forall k es, In (k, es) d -> es <> []) ->
  map (fun ke => DEMManager.finest_of (snd ke)) d = map Ok (dict_finest d).
Proof.
  induction d as [|[k es] d IH]; intros Hne; [reflexivity|].
  unfold dict_finest. cbn [flat_map map snd].
  destruct (finest_of_some es) as [q Hq].
  { apply (Hne k). now left. }
  rewrite Hq. cbn [app map]. f_equal.
  apply IH. intros k' es' H. apply (Hne k'). now right.
Qed.

(** C2. The first loop files every fine-grid file under its cell, one
    dictionary item per cell.  From each item the second loop takes one
    file, [entries[0]] after the sort: a fine-grid file of that cell such
    that no file of the cell has a strictly smaller resolution.  When the
    call returns, the files handed to [gdal.Open] are, item after item, that
    file of each cell, followed by the files of the loaded tiles.  Whether
    the call returns or raises, a fine-grid file that was opened or loaded
    is the file taken from its cell, and no file of its cell is strictly
    finer; so a fine-grid file that has a strictly finer file in its cell
    is never handed to [gdal.Open] and is not among the tiles the call
    returns. *)
Theorem C2_finest_file_per_cell :
  forall (w : World) (self : DEMManager.t) (coords : list (float * float))
         (cl : DEMManager.swiss_dict * list (DEMManager.aster_info * Path)),
    DEMManager.classify (DEMManager.tif_files w self) [] [] = Ok cl ->
    NoDup (map fst (fst cl))
    /\ (forall p j, In p (DEMManager.tif_files w self) -> fine p j ->
          exists es, In (cell_of j, es) (fst cl))
    /\ (forall k es, In (k, es) (fst cl) ->
          es = group_entries (DEMManager.tif_files w self) k
          /\ exists q i,
               DEMManager.finest_of es = Ok q
               /\ In q (DEMManager.tif_files w self)
               /\ fine q i /\ cell_of i = k
               /\ forall p j, In p (DEMManager.tif_files w self) ->
                    fine p j -> cell_of j = k ->
                    PrimFloat.ltb (DEMManager.res j) (DEMManager.res i) = false)
    /\ (forall self' ts log,
          DEMManager.load_tiles_for_coords w self coords []
          = (Ok (self', ts), log) ->
          exists qs,
            map (fun ke => DEMManager.finest_of (snd ke)) (fst cl) = map Ok qs
            /\ log = map str qs ++ map DEMTile.path ts)
    /\ (forall r log,
          DEMManager.load_tiles_for_coords w self coords [] = (r, log) ->
          forall p j,
            In p (DEMManager.tif_files w self) -> fine p j ->
            (In (str p) log
             \/ exists self' ts,
                  r = Ok (self', ts) /\ In (str p) (map DEMTile.path ts)) ->
            DEMManager.finest_of
              (group_entries (DEMManager.tif_files w self) (cell_of j))
            = Ok p
            /\ forall g i, In g (DEMManager.tif_files w self) -> fine g i ->
                 cell_of i = cell_of j ->
                 PrimFloat.ltb (DEMManager.res i) (DEMManager.res j) = false)
    /\ (forall r log,
          DEMManager.load_tiles_for_coords w self coords [] = (r, log) ->
          forall p j g i,
            In p (DEMManager.tif_files w self) -> fine p j ->
            In g (DEMManager.tif_files w self) -> fine g i ->
            cell_of i = cell_of j ->
            PrimFloat.ltb (DEMManager.res i) (DEMManager.res j) = true ->
            ~ In (str p) log
            /\ forall self' ts, r = Ok (self', ts) ->
                 ~ In (str p) (map DEMTile.path ts)).
Proof.
  intros w self coords [d a] Hcl. simpl fst.
  set (files := DEMManager.tif_files w self) in *.
  destruct (classify_groups _ _ _ Hcl) as (Hnd & Hes & Ha).
  assert (Hne : forall k es, In (k, es) d -> es <> []).
  { intros k es Hin. eapply classify_nonempty; [|exact Hcl|exact Hin].
    intros ? ? []. }
  assert (Hfinest : forall k es q,
            In (k, es) d -> DEMManager.finest_of es = Ok q ->
            In q files
            /\ exists i, fine q i /\ cell_of i = k
                 /\ forall p j, In p files -> fine p j -> cell_of j = k ->
                      PrimFloat.ltb (DEMManager.res j) (DEMManager.res i) = false).
  { intros k es q Hin Hq. pose proof (Hes _ _ Hin) as E.
    destruct (finest_of_minimal es q) as (r & Hr & Hmin); [|assumption|].
    { intros e He. rewrite E in He. eapply group_entries_not_nan, He. }
    pose proof Hr as Hr'. rewrite E in Hr'. apply group_entries_in in Hr'.
    destruct Hr' as [Hqf (i & Hi & Hk & ->)].
    split; [assumption|]. exists i. repeat split; try assumption.
    intros p j Hp Hj Hjk.
    apply (Hmin (DEMManager.res j, p)). rewrite E.
    apply group_entries_in. split; [assumption|]. now exists j. }
  assert (Htaken : forall r log s p j,
            DEMManager.load_tiles_for_coords w self coords [] = (r, log) ->
            (In s log \/ exists self' ts,
                            r = Ok (self', ts) /\ In s (map DEMTile.path ts)) ->
            s = str p -> In p files -> fine p j ->
            exists es i,
              In (cell_of j, es) d /\ DEMManager.finest_of es = Ok p
              /\ fine p i
              /\ forall g i', In g files -> fine g i' -> cell_of i' = cell_of j ->
                   PrimFloat.ltb (DEMManager.res i') (DEMManager.res i) = false).
  { intros r log s p j Hload Hs E Hp Hj. subst s.
    destruct (load_opens _ _ _ _ _ _ _ Hcl Hload _ Hs)
      as [(k & es & q & H1 & H2 & H3)|(i' & q & H1 & H2)].
    - destruct (Hfinest k es q H1 H2) as [Hqf (i' & Hi' & Hk & Hmin)].
      assert (p = q) as <-.
      { apply str_inj; [|assumption]. unfold files in *.
        now rewrite (tif_files_folder _ _ _ Hp), (tif_files_folder _ _ _ Hqf). }
      rewrite (fine_functional _ _ _ Hi' Hj) in *. subst k.
      exists es, j. repeat split; assumption.
    - exfalso. rewrite Ha in H1. apply coarse_entries_in in H1.
      destruct H1 as [Hqf Hc].
      assert (p = q) as <-.
      { apply str_inj; [|assumption]. unfold files in *.
        now rewrite (tif_files_folder _ _ _ Hp), (tif_files_folder _ _ _ Hqf). }
      exact (fine_not_coarse _ _ _ Hj Hc). }
  split; [assumption|]. split; [|split; [|split; [|split]]].
  - intros p j Hp Hj. eapply classify_covers; eassumption.
  - intros k es Hin. split; [now apply Hes|].
    destruct (finest_of_some es (Hne k es Hin)) as [q Hq].
    destruct (Hfinest k es q Hin Hq) as [Hqf (i & Hi & Hk & Hmin)].
    exists q, i. repeat split; assumption.
  - intros self' ts log Hload. exists (dict_finest d).
    destruct (load_ok_spec _ _ _ _ _ _ Hload) as (b & _ & _ & Hts & Hlog & _).
    cbv zeta in Hts, Hlog. fold files in Hts, Hlog.
    split; [now apply dict_finest_items|].
    rewrite Hlog, (dict_finest_candidates _ _ _ Hcl). f_equal.
    symmetry. exact (result_map_paths w _ _ Hts).
  - intros r log Hload p j Hp Hj Hs.
    destruct (Htaken _ _ _ p j Hload Hs eq_refl Hp Hj)
      as (es & i & Hin & Hq & Hi & Hmin).
    rewrite (fine_functional _ _ _ Hi Hj) in Hmin.
    split; [now rewrite <- (Hes _ _ Hin) | exact Hmin].
  - intros r log Hload p j g i Hp Hj Hg Hi Hcell Hlt.
    assert (Hnot : (In (str p) log
                    \/ exists self' ts,
                         r = Ok (self', ts)
                         /\ In (str p) (map DEMTile.path ts)) -> False).
    { intros Hs.
      destruct (Htaken _ _ _ p j Hload Hs eq_refl Hp Hj)
        as (es & i0 & _ & _ & Hi0 & Hmin).
      rewrite (fine_functional _ _ _ Hi0 Hj) in Hmin.
      rewrite (Hmin g i Hg Hi Hcell) in Hlt. discriminate. }
    split.
    + intros Hin. apply Hnot. now left.
    + intros self' ts -> Hin. apply Hnot. right. now exists self', ts.
Qed.

Lemma C2_witness :
  (exists qs,
      map (fun ke => DEMManager.finest_of (snd ke))
          (fst Fixture.scenario_classified) = map Ok qs
      /\ ["dem/grid_12-07_0.5_1_1.tif"; "dem/grid_12-07_0.5_1_1.tif"]%string
         = map str qs ++ map DEMTile.path [scenario_tile])
  /\ DEMManager.finest_of
       (group_entries
          (DEMManager.tif_files Fixture.scenario_world Fixture.manager) (12, 7))
     = Ok Fixture.finer_file
  /\ ~ In (str Fixture.coarser_file)
          ["dem/grid_12-07_0.5_1_1.tif"; "dem/grid_12-07_0.5_1_1.tif"]%string.
Proof.
  destruct (C2_finest_file_per_cell Fixture.scenario_world Fixture.manager
              Fixture.batch Fixture.scenario_classified eq_refl)
    as (_ & _ & _ & Hret & Htaken & Hnever).
  destruct (Hret _ _ _ scenario_load_result) as (qs & Hqs & Hlog).
  split; [exists qs; now split|]. split.
  - apply (Htaken _ _ scenario_load_result Fixture.finer_file
             {| DEMManager.ix := 12; DEMManager.iy := 7;
                DEMManager.res := 0.5%float |}).
    + vm_compute. right. left. reflexivity.
    + vm_compute. reflexivity.
    + left. vm_compute. left. reflexivity.
  - refine (proj1 (Hnever _ _ scenario_load_result
                     Fixture.coarser_file
                     {| DEMManager.ix := 12; DEMManager.iy := 7;
                        DEMManager.res := 2%float |}
                     Fixture.finer_file
                     {| DEMManager.ix := 12; DEMManager.iy := 7;
                        DEMManager.res := 0.5%float |}
                     _ _ _ _ _ _)).
    + vm_compute. left. reflexivity.
    + vm_compute. reflexivity.
    + vm_compute. right. left. reflexivity.
    + vm_compute. reflexivity.
    + reflexivity.
    + vm_compute. reflexivity.
Defined.

(** ** The matcher and the groups it records *)

Lemma firstn_prefix : forall (A : Type) (s1 s2 : list A),
  firstn (List.length (s1 ++ s2) - List.length s2) (s1 ++ s2) = s1.
Proof.
  intros A s1 s2. rewrite length_app.
  replace (List.length s1 + List.length s2 - List.length s2)%nat
    with (List.length s1 + 0)%nat by lia.
  rewrite firstn_app_2. simpl. apply app_nil_r.
Qed.

Lemma run_sound_g : forall (R : Type) r s g (k : chars -> groups -> option R) res,
  run R r s g k = Some res ->
  exists s1 s2 g', s = s1 ++ s2 /\ matches_g r s1 s2 g g' /\ k s2 g' = Some res.
Proof.
  intros R r. induction r as [|c|p|p|a IHa b IHb|n a IHa|];
    intros s g k res H; simpl in H.
  - now exists [], s, g.
  - destruct s as [|x s]; [discriminate|].
    destruct (Ascii.eqb x c) eqn:E; [|discriminate].
    apply Ascii.eqb_eq in E. subst x. now exists [c], s, g.
  - apply lazy_star_sound in H. destruct H as (s1 & s2 & -> & H1 & H2).
    now exists s1, s2, g.
  - unfold greedy_plus in H. destruct s as [|c s]; [discriminate|].
    destruct (p c) eqn:Hc; [|discriminate].
    apply greedy_star_sound in H. destruct H as (s1 & s2 & -> & H1 & H2).
    exists (c :: s1), s2, g. simpl. rewrite Hc.
    repeat split; try assumption. discriminate.
  - apply IHa in H. destruct H as (s1 & s2 & g1 & -> & Ha & H).
    apply IHb in H. destruct H as (t1 & t2 & g2 & -> & Hb & H).
    exists (s1 ++ t1), t2, g2. rewrite app_assoc.
    repeat split; try assumption. simpl. now exists s1, t1, g1.
  - apply IHa in H. destruct H as (s1 & s2 & g1 & -> & Ha & H).
    rewrite firstn_prefix in H.
    exists s1, s2, (set_group n s1 g1). repeat split; try assumption.
    simpl. now exists g1.
  - destruct s as [|c [|c' s]].
    + exists [], [], g. simpl. tauto.
    + destruct (Ascii.eqb c newline) eqn:E; [|discriminate].
      apply Ascii.eqb_eq in E. subst c. exists [], [newline], g. simpl. tauto.
    + discriminate.
Qed.

Lemma lazy_star_complete : forall (R : Type) p s rest (k : chars -> option R) res,
  forallb p s = true -> k rest = Some res ->
  exists res', lazy_star R p (s ++ rest) k = Some res'.
Proof.
  intros R p s rest k res. induction s as [|c s IH]; simpl; intros Hp Hk.
  - destruct rest; simpl; rewrite Hk; eauto.
  - apply andb_true_iff in Hp. destruct Hp as [Hc Hs].
    destruct (k (c :: s ++ rest)); [eauto|]. rewrite Hc. now apply IH.
Qed.

Lemma greedy_star_complete : forall (R : Type) p s rest (k : chars -> option R) res,
  forallb p s = true -> k rest = Some res ->
  exists res', greedy_star R p (s ++ rest) k = Some res'.
Proof.
  intros R p s rest k res. induction s as [|c s IH]; simpl; intros Hp Hk.
  - destruct rest as [|c r]; simpl; [eauto|].
    destruct (p c); [|eauto].
    destruct (greedy_star R p r k); eauto.
  - apply andb_true_iff in Hp. destruct Hp as [Hc Hs]. rewrite Hc.
    destruct (IH Hs Hk) as [res' H]. rewrite H. eauto.
Qed.

Lemma run_complete : forall (R : Type) r s rest g g'
    (k : chars -> groups -> option R) res,
  matches_g r s rest g g' -> k rest g' = Some res ->
  exists res', run R r (s ++ rest) g k = Some res'.
Proof.
  intros R r. induction r as [|c|p|p|a IHa b IHb|n a IHa|];
    intros s rest g g' k res H Hk; simpl in H.
  - destruct H as [-> ->]. simpl. eauto.
  - destruct H as [-> ->]. simpl. rewrite Ascii.eqb_refl. eauto.
  - destruct H as [Hp ->]. simpl.
    eapply lazy_star_complete with (k := fun s' => k s' g); eassumption.
  - destruct H as [[Hne Hp] ->]. simpl. unfold greedy_plus.
    destruct s as [|c s]; [contradiction|]. simpl in Hp.
    apply andb_true_iff in Hp. destruct Hp as [Hc Hs]. simpl. rewrite Hc.
    eapply greedy_star_complete with (k := fun s' => k s' g); eassumption.
  - destruct H as (s1 & s2 & g1 & -> & Ha & Hb). simpl.
    destruct (IHb _ _ _ _ _ _ Hb Hk) as [res1 H1].
    rewrite <- app_assoc.
    eapply IHa; [exact Ha|]. exact H1.
  - destruct H as (g1 & Ha & ->). simpl.
    eapply IHa; [exact Ha|]. rewrite firstn_prefix. exact Hk.
  - destruct H as [[-> Hrest] ->]. simpl.
    destruct Hrest as [->| ->]; simpl; eauto.
Qed.

Lemma matches_g_lit : forall (txt : string) s rest g g',
  matches_g (lit txt) s rest g g' <-> s = list_ascii_of_string txt /\ g' = g.
Proof.
  induction txt as [|c txt IH]; intros s rest g g'.
  - simpl. tauto.
  - change (lit (String c txt)) with (Seq (Chr c) (lit txt)).
    cbn [matches_g list_ascii_of_string]. split.
    + intros (s1 & s2 & g1 & -> & [-> ->] & H). apply IH in H.
      destruct H as [-> ->]. now split.
    + intros [-> ->]. exists [c], (list_ascii_of_string txt), g.
      repeat split. apply IH. now split.
Qed.

Lemma digits_split_unique : forall (v v' : chars) c c' r r',
  forallb is_digit v = true -> forallb is_digit v' = true ->
  is_digit c = false -> is_digit c' = false ->
  v ++ c :: r = v' ++ c' :: r' -> v = v' /\ c :: r = c' :: r'.
Proof.
  induction v as [|x v IH]; intros [|x' v'] c c' r r' Hv Hv' Hc Hc' E;
    simpl in *.
  - now split.
  - injection E as -> _. apply andb_true_iff in Hv'. destruct Hv'. congruence.
  - injection E as -> _. apply andb_true_iff in Hv. destruct Hv. congruence.
  - injection E as -> E. apply andb_true_iff in Hv, Hv'.
    destruct (IH v' c c' r r') as [-> H]; tauto.
Qed.

(** The texts matched by the ASTER expression, with the groups recorded. *)
Lemma aster_re_matches : forall s rest g',
  matches_g aster_re s rest no_groups g' <->
  exists v la lo,
    digits v /\ digits la /\ digits lo
    /\ s = list_ascii_of_string "ASTGTMV" ++ v ++ list_ascii_of_string "_N"
           ++ la ++ list_ascii_of_string "E" ++ lo
           ++ list_ascii_of_string "_dem.tif"
    /\ (rest = [] \/ rest = [newline])
    /\ g' = set_group 2 lo (set_group 1 la no_groups).
Proof.
  intros s rest g'.
  change aster_re with
    (Seq (lit "ASTGTMV")
       (Seq (Plus is_digit)
          (Seq (lit "_N")
             (Seq (Grp 1 (Plus is_digit))
                (Seq (Chr "E")
                   (Seq (Grp 2 (Plus is_digit))
                      (Seq (lit "_dem.tif") (Seq Eos Eps)))))))).
  cbn [matches_g]. split.
  - intros (s1 & r1 & g1 & -> & H1 & s2 & r2 & g2 & -> & [Hv ->]
            & s3 & r3 & g3 & -> & H3 & s4 & r4 & g4 & -> & (g4' & [Hla ->] & ->)
            & s5 & r5 & g5 & -> & [-> ->] & s6 & r6 & g6 & ->
            & (g6' & [Hlo ->] & ->) & s7 & r7 & g7 & -> & H7
            & s8 & r8 & g8 & -> & [[-> Hrest] ->] & [-> ->]).
    apply matches_g_lit in H1, H3, H7.
    destruct H1 as [-> ->]. destruct H3 as [-> ->]. destruct H7 as [-> ->].
    exists s2, s4, s6. repeat split; try apply Hv; try apply Hla; try apply Hlo;
      try assumption.
  - intros (v & la & lo & Hv & Hla & Hlo & -> & Hrest & ->).
    eexists _, _, _. split; [reflexivity|]. split; [now apply matches_g_lit|].
    exists v. eexists _, _. split; [reflexivity|]. split; [now split|].
    eexists _, _, _. split; [reflexivity|]. split; [now apply matches_g_lit|].
    exists la. eexists _, _. split; [reflexivity|].
    split; [exists no_groups; now split|].
    eexists _, _, _. split; [reflexivity|]. split; [now split|].
    exists lo. eexists _, _. split; [reflexivity|].
    split; [eexists; split; [now split|reflexivity]|].
    exists (list_ascii_of_string "_dem.tif"), [],
      (set_group 2 lo (set_group 1 la no_groups)).
    split; [rewrite app_nil_r; reflexivity|].
    split; [now apply matches_g_lit|].
    exists [], [], (set_group 2 lo (set_group 1 la no_groups)).
    repeat split. simpl. exact Hrest.
Qed.

Lemma aster_shape_unique : forall v la lo r v' la' lo' r',
  digits v -> digits la -> digits lo -> digits v' -> digits la' -> digits lo' ->
  list_ascii_of_string "ASTGTMV" ++ v ++ list_ascii_of_string "_N" ++ la
    ++ list_ascii_of_string "E" ++ lo ++ list_ascii_of_string "_dem.tif" ++ r
  = list_ascii_of_string "ASTGTMV" ++ v' ++ list_ascii_of_string "_N" ++ la'
    ++ list_ascii_of_string "E" ++ lo' ++ list_ascii_of_string "_dem.tif" ++ r' ->
  v = v' /\ la = la' /\ lo = lo' /\ r = r'.
Proof.
  intros v la lo r v' la' lo' r' [_ Hv] [_ Hla] [_ Hlo] [_ Hv'] [_ Hla'] [_ Hlo'] E.
  apply app_inv_head in E. cbn [list_ascii_of_string app] in E.
  apply digits_split_unique in E; try assumption; try reflexivity.
  destruct E as [-> E]. injection E as E.
  apply digits_split_unique in E; try assumption; try reflexivity.
  destruct E as [-> E]. injection E as E.
  apply digits_split_unique in E; try assumption; try reflexivity.
  destruct E as [-> E]. injection E as E. now subst.
Qed.

(** X10. On a plain file name (ASCII characters, at most 4300 of them),
    [_parse_aster_name] returns a cell exactly when the name is
    [ASTGTMV<digits>_N<digits>E<digits>_dem.tif], optionally followed by one
    final newline: the cell is the one-degree square whose south-west
    corner is the latitude and longitude written in the name, with a
    resolution of 30.  Every other plain name gives None, among them the
    names of the southern or western hemispheres ([S], [W]). *)
Theorem X10_aster_names_recognised : forall name i,
  plain_name name = true ->
  (DEMManager._parse_aster_name name = Some i <->
   exists v la lo nl,
     digits v /\ digits la /\ digits lo
     /\ name = aster_name v la lo nl
     /\ i = {| DEMManager.a_minlat := py_int la;
               DEMManager.a_maxlat := py_int la + 1;
               DEMManager.a_minlon := py_int lo;
               DEMManager.a_maxlon := py_int lo + 1;
               DEMManager.a_res := 30%float |}).
Proof.
  intros name i _. unfold DEMManager._parse_aster_name, re_match. split.
  - destruct (run groups aster_re _ _ _) as [m|] eqn:E; [|discriminate].
    intros Hi. injection Hi as <-.
    apply run_sound_g in E. destruct E as (s1 & s2 & g' & Hs & Hm & Hk).
    injection Hk as <-.
    apply aster_re_matches in Hm.
    destruct Hm as (v & la & lo & Hv & Hla & Hlo & -> & Hrest & ->).
    exists v, la, lo, (match s2 with [] => false | _ => true end).
    repeat split; try apply Hv; try apply Hla; try apply Hlo.
    rewrite <- (string_of_list_ascii_of_string name), Hs.
    unfold aster_name. f_equal. rewrite <- !app_assoc.
    now destruct Hrest as [-> | ->].
  - intros (v & la & lo & nl & Hv & Hla & Hlo & -> & ->).
    unfold aster_name. rewrite list_ascii_of_string_of_list_ascii.
    assert (Hm : matches_g aster_re
              (list_ascii_of_string "ASTGTMV" ++ v ++ list_ascii_of_string "_N"
                 ++ la ++ list_ascii_of_string "E" ++ lo
                 ++ list_ascii_of_string "_dem.tif")
              (line_end nl) no_groups
              (set_group 2 lo (set_group 1 la no_groups))).
    { apply aster_re_matches. exists v, la, lo. repeat split;
        try apply Hv; try apply Hla; try apply Hlo.
      destruct nl; [now right | now left]. }
    destruct (run_complete groups _ _ _ _ _ (fun _ g => Some g) _ Hm eq_refl)
      as [m E].
    rewrite <- !app_assoc in E. rewrite E.
    apply run_sound_g in E. destruct E as (s1 & s2 & g' & Hs & Hm' & Hk).
    injection Hk as <-.
    apply aster_re_matches in Hm'.
    destruct Hm' as (v' & la' & lo' & Hv' & Hla' & Hlo' & -> & _ & ->).
    rewrite <- !app_assoc in Hs.
    apply aster_shape_unique in Hs; try assumption.
    destruct Hs as (_ & -> & -> & _). reflexivity.
Qed.

Lemma X10_witness :
  DEMManager._parse_aster_name "ASTGTMV3_N46E008_dem.tif"
  = Some Fixture.aster_cell_46_8
  <-> exists v la lo nl,
        digits v /\ digits la /\ digits lo
        /\ "ASTGTMV3_N46E008_dem.tif"%string = aster_name v la lo nl
        /\ Fixture.aster_cell_46_8
           = {| DEMManager.a_minlat := py_int la;
                DEMManager.a_maxlat := py_int la + 1;
                DEMManager.a_minlon := py_int lo;
                DEMManager.a_maxlon := py_int lo + 1;
                DEMManager.a_res := 30%float |}.
Proof.
  apply (X10_aster_names_recognised "ASTGTMV3_N46E008_dem.tif"
           Fixture.aster_cell_46_8).
  vm_compute. reflexivity.
Defined.

Lemma split_unique : forall (p : ascii -> bool) (v v' : chars) c c' r r',
  forallb p v = true -> forallb p v' = true ->
  p c = false -> p c' = false ->
  v ++ c :: r = v' ++ c' :: r' -> v = v' /\ c :: r = c' :: r'.
Proof.
  intros p. induction v as [|x v IH]; intros [|x' v'] c c' r r' Hv Hv' Hc Hc' E;
    simpl in *.
  - now split.
  - injection E as -> _. apply andb_true_iff in Hv'. destruct Hv'. congruence.
  - injection E as -> _. apply andb_true_iff in Hv. destruct Hv. congruence.
  - injection E as -> E. apply andb_true_iff in Hv, Hv'.
    destruct (IH v' c c' r r') as [-> H]; tauto.
Qed.

Lemma forallb_rev : forall (p : ascii -> bool) (l : chars),
  forallb p (rev l) = forallb p l.
Proof.
  intros p. induction l as [|x l IH]; [reflexivity|].
  simpl. rewrite forallb_app, IH. simpl. rewrite andb_true_r. apply andb_comm.
Qed.

Lemma split_unique_right : forall (p : ascii -> bool) (v v' : chars) c c' r r',
  forallb p v = true -> forallb p v' = true ->
  p c = false -> p c' = false ->
  r ++ c :: v = r' ++ c' :: v' -> r = r' /\ c = c' /\ v = v'.
Proof.
  intros p v v' c c' r r' Hv Hv' Hc Hc' E.
  apply (f_equal (@rev ascii)) in E.
  rewrite !rev_app_distr in E. cbn [rev] in E. rewrite <- !app_assoc in E.
  cbn [app] in E.
  apply (split_unique p) in E; try assumption; try (now rewrite forallb_rev).
  destruct E as [Ev E]. injection E as -> E.
  apply (f_equal (@rev ascii)) in Ev, E. rewrite !rev_involutive in Ev, E.
  now subst.
Qed.

Lemma digit_is_digit_or_dot : forall s,
  forallb is_digit s = true -> forallb digit_or_dot s = true.
Proof.
  induction s as [|x s IH]; [reflexivity|]. simpl.
  intros H. apply andb_true_iff in H. destruct H as [Hx Hs].
  unfold digit_or_dot at 1. rewrite Hx, IH; auto.
Qed.

Lemma swisstopo_shape_unique : forall pre a b r c d nl pre' a' b' r' c' d' nl',
  digits a -> digits b -> resolution_text r -> digits c -> digits d ->
  digits a' -> digits b' -> resolution_text r' -> digits c' -> digits d' ->
  pre ++ "_"%char :: a ++ "-"%char :: b ++ "_"%char :: r ++ "_"%char :: c
    ++ "_"%char :: d ++ list_ascii_of_string ".tif" ++ line_end nl
  = pre' ++ "_"%char :: a' ++ "-"%char :: b' ++ "_"%char :: r' ++ "_"%char :: c'
    ++ "_"%char :: d' ++ list_ascii_of_string ".tif" ++ line_end nl' ->
  pre = pre' /\ a = a' /\ b = b' /\ r = r' /\ c = c' /\ d = d' /\ nl = nl'.
Proof.
  intros pre a b r c d nl pre' a' b' r' c' d' nl'
    [_ Ha] [_ Hb] [_ Hr] [_ Hc] [_ Hd] [_ Ha'] [_ Hb'] [_ Hr'] [_ Hc'] [_ Hd'] E.
  apply (f_equal (@rev ascii)) in E.
  cbn [list_ascii_of_string] in E.
  repeat (rewrite rev_app_distr in E || cbn [rev] in E).
  rewrite <- !app_assoc in E. cbn [app] in E.
  rewrite <- (forallb_rev _ a) in Ha. rewrite <- (forallb_rev _ b) in Hb.
  rewrite <- (forallb_rev _ r) in Hr. rewrite <- (forallb_rev _ c) in Hc.
  rewrite <- (forallb_rev _ d) in Hd.
  rewrite <- (forallb_rev _ a') in Ha'. rewrite <- (forallb_rev _ b') in Hb'.
  rewrite <- (forallb_rev _ r') in Hr'. rewrite <- (forallb_rev _ c') in Hc'.
  rewrite <- (forallb_rev _ d') in Hd'.
  assert (Enl : nl = nl' /\
    rev d ++ "_"%char :: rev c ++ "_"%char :: rev r ++ "_"%char :: rev b
      ++ "-"%char :: rev a ++ "_"%char :: rev pre
    = rev d' ++ "_"%char :: rev c' ++ "_"%char :: rev r' ++ "_"%char :: rev b'
      ++ "-"%char :: rev a' ++ "_"%char :: rev pre').
  { destruct nl, nl'; cbn [line_end rev app] in E;
      try discriminate E; injection E as E; now split. }
  clear E. destruct Enl as [-> E].
  apply (split_unique is_digit) in E; try assumption; try reflexivity.
  destruct E as [Ed E]. injection E as E.
  apply (split_unique is_digit) in E; try assumption; try reflexivity.
  destruct E as [Ec E]. injection E as E.
  apply (split_unique digit_or_dot) in E; try assumption; try reflexivity.
  destruct E as [Er E]. injection E as E.
  apply (split_unique is_digit) in E; try assumption; try reflexivity.
  destruct E as [Eb E]. injection E as E.
  apply (split_unique is_digit) in E; try assumption; try reflexivity.
  destruct E as [Ea E]. injection E as E.
  apply (f_equal (@rev ascii)) in Ea, Eb, Ec, Ed, Er, E.
  rewrite !rev_involutive in Ea, Eb, Ec, Ed, Er, E.
  now subst.
Qed.

(** The texts matched by the Swisstopo expression, with the groups recorded. *)
Lemma swisstopo_re_matches : forall s rest g',
  matches_g swisstopo_re s rest no_groups g' <->
  exists pre a b r c d,
    forallb any_char pre = true
    /\ digits a /\ digits b /\ resolution_text r /\ digits c /\ digits d
    /\ s = pre ++ "_"%char :: a ++ "-"%char :: b ++ "_"%char :: r
             ++ "_"%char :: c ++ "_"%char :: d ++ list_ascii_of_string ".tif"
    /\ (rest = [] \/ rest = [newline])
    /\ g' = set_group 3 r (set_group 2 b (set_group 1 a no_groups)).
Proof.
  intros s rest g'.
  change swisstopo_re with
    (Seq (LazyStar any_char)
       (Seq (Chr "_")
          (Seq (Grp 1 (Plus is_digit))
             (Seq (Chr "-")
                (Seq (Grp 2 (Plus is_digit))
                   (Seq (Chr "_")
                      (Seq (Grp 3 (Plus digit_or_dot))
                         (Seq (Chr "_")
                            (Seq (Plus is_digit)
                               (Seq (Chr "_")
                                  (Seq (Plus is_digit)
                                     (Seq (lit ".tif") (Seq Eos Eps))))))))))))).
  cbn [matches_g]. split.
  - intros (s1 & r1 & g1 & -> & [Hpre ->]
            & s2 & r2 & g2 & -> & [-> ->]
            & s3 & r3 & g3 & -> & (g3' & [Ha ->] & ->)
            & s4 & r4 & g4 & -> & [-> ->]
            & s5 & r5 & g5 & -> & (g5' & [Hb ->] & ->)
            & s6 & r6 & g6 & -> & [-> ->]
            & s7 & r7 & g7 & -> & (g7' & [Hr ->] & ->)
            & s8 & r8 & g8 & -> & [-> ->]
            & s9 & r9 & g9 & -> & [Hc ->]
            & s10 & r10 & g10 & -> & [-> ->]
            & s11 & r11 & g11 & -> & [Hd ->]
            & s12 & r12 & g12 & -> & H12
            & s13 & r13 & g13 & -> & [[-> Hrest] ->] & [-> ->]).
    apply matches_g_lit in H12. destruct H12 as [-> ->].
    exists s1, s3, s5, s7, s9, s11.
    repeat split; try apply Ha; try apply Hb; try apply Hr; try apply Hc;
      try apply Hd; try assumption.
  - intros (pre & a & b & r & c & d & Hpre & Ha & Hb & Hr & Hc & Hd & -> & Hrest & ->).
    exists pre. eexists _, _. split; [reflexivity|]. split; [now split|].
    exists ["_"%char]. eexists _, _. split; [reflexivity|]. split; [now split|].
    exists a. eexists _, _. split; [reflexivity|].
    split; [exists no_groups; now split|].
    exists ["-"%char]. eexists _, _. split; [reflexivity|]. split; [now split|].
    exists b. eexists _, _. split; [reflexivity|].
    split; [eexists; split; [now split|reflexivity]|].
    exists ["_"%char]. eexists _, _. split; [reflexivity|]. split; [now split|].
    exists r. eexists _, _. split; [reflexivity|].
    split; [eexists; split; [now split|reflexivity]|].
    exists ["_"%char]. eexists _, _. split; [reflexivity|]. split; [now split|].
    exists c. eexists _, _. split; [reflexivity|]. split; [now split|].
    exists ["_"%char]. eexists _, _. split; [reflexivity|]. split; [now split|].
    exists d. eexists _, _. split; [reflexivity|]. split; [now split|].
    exists (list_ascii_of_string ".tif"), [],
      (set_group 3 r (set_group 2 b (set_group 1 a no_groups))).
    split; [rewrite app_nil_r; reflexivity|].
    split; [now apply matches_g_lit|].
    exists [], [], (set_group 3 r (set_group 2 b (set_group 1 a no_groups))).
    repeat split. simpl. exact Hrest.
Qed.

Lemma swisstopo_match_of_name : forall pre a b r c d nl,
  forallb any_char pre = true ->
  digits a -> digits b -> resolution_text r -> digits c -> digits d ->
  re_match swisstopo_re (swisstopo_name pre a b r c d nl)
  = Some (set_group 3 r (set_group 2 b (set_group 1 a no_groups))).
Proof.
  intros pre a b r c d nl Hpre Ha Hb Hr Hc Hd.
  unfold re_match, swisstopo_name.
  rewrite list_ascii_of_string_of_list_ascii.
  assert (Hm : matches_g swisstopo_re
            (pre ++ "_"%char :: a ++ "-"%char :: b ++ "_"%char :: r
               ++ "_"%char :: c ++ "_"%char :: d ++ list_ascii_of_string ".tif")
            (line_end nl) no_groups
            (set_group 3 r (set_group 2 b (set_group 1 a no_groups)))).
  { apply swisstopo_re_matches. exists pre, a, b, r, c, d.
    repeat split; try apply Ha; try apply Hb; try apply Hr; try apply Hc;
      try apply Hd; try assumption.
    destruct nl; [now right | now left]. }
  destruct (run_complete groups _ _ _ _ _ (fun _ g => Some g) _ Hm eq_refl)
    as [m E].
  assert (Eassoc :
    (pre ++ "_"%char :: a ++ "-"%char :: b ++ "_"%char :: r
       ++ "_"%char :: c ++ "_"%char :: d ++ list_ascii_of_string ".tif")
      ++ line_end nl
    = pre ++ "_"%char :: a ++ "-"%char :: b ++ "_"%char :: r
       ++ "_"%char :: c ++ "_"%char :: d ++ list_ascii_of_string ".tif"
       ++ line_end nl).
  { repeat (rewrite <- app_assoc; cbn [app]). reflexivity. }
  rewrite Eassoc in E. rewrite E.
  apply run_sound_g in E. destruct E as (s1 & s2 & g' & Hs & Hm' & Hk).
  injection Hk as <-.
  apply swisstopo_re_matches in Hm'.
  destruct Hm' as (pre' & a' & b' & r' & c' & d' & Hpre' & Ha' & Hb' & Hr'
                   & Hc' & Hd' & -> & Hrest & ->).
  assert (Hs' :
    pre ++ "_"%char :: a ++ "-"%char :: b ++ "_"%char :: r
       ++ "_"%char :: c ++ "_"%char :: d ++ list_ascii_of_string ".tif"
       ++ line_end nl
    = pre' ++ "_"%char :: a' ++ "-"%char :: b' ++ "_"%char :: r'
       ++ "_"%char :: c' ++ "_"%char :: d' ++ list_ascii_of_string ".tif"
       ++ line_end (match s2 with [] => false | _ => true end)).
  { rewrite Hs. repeat (rewrite <- app_assoc; cbn [app]).
    now destruct Hrest as [-> | ->]. }
  apply swisstopo_shape_unique in Hs'; try assumption.
  destruct Hs' as (_ & -> & -> & -> & _). reflexivity.
Qed.

Lemma swisstopo_name_of_match : forall name m,
  re_match swisstopo_re name = Some m ->
  exists pre a b r c d nl,
    forallb any_char pre = true
    /\ digits a /\ digits b /\ resolution_text r /\ digits c /\ digits d
    /\ name = swisstopo_name pre a b r c d nl
    /\ m = set_group 3 r (set_group 2 b (set_group 1 a no_groups)).
Proof.
  intros name m E. unfold re_match in E.
  apply run_sound_g in E. destruct E as (s1 & s2 & g' & Hs & Hm & Hk).
  injection Hk as <-.
  apply swisstopo_re_matches in Hm.
  destruct Hm as (pre & a & b & r & c & d & Hpre & Ha & Hb & Hr & Hc & Hd
                  & -> & Hrest & ->).
  exists pre, a, b, r, c, d, (match s2 with [] => false | _ => true end).
  repeat split; try apply Ha; try apply Hb; try apply Hr; try apply Hc;
    try apply Hd; try assumption.
  rewrite <- (string_of_list_ascii_of_string name), Hs.
  unfold swisstopo_name. f_equal.
  repeat (rewrite <- app_assoc; cbn [app]).
  now destruct Hrest as [-> | ->].
Qed.

(** X11. On a plain file name (ASCII characters, at most 4300 of them),
    [_parse_swisstopo_name] recognises exactly the names
    [<prefix>_<ix>-<iy>_<res>_<digits>_<digits>.tif] (optionally followed by one
    final newline), where the prefix holds no newline, [ix], [iy] are digit
    strings and [res] is a non-empty text of digits and dots.  For such a
    name the outcome is that of [float(res)]: the cell [(int(ix), int(iy))]
    with that resolution, or the [ValueError] of [float]; every other plain
    name gives [None]. *)
Theorem X11_swisstopo_names_recognised : forall name out,
  plain_name name = true ->
  (DEMManager._parse_swisstopo_name name = out <->
  (exists pre a b r c d nl,
      forallb any_char pre = true
      /\ digits a /\ digits b /\ resolution_text r /\ digits c /\ digits d
      /\ name = swisstopo_name pre a b r c d nl
      /\ out = match py_float r with
               | Raise ex => Raise ex
               | Ok res =>
                   Ok (Some {| DEMManager.ix := py_int a;
                               DEMManager.iy := py_int b;
                               DEMManager.res := res |})
               end)
  \/ ((forall pre a b r c d nl,
          forallb any_char pre = true ->
          digits a -> digits b -> resolution_text r -> digits c -> digits d ->
          name <> swisstopo_name pre a b r c d nl)
      /\ out = Ok None)).
Proof.
  intros name out _. unfold DEMManager._parse_swisstopo_name. split.
  - intros <-. destruct (re_match swisstopo_re name) as [m|] eqn:E.
    + left. apply swisstopo_name_of_match in E.
      destruct E as (pre & a & b & r & c & d & nl & Hpre & Ha & Hb & Hr & Hc
                     & Hd & -> & ->).
      exists pre, a, b, r, c, d, nl.
      repeat split; try apply Ha; try apply Hb; try apply Hr; try apply Hc;
        try apply Hd; assumption.
    + right. split; [|reflexivity].
      intros pre a b r c d nl Hpre Ha Hb Hr Hc Hd ->.
      rewrite swisstopo_match_of_name in E; try assumption. discriminate.
  - intros [(pre & a & b & r & c & d & nl & Hpre & Ha & Hb & Hr & Hc & Hd & -> & ->)
           | [Hno ->]].
    + rewrite swisstopo_match_of_name; try assumption. reflexivity.
    + destruct (re_match swisstopo_re name) as [m|] eqn:E; [|reflexivity].
      exfalso. apply swisstopo_name_of_match in E.
      destruct E as (pre & a & b & r & c & d & nl & Hpre & Ha & Hb & Hr & Hc
                     & Hd & -> & _).
      now apply (Hno pre a b r c d nl).
Qed.

Lemma X11_witness :
  DEMManager._parse_swisstopo_name "grid_12-07_0.5_1_1.tif"
  = Ok (Some {| DEMManager.ix := 12; DEMManager.iy := 7;
                DEMManager.res := 0.5%float |}).
Proof.
  apply (X11_swisstopo_names_recognised "grid_12-07_0.5_1_1.tif"
           (Ok (Some {| DEMManager.ix := 12; DEMManager.iy := 7;
                        DEMManager.res := 0.5%float |}))).
  - vm_compute. reflexivity.
  - left.
    exists (list_ascii_of_string "grid"), (list_ascii_of_string "12"),
      (list_ascii_of_string "07"), (list_ascii_of_string "0.5"),
      (list_ascii_of_string "1"), (list_ascii_of_string "1"), false.
    vm_compute. repeat split; discriminate.
Defined.

(** ** Order of binary64 numbers by their values *)

Lemma float_value_sf : forall f, float_value f = sf_value (Prim2SF f).
Proof. reflexivity. Qed.

Lemma bounded_range : forall m e,
  bounded prec emax m e = true ->
  -1074 <= e /\ Z.pos m < 2 ^ 53 /\ (-1074 < e -> 2 ^ 52 <= Z.pos m).
Proof.
  intros m e H. pose proof (canonical_digits m e H) as Hm.
  unfold bounded in H. apply andb_true_iff in H. destruct H as [H _].
  unfold canonical_mantissa in H. apply Z.eqb_eq in H.
  unfold fexp, emin, prec, emax in H.
  destruct (digits2_bounds m) as [Hlo _].
  split; [lia|]. split; [assumption|]. intros He.
  assert (Hd : Z.pos (digits2_pos m) = 53) by lia.
  rewrite Hd in Hlo. exact Hlo.
Qed.

Lemma Qpower2_gt0 : forall e, (0 < Qpower (2 # 1) e)%Q.
Proof. intros e. apply Qpower_0_lt. reflexivity. Qed.

Lemma pos_value_order : forall m1 e1 m2 e2,
  bounded prec emax m1 e1 = true -> bounded prec emax m2 e2 = true ->
  e1 < e2 ->
  (inject_Z (Z.pos m1) * Qpower (2 # 1) e1
   < inject_Z (Z.pos m2) * Qpower (2 # 1) e2)%Q.
Proof.
  intros m1 e1 m2 e2 H1 H2 He.
  destruct (bounded_range _ _ H1) as (L1 & U1 & _).
  destruct (bounded_range _ _ H2) as (_ & _ & N2).
  specialize (N2 ltac:(lia)).
  replace e2 with ((e2 - e1) + e1) by lia.
  rewrite Qpower_plus by discriminate.
  destruct (e2 - e1) as [|d|d] eqn:Ed; try lia.
  rewrite Qpower2_pos, Qmult_assoc, <- inject_Z_mult.
  apply Qmult_lt_compat_r; [apply Qpower2_gt0|].
  rewrite <- Zlt_Qlt.
  assert (2 <= 2 ^ Z.pos d).
  { change 2 with (2 ^ 1) at 1. apply Z.pow_le_mono_r; lia. }
  nia.
Qed.

Lemma same_exp_order : forall (a b : Z) e,
  a <= b ->
  (inject_Z a * Qpower (2 # 1) e <= inject_Z b * Qpower (2 # 1) e)%Q.
Proof.
  intros a b e H. apply Qmult_le_compat_r.
  - now rewrite <- Zle_Qle.
  - apply Qlt_le_weak, Qpower2_gt0.
Qed.

Lemma neg_value_le0 : forall m e,
  (inject_Z (Z.neg m) * Qpower (2 # 1) e <= 0)%Q.
Proof.
  intros m e. setoid_replace (0 # 1)%Q with (inject_Z 0 * Qpower (2 # 1) e)%Q
    by (now rewrite Qmult_0_l).
  apply same_exp_order. lia.
Qed.

Lemma pos_value_ge0 : forall m e,
  (0 <= inject_Z (Z.pos m) * Qpower (2 # 1) e)%Q.
Proof.
  intros m e. setoid_replace (0 # 1)%Q with (inject_Z 0 * Qpower (2 # 1) e)%Q
    by (now rewrite Qmult_0_l).
  apply same_exp_order. lia.
Qed.

Lemma neg_value_opp : forall m e,
  (inject_Z (Z.neg m) * Qpower (2 # 1) e
   == - (inject_Z (Z.pos m) * Qpower (2 # 1) e))%Q.
Proof.
  intros m e. change (Z.neg m) with (- Z.pos m). rewrite inject_Z_opp. ring.
Qed.

(** [x < y] false between two valid finite numbers: the value of [y] is at
    most that of [x]. *)
Lemma SFltb_false_value : forall x y qx qy,
  valid_binary x = true -> valid_binary y = true ->
  sf_value x = Some qx -> sf_value y = Some qy ->
  SFltb x y = false -> (qy <= qx)%Q.
Proof.
  intros x y qx qy Vx Vy Hx Hy H. unfold SFltb in H.
  destruct x as [sx|sx| |sx mx ex], y as [sy|sy| |sy my ey];
    try discriminate; simpl in Hx, Hy, H, Vx, Vy;
    injection Hx as <-; injection Hy as <-.
  - apply Qle_refl.
  - destruct sy; [|discriminate]. apply neg_value_le0.
  - destruct sx; [discriminate|]. apply pos_value_ge0.
  - destruct sx, sy; try discriminate; cbn [cond_Zopp Z.opp].
    + destruct (Z.compare_spec ex ey) as [E|E|E]; try discriminate.
      * subst ey. apply same_exp_order.
        change (Pos.compare_cont Eq mx my) with (Pos.compare mx my) in H.
        destruct (Pos.compare_spec mx my); try discriminate; lia.
      * rewrite !neg_value_opp. apply Qopp_le_compat, Qlt_le_weak.
        now apply pos_value_order.
    + eapply Qle_trans; [apply neg_value_le0 | apply pos_value_ge0].
    + destruct (Z.compare_spec ex ey) as [E|E|E]; try discriminate.
      * subst ey. apply same_exp_order.
        change (Pos.compare_cont Eq mx my) with (Pos.compare mx my) in H.
        destruct (Pos.compare_spec mx my); try discriminate; lia.
      * apply Qlt_le_weak. now apply pos_value_order.
Qed.

Lemma int_lt_float_below : forall z m x qx,
  int_lt_float z m = true -> PrimFloat.ltb x m = false ->
  float_value x = Some qx -> (inject_Z z < qx)%Q.
Proof.
  intros z m x qx Hz Hlt Hx. rewrite ltb_spec in Hlt.
  unfold int_lt_float in Hz. rewrite !float_value_sf in *.
  pose proof (Prim2SF_valid x) as Vx. pose proof (Prim2SF_valid m) as Vm.
  destruct (Prim2SF m) as [sm|sm| |sm mm em] eqn:Em; try discriminate.
  - simpl sf_value in Hz; cbv beta iota in Hz.
    destruct (Qcompare_spec (inject_Z z) 0) as [E|E|E]; try discriminate.
    eapply Qlt_le_trans; [exact E|].
    now apply (SFltb_false_value (Prim2SF x) (S754_zero sm)).
  - destruct sm; [discriminate|].
    destruct (Prim2SF x); try discriminate.
  - simpl sf_value in Hz; cbv beta iota in Hz.
    match type of Hz with
    | match Qcompare ?a ?b with _ => _ end = _ =>
        destruct (Qcompare_spec a b) as [E|E|E]; try discriminate
    end.
    eapply Qlt_le_trans; [exact E|].
    now apply (SFltb_false_value (Prim2SF x) (S754_finite sm mm em)).
Qed.

Lemma int_gt_float_above : forall z m x qx,
  int_gt_float z m = true -> PrimFloat.ltb m x = false ->
  float_value x = Some qx -> (qx < inject_Z z)%Q.
Proof.
  intros z m x qx Hz Hlt Hx. rewrite ltb_spec in Hlt.
  unfold int_gt_float in Hz. rewrite !float_value_sf in *.
  pose proof (Prim2SF_valid x) as Vx. pose proof (Prim2SF_valid m) as Vm.
  destruct (Prim2SF m) as [sm|sm| |sm mm em] eqn:Em; try discriminate.
  - simpl sf_value in Hz; cbv beta iota in Hz.
    destruct (Qcompare_spec (inject_Z z) 0) as [E|E|E]; try discriminate.
    eapply Qle_lt_trans; [|exact E].
    now apply (SFltb_false_value (S754_zero sm) (Prim2SF x)).
  - destruct sm; [|discriminate].
    destruct (Prim2SF x); try discriminate.
  - simpl sf_value in Hz; cbv beta iota in Hz.
    match type of Hz with
    | match Qcompare ?a ?b with _ => _ end = _ =>
        destruct (Qcompare_spec a b) as [E|E|E]; try discriminate
    end.
    eapply Qle_lt_trans; [|exact E].
    now apply (SFltb_false_value (S754_finite sm mm em) (Prim2SF x)).
Qed.

Lemma int_lt_float_not_nan : forall z m, int_lt_float z m = true -> not_nan m.
Proof.
  intros z m H E. unfold int_lt_float in H. now rewrite E in H.
Qed.

Lemma int_gt_float_not_nan : forall z m, int_gt_float z m = true -> not_nan m.
Proof.
  intros z m H E. unfold int_gt_float in H. now rewrite E in H.
Qed.

Lemma overlap_of_containing_cell :
  forall (coords : list (float * float)) (b : DEMManager.bbox)
         (i : DEMManager.aster_info) (lat lon : float),
    DEMManager.coords_bbox coords = Ok b ->
    In (lat, lon) coords ->
    cell_contains i lat lon = true ->
    DEMManager.aster_overlaps i b = true.
Proof.
  intros coords b i lat lon Hb Hin Hc.
  destruct (coords_bbox_fields _ _ Hb) as (H1 & H2 & H3 & H4).
  destruct (py_min_spec _ _ H1) as [_ M1].
  destruct (py_max_spec _ _ H2) as [_ M2].
  destruct (py_min_spec _ _ H3) as [_ M3].
  destruct (py_max_spec _ _ H4) as [_ M4].
  assert (Hlat : In lat (map fst coords))
    by (change lat with (fst (lat, lon)); now apply in_map).
  assert (Hlon : In lon (map snd coords))
    by (change lon with (snd (lat, lon)); now apply in_map).
  unfold cell_contains in Hc.
  destruct (float_value lat) as [qa|] eqn:Ea; [|discriminate].
  destruct (float_value lon) as [qo|] eqn:Eo; [|discriminate].
  apply andb_true_iff in Hc. destruct Hc as [Hc Cd].
  apply andb_true_iff in Hc. destruct Hc as [Hc Cc].
  apply andb_true_iff in Hc. destruct Hc as [Ca Cb].
  apply Qle_bool_iff in Ca, Cb, Cc, Cd.
  unfold DEMManager.aster_overlaps. apply negb_true_iff.
  repeat (apply orb_false_iff; split).
  - destruct (int_lt_float _ (DEMManager.q_minlat b)) eqn:E; [|reflexivity].
    pose proof (M1 (int_lt_float_not_nan _ _ E) lat Hlat) as F.
    pose proof (int_lt_float_below _ _ _ _ E F Ea) as G.
    now apply Qlt_not_le in G.
  - destruct (int_gt_float _ (DEMManager.q_maxlat b)) eqn:E; [|reflexivity].
    pose proof (M2 (int_gt_float_not_nan _ _ E) lat Hlat) as F.
    pose proof (int_gt_float_above _ _ _ _ E F Ea) as G.
    now apply Qlt_not_le in G.
  - destruct (int_lt_float _ (DEMManager.q_minlon b)) eqn:E; [|reflexivity].
    pose proof (M3 (int_lt_float_not_nan _ _ E) lon Hlon) as F.
    pose proof (int_lt_float_below _ _ _ _ E F Eo) as G.
    now apply Qlt_not_le in G.
  - destruct (int_gt_float _ (DEMManager.q_maxlon b)) eqn:E; [|reflexivity].
    pose proof (M4 (int_gt_float_not_nan _ _ E) lon Hlon) as F.
    pose proof (int_gt_float_above _ _ _ _ E F Eo) as G.
    now apply Qlt_not_le in G.
Qed.

(** X12. When [load_tiles_for_coords] returns and no fine tile overlaps the
    batch, no covering ASTER tile is missing: every ASTER file of the listing
    whose one-degree square contains some point of the batch is opened and
    its tile is among the loaded tiles, whatever the other points of the
    batch are. *)
Theorem X12_covering_coarse_tile_is_loaded :
  forall (w : World) (self self' : DEMManager.t)
         (coords : list (float * float)) (b : DEMManager.bbox)
         (ts : list DEMTile.t) (log : list string)
         (p : Path) (i : DEMManager.aster_info) (lat lon : float),
    DEMManager.load_tiles_for_coords w self coords [] = (Ok (self', ts), log) ->
    DEMManager.coords_bbox coords = Ok b ->
    overlapping_fine w b (DEMManager.tif_files w self) = [] ->
    In p (DEMManager.tif_files w self) ->
    coarse p i ->
    In (lat, lon) coords ->
    cell_contains i lat lon = true ->
    exists t, open_tile w (str p) = Ok t
              /\ In t ts /\ In t (DEMManager.tiles self').
Proof.
  intros w self self' coords b ts log p i lat lon Hload Hb Hnone Hp Hi Hin Hc.
  destruct (load_ok_spec _ _ _ _ _ _ Hload) as (b' & Hb' & Htiles & Hts & _ & _).
  rewrite Hb in Hb'. injection Hb' as <-.
  cbv zeta in Hts. rewrite Hnone in Hts.
  pose proof (overlap_of_containing_cell _ _ _ _ _ Hb Hin Hc) as Ho.
  assert (Hsel : In p (overlapping_coarse (DEMManager.tif_files w self) b)).
  { apply overlapping_coarse_in. split; [assumption|]. now exists i. }
  destruct (proj1 (result_map_in _ _ _ _ _ Hts) p Hsel) as (t & Ht & Hin').
  exists t. rewrite Htiles. now repeat split.
Qed.

Lemma coarse_load_result :
  DEMManager.load_tiles_for_coords Fixture.coarse_world Fixture.manager
    Fixture.batch []
  = (Ok (coarse_loaded, [Fixture.aster_tile]),
     ["dem/ASTGTMV3_N46E008_dem.tif"]%string).
Proof. vm_compute. reflexivity. Qed.

Lemma X12_witness :
  exists t, open_tile Fixture.coarse_world (str Fixture.aster_file) = Ok t
            /\ In t [Fixture.aster_tile]
            /\ In t (DEMManager.tiles coarse_loaded).
Proof.
  apply (X12_covering_coarse_tile_is_loaded Fixture.coarse_world
           Fixture.manager coarse_loaded Fixture.batch Fixture.batch_box
           [Fixture.aster_tile] _ Fixture.aster_file Fixture.aster_cell_46_8
           46.5%float 8.5%float coarse_load_result).
  - vm_compute. reflexivity.
  - vm_compute. reflexivity.
  - vm_compute. left. reflexivity.
  - vm_compute. split; reflexivity.
  - left. reflexivity.
  - vm_compute. reflexivity.
Defined.

Lemma after_dot_none : forall s, after_dot s = None -> filter is_dot s = [].
Proof.
  induction s as [|c s IH]; [reflexivity|]. simpl.
  destruct (is_dot c); [discriminate|]. exact IH.
Qed.

(** [float(s)] fails exactly on a text without digit or with two dots. *)
Lemma py_float_raises : forall s ex,
  py_float s = Raise ex <->
  ex = ValueError
  /\ (filter is_digit s = [] \/ (2 <= List.length (filter is_dot s))%nat).
Proof.
  intros s ex. unfold py_float.
  destruct (filter is_digit s) as [|x ds] eqn:Ed.
  - split; [intros H; injection H as <-; split; [reflexivity | now left]|].
    now intros [-> _].
  - destruct (filter is_dot s) as [|y [|y' dots]] eqn:Eo.
    + split; [discriminate|]. intros [_ [H|H]]; [discriminate | simpl in H; lia].
    + destruct (after_dot s) eqn:Ea.
      * split; [discriminate|].
        intros [_ [H|H]]; [discriminate | simpl in H; lia].
      * apply after_dot_none in Ea. rewrite Ea in Eo. discriminate.
    + split; [intros H; injection H as <-; split; [reflexivity|right; simpl; lia]|].
      now intros [-> _].
Qed.

(** X13. The plain file names (ASCII characters, at most 4300 of them) on
    which [_parse_swisstopo_name] raises are exactly the names of the
    Swisstopo shape whose resolution text holds no digit or more than one
    dot; the exception is then [ValueError]. *)
Theorem X13_names_on_which_the_parser_raises : forall name ex,
  plain_name name = true ->
  (DEMManager._parse_swisstopo_name name = Raise ex <->
  ex = ValueError
  /\ exists pre a b r c d nl,
       forallb any_char pre = true
       /\ digits a /\ digits b /\ resolution_text r /\ digits c /\ digits d
       /\ name = swisstopo_name pre a b r c d nl
       /\ (filter is_digit r = []
           \/ (2 <= List.length (filter is_dot r))%nat)).
Proof.
  intros name ex _. unfold DEMManager._parse_swisstopo_name. split.
  - destruct (re_match swisstopo_re name) as [m|] eqn:E; [|discriminate].
    apply swisstopo_name_of_match in E.
    destruct E as (pre & a & b & r & c & d & nl & Hpre & Ha & Hb & Hr & Hc
                   & Hd & -> & ->).
    change (group (set_group 3 r (set_group 2 b (set_group 1 a no_groups))) 3)
      with r.
    destruct (py_float r) as [res|ex'] eqn:Ef; [discriminate|].
    intros H. injection H as <-.
    apply py_float_raises in Ef. destruct Ef as [-> Hbad].
    split; [reflexivity|]. exists pre, a, b, r, c, d, nl.
    repeat split; try apply Ha; try apply Hb; try apply Hr; try apply Hc;
      try apply Hd; assumption.
  - intros (-> & pre & a & b & r & c & d & nl & Hpre & Ha & Hb & Hr & Hc & Hd
            & -> & Hbad).
    rewrite swisstopo_match_of_name; try assumption.
    change (group (set_group 3 r (set_group 2 b (set_group 1 a no_groups))) 3)
      with r.
    assert (Ef : py_float r = Raise ValueError)
      by (apply py_float_raises; now split).
    now rewrite Ef.
Qed.

Lemma X13_witness :
  DEMManager._parse_swisstopo_name "grid_12-07_0.5.1_1_1.tif"
  = Raise ValueError.
Proof.
  apply (X13_names_on_which_the_parser_raises "grid_12-07_0.5.1_1_1.tif"
           ValueError).
  - vm_compute. reflexivity.
  - split; [reflexivity|].
    exists (list_ascii_of_string "grid"), (list_ascii_of_string "12"),
      (list_ascii_of_string "07"), (list_ascii_of_string "0.5.1"),
      (list_ascii_of_string "1"), (list_ascii_of_string "1"), false.
    vm_compute. repeat split; try discriminate. right. repeat constructor.
Defined.

(** ** Ties between equally fine files *)

Lemma sort_head_first_minimal : forall es h t,
  (forall e, In e es -> not_nan (fst e)) ->
  DEMManager.sort_entries es = h :: t ->
  exists l1 l2,
    es = l1 ++ h :: l2
    /\ (forall e, In e l1 -> PrimFloat.ltb (fst h) (fst e) = true)
    /\ (forall e, In e l2 -> PrimFloat.ltb (fst e) (fst h) = false).
Proof.
  induction es as [|e es IH]; intros h t Hnan H; [discriminate|].
  simpl in H.
  destruct (DEMManager.sort_entries es) as [|h' t'] eqn:Hs.
  - apply sort_entries_nil in Hs. subst es. simpl in H. injection H as <- <-.
    exists [], []. repeat split; intros x [].
  - destruct (IH h' t' (fun x Hx => Hnan x (or_intror Hx)) eq_refl)
      as (l1 & l2 & -> & B1 & B2).
    simpl in H. destruct (PrimFloat.ltb (fst h') (fst e)) eqn:Hlt.
    + injection H as <- _. exists (e :: l1), l2. repeat split.
      * intros x [<-|Hx]; [exact Hlt | now apply B1].
      * exact B2.
    + injection H as <- _. exists [], (l1 ++ h' :: l2). repeat split.
      * intros x [].
      * intros x Hx. apply in_app_or in Hx.
        assert (Nh : not_nan (fst h')).
        { apply Hnan. right. apply in_or_app. right. now left. }
        destruct Hx as [Hx|[<-|Hx]].
        -- destruct (PrimFloat.ltb (fst x) (fst e)) eqn:F; [|reflexivity].
           rewrite (ltb_trans _ _ _ (B1 x Hx) F) in Hlt. discriminate.
        -- exact Hlt.
        -- apply ltb_neg_trans with (h := fst h'); auto.
Qed.

(** X14. Among the files of one cell the file taken is the first of the
    listing with the smallest resolution: every file of the cell listed
    before it has a strictly larger resolution, and no file listed after it
    has a smaller one, so of two equally fine files the one listed first is
    taken. *)
Theorem X14_first_of_the_finest_is_taken : forall files k q,
  DEMManager.finest_of (group_entries files k) = Ok q ->
  exists l1 r l2,
    group_entries files k = l1 ++ (r, q) :: l2
    /\ (forall e, In e l1 -> PrimFloat.ltb r (fst e) = true)
    /\ (forall e, In e l2 -> PrimFloat.ltb (fst e) r = false).
Proof.
  intros files k q H. unfold DEMManager.finest_of in H.
  destruct (DEMManager.sort_entries (group_entries files k)) as [|[r q'] t]
    eqn:Hs; [discriminate|].
  injection H as <-.
  destruct (sort_head_first_minimal _ _ _ (group_entries_not_nan files k) Hs)
    as (l1 & l2 & E & B1 & B2).
  exists l1, r, l2. auto.
Qed.

Lemma X14_witness :
  exists l1 r l2,
    group_entries [Fixture.coarser_file; Fixture.finer_file] (12, 7)
    = l1 ++ (r, Fixture.finer_file) :: l2
    /\ (forall e, In e l1 -> PrimFloat.ltb r (fst e) = true)
    /\ (forall e, In e l2 -> PrimFloat.ltb (fst e) r = false).
Proof.
  apply (X14_first_of_the_finest_is_taken
           [Fixture.coarser_file; Fixture.finer_file] (12, 7)
           Fixture.finer_file).
  vm_compute. reflexivity.
Defined.

(** ** From the load to the query *)

Lemma probe_finds_value : forall lat lon ts t z,
  In t ts ->
  DEMTile.bbox_contains t lat lon = true ->
  DEMTile.get_elevation t lat lon = Ok (Some z) ->
  (forall u ex, In u ts -> DEMTile.bbox_contains u lat lon = true ->
     DEMTile.get_elevation u lat lon <> Raise ex) ->
  exists z', DEMManager.probe ts lat lon = Ok (Some z').
Proof.
  intros lat lon ts t z Hin Hc Hz Hno.
  destruct (DEMManager.probe ts lat lon) as [[z'|]|ex] eqn:E.
  - now exists z'.
  - apply probe_none in E. rewrite (E t Hin Hc) in Hz. discriminate.
  - apply probe_raises in E.
    destruct E as (b & t' & a & -> & _ & Ht' & Hr).
    exfalso. apply (Hno t' ex); try assumption.
    apply in_or_app. right. now left.
Qed.

(** X15. From the load to the query: when [load_tiles_for_coords] returns
    and the file chosen for a cell gives a tile that contains a point of the
    batch and holds a value there, [get_elevation] of the manager returns an
    elevation for that point (not [None]), provided no loaded tile raises at
    that point. *)
Theorem X15_covered_point_gets_an_elevation :
  forall (w : World) (self self' : DEMManager.t)
         (coords : list (float * float)) (ts : list DEMTile.t)
         (log : list string) (p : Path) (i : DEMManager.swiss_info)
         (t : DEMTile.t) (lat lon z : float),
    DEMManager.load_tiles_for_coords w self coords [] = (Ok (self', ts), log) ->
    In p (DEMManager.tif_files w self) ->
    fine p i ->
    DEMManager.finest_of
      (group_entries (DEMManager.tif_files w self) (cell_of i)) = Ok p ->
    open_tile w (str p) = Ok t ->
    In (lat, lon) coords ->
    DEMTile.bbox_contains t lat lon = true ->
    DEMTile.get_elevation t lat lon = Ok (Some z) ->
    (forall u ex, In u ts -> DEMTile.bbox_contains u lat lon = true ->
       DEMTile.get_elevation u lat lon <> Raise ex) ->
    exists z', DEMManager.get_elevation self' lat lon = Ok (Some z').
Proof.
  intros w self self' coords ts log p i t lat lon z
    Hload Hp Hi Hq Ht Hin Hc Hz Hno.
  destruct (covering_fine_tile_in_load _ _ _ _ _ _ _ _ _ _ _
              Hload Hp Hi Hq Ht Hin Hc) as [Hts Hself].
  destruct (load_ok_spec _ _ _ _ _ _ Hload) as (_ & _ & Htiles & _).
  unfold DEMManager.get_elevation. rewrite Htiles.
  eapply probe_finds_value; eassumption.
Qed.

Lemma X15_witness :
  exists z', DEMManager.get_elevation scenario_loaded 46.5%float 8.5%float
             = Ok (Some z').
Proof.
  eapply (X15_covered_point_gets_an_elevation Fixture.scenario_world
            Fixture.manager scenario_loaded Fixture.batch [scenario_tile] _
            Fixture.finer_file
            {| DEMManager.ix := 12; DEMManager.iy := 7;
               DEMManager.res := 0.5%float |}
            scenario_tile 46.5%float 8.5%float _ scenario_load_result).
  - vm_compute. right. left. reflexivity.
  - vm_compute. reflexivity.
  - vm_compute. reflexivity.
  - vm_compute. reflexivity.
  - left. reflexivity.
  - vm_compute. reflexivity.
  - vm_compute. reflexivity.
  - intros u ex [<-|[]] _. vm_compute. discriminate.
Defined.
